(** * Paladin public transaction engine: pool manager, completion cache,
      wake channel, default configuration and JSON/RPC receipt delivery.

    A shallow embedding of [package publictxmgr] (engine loop, [poll],
    [MarkInFlightOrchestratorsStale], [CheckTransactionCompleted],
    [updateCompletedTxNonce], [DefaultTransactionEngineConfig]) and of
    [package txmgr]'s [rpcEventStreams] ([HandleLifecycle],
    [DeliverReceiptBatch]).

    Conventions.
    - Go [int], [time.Time] and [time.Duration] are [Z]; instants and
      durations are counted in nanoseconds, as [time.Duration] does.
      [big.Int] nonces are [Z].
    - A Go [map[string]T] is a [gmap string T].  Go iterates a map in an
      unspecified order; the loops below are [map_fold]s, and nothing the
      theorems state depends on the order chosen.
    - A buffered channel is the list of values it holds, with its capacity
      written at each send.  A [chan struct{}] that is only ever closed is a
      [bool].
    - A pointer shared between a map and a caller is a location into an
      explicit heap.
    - A goroutine blocked in a [select] is an entry in the list of the
      calls that wait; a send or a close by another goroutine takes it
      off the list.
    - The clock is read once per call: [now] is an argument. *)

From stdpp Require Import gmap strings list fin_maps.
From Stdlib Require Import ZArith QArith Qround Lia SpecFloat Ascii.

Open Scope Z_scope.

(** Go compares with [>]; these make [decide (x > y)] available. *)
#[global] Instance Zgt_dec : RelDecision Z.gt := Z_gt_dec.
#[global] Instance natgt_dec : RelDecision gt := fun x y => decide (y < x)%nat.
#[global] Instance Zge_dec : RelDecision Z.ge := Z_ge_dec.

(** ** Go channels with a buffer *)

Module Chan.

(** [select { case ch <- v: default: }] on a channel of capacity [cap]. *)
Definition try_send {A} (cap : nat) (v : A) (ch : list A) : list A :=
  if decide (length ch < cap)%nat then ch ++ [v] else ch.

(** A receive that is ready: the oldest value and the rest. *)
Definition recv {A} (ch : list A) : option (A * list A) :=
  match ch with
  | [] => None
  | v :: rest => Some (v, rest)
  end.

End Chan.

(** ** Durations *)

Module Duration.

Definition Nanosecond : Z := 1.
Definition Microsecond : Z := 1000 * Nanosecond.
Definition Millisecond : Z := 1000 * Microsecond.
Definition Second : Z := 1000 * Millisecond.
Definition Minute : Z := 60 * Second.
Definition Hour : Z := 60 * Minute.

Definition digit_of (c : Ascii.ascii) : option Z :=
  let n := Ascii.nat_of_ascii c in
  if decide (48 <= n <= 57)%nat then Some (Z.of_nat n - 48) else None.

(** A [float64]: IEEE 754 binary64, rounding to nearest even. *)
Definition float64 := spec_float.
Definition float64_of (n : Z) : float64 := binary_normalize 53 1024 n 0 false.
Definition fmul : float64 → float64 → float64 := SFmul 53 1024.
Definition fdiv : float64 → float64 → float64 := SFdiv 53 1024.

(** [uint64(x)] of a float that is not negative and within range: the
    fraction is dropped. *)
Definition uint64_of (x : float64) : Z :=
  match x with
  | S754_finite false m e => Z.shiftl (Z.pos m) e
  | _ => 0
  end.

(** [1<<63], the bound of the overflow checks, and [uint64] addition. *)
Definition two63 : Z := 2 ^ 63.
Definition add64 (x y : Z) : Z := (x + y) mod 2 ^ 64.

(** [leadingInt]: the leading digits of [s] and what follows them;
    [None] is [errLeadingInt]. *)
Fixpoint leadingInt (s : string) (x : Z) : option (Z * string) :=
  match s with
  | EmptyString => Some (x, EmptyString)
  | String c rest =>
      match digit_of c with
      | None => Some (x, s)
      | Some d =>
          if decide (x > two63 / 10) then None
          else
            let x' := x * 10 + d in
            if decide (x' > two63) then None else leadingInt rest x'
      end
  end.

(** [leadingFraction]: the leading digits of [s] as a numerator and a
    scale; digits past the range are read and dropped. *)
Fixpoint leadingFraction (s : string) (x : Z) (scale : float64) (overflow : bool)
    : Z * float64 * string :=
  match s with
  | EmptyString => (x, scale, EmptyString)
  | String c rest =>
      match digit_of c with
      | None => (x, scale, s)
      | Some d =>
          if overflow then leadingFraction rest x scale true
          else if decide (x > (two63 - 1) / 10) then leadingFraction rest x scale true
          else
            let y := x * 10 + d in
            if decide (y > two63) then leadingFraction rest x scale true
            else leadingFraction rest y (fmul scale (float64_of 10)) false
      end
  end.

(** The unit of a term: the characters up to the next digit or period. *)
Fixpoint leadingUnit (s : string) : string * string :=
  match s with
  | EmptyString => (EmptyString, EmptyString)
  | String c rest =>
      if decide (c = "."%char ∨ is_Some (digit_of c)) then (EmptyString, s)
      else let '(u, rem) := leadingUnit rest in (String c u, rem)
  end.

(** [unitMap]; the two spellings of the microsecond with a Greek letter
    are U+00B5 and U+03BC in UTF-8. *)
Definition unitMap (u : string) : option Z :=
  if decide (u = "ns") then Some Nanosecond
  else if decide (u = "us") then Some Microsecond
  else if decide (u = String (Ascii.ascii_of_nat 194)
                         (String (Ascii.ascii_of_nat 181) "s")) then Some Microsecond
  else if decide (u = String (Ascii.ascii_of_nat 206)
                         (String (Ascii.ascii_of_nat 188) "s")) then Some Microsecond
  else if decide (u = "ms") then Some Millisecond
  else if decide (u = "s") then Some Second
  else if decide (u = "m") then Some Minute
  else if decide (u = "h") then Some Hour
  else None.

(** One turn of the loop of [ParseDuration]: a term (digits, then
    maybe a period and digits, then a unit) read off [s] and added to
    [d]. *)
Definition term (s : string) (d : Z) : option (Z * string) :=
  match s with
  | EmptyString => None
  | String c _ =>
      if decide (c = "."%char ∨ is_Some (digit_of c)) then
        '(v, s1) ← leadingInt s 0;
        let pre := bool_decide (String.length s ≠ String.length s1) in
        let '(f, scale, s2, post) :=
          match s1 with
          | String "."%char s1' =>
              let '(f, scale, s2) := leadingFraction s1' 0 (float64_of 1) false in
              (f, scale, s2, bool_decide (String.length s1' ≠ String.length s2))
          | _ => (0, float64_of 1, s1, false)
          end in
        if negb pre && negb post then None
        else
          let '(u, s3) := leadingUnit s2 in
          if decide (u = EmptyString) then None
          else
            unit ← unitMap u;
            if decide (v > two63 / unit) then None
            else
              let v1 := v * unit in
              v2 ← (if decide (f > 0) then
                      let w := add64 v1 (uint64_of (fmul (float64_of f)
                                                     (fdiv (float64_of unit) scale))) in
                      if decide (w > two63) then None else Some w
                    else Some v1);
              let d' := add64 d v2 in
              if decide (d' > two63) then None else Some (d', s3)
      else None
  end.

(** The loop [for s != ""]; every turn shortens [s], [fuel] is its
    length. *)
Fixpoint terms (fuel : nat) (s : string) (d : Z) : option Z :=
  match s with
  | EmptyString => Some d
  | _ =>
      match fuel with
      | O => None
      | S fuel' => '(d', s') ← term s d; terms fuel' s' d'
      end
  end.

(** Go's [time.ParseDuration]: a sign maybe, then terms; the result is
    in nanoseconds, [None] is an error. *)
Definition ParseDuration (s : string) : option Z :=
  let '(neg, s1) :=
    match s with
    | String "-"%char rest => (true, rest)
    | String "+"%char rest => (false, rest)
    | _ => (false, s)
    end in
  if decide (s1 = "0") then Some 0
  else if decide (s1 = EmptyString) then None
  else
    d ← terms (String.length s1) s1 0;
    if neg then Some (- d)
    else if decide (d > two63 - 1) then None else Some d.

End Duration.

(** ** Configuration *)

Module Config.

(** confutil.P(v): a pointer to [v]; a nil pointer is [None]. *)
Definition P {A} (v : A) : option A := Some v.

(** retry.Config, as the literal in [DefaultTransactionEngineConfig]
    fills it. *)
Record retry_Config := {
  InitialDelay : option string;
  MaxDelay : option string;
  Factor : option Q;
}.

(** cache.Config *)
Record cache_Config := {
  Capacity : option Z;
}.

Record TransactionEngineConfig := {
  MaxInFlightOrchestrators : option Z;
  Interval : option string;
  MaxStaleTime : option string;
  MaxIdleTime : option string;
  MaxOverloadProcessTime : option string;
  TransactionCache : cache_Config;
  Retry : retry_Config;
}.

Definition defaultTransactionEngineMaxInFlightOrchestrators : Z := 50.
Definition defaultTransactionEngineInterval : string := "5s".
Definition defaultTransactionEngineMaxStale : string := "1m".
Definition defaultTransactionEngineMaxIdle : string := "10s".
Definition defaultMaxOverloadProcessTime : string := "10m".
Definition defaultTransactionEngineRetryInitDelay : string := "250ms".
Definition defaultTransactionEngineRetryMaxDelay : string := "30s".
Definition defaultTransactionEngineRetryFactor : Q := 2 # 1.

(** The composite literal.  The source spells the fourth key
    [MaxIdleTim]; it is read as the field [MaxIdleTime].  The literal has
    no [MaxOverloadProcessTime] key, so that pointer is nil. *)
Definition DefaultTransactionEngineConfig : TransactionEngineConfig := {|
  MaxInFlightOrchestrators := P 50;
  Interval := P "5s"%string;
  MaxStaleTime := P "1m"%string;
  MaxIdleTime := P "10s"%string;
  MaxOverloadProcessTime := None;
  Retry := {|
    InitialDelay := P "250ms"%string;
    MaxDelay := P "30s"%string;
    Factor := P (2 # 1)%Q;
  |};
  TransactionCache := {|
    Capacity := P 1000;
  |};
|}.

(** A duration option as the number of nanoseconds it denotes. *)
Definition duration_of (o : option string) : option Z :=
  o ≫= Duration.ParseDuration.

End Config.


(** ** Errors *)

Inductive error :=
| ErrStore (msg : string)          (* an error of the persistence layer *)
| ErrContextCancelled.             (* ctx.Err() once the context is done *)

(** ** The retry helper *)

Module Retry.

Record Retry := {
  initialDelay : Z;
  maxDelay : Z;
  factor : Q;
}.

(** Modelled from the spec: the constructor of package [retry] is not part
    of the sources at hand.  It reads the three keys of [retry.Config];
    the delays are durations. *)
Definition NewRetryIndefinite (conf : Config.retry_Config) : option Retry :=
  i ← Config.duration_of (Config.InitialDelay conf);
  m ← Config.duration_of (Config.MaxDelay conf);
  f ← Config.Factor conf;
  Some {| initialDelay := i; maxDelay := m; factor := f |}.

(** Modelled from the spec: "exponential backoff (initial 250 ms, factor 2,
    cap 30 s)".  [grow r n d] multiplies [d] by the factor [n] times and
    stops at the cap. *)
Fixpoint grow (r : Retry) (n : nat) (d : Z) : Z :=
  match n with
  | O => d
  | S n' =>
      let d' := Qfloor (inject_Z d * factor r) in
      if decide (d' > maxDelay r) then maxDelay r else grow r n' d'
  end.

(** The wait that follows the [failureCount]-th failed attempt. *)
Definition retryDelay (r : Retry) (failureCount : nat) : Z :=
  grow r (failureCount - 1) (initialDelay r).

(** What a finished [Do] leaves behind: the state of the variables the
    callback closes over, the error returned, and the delays waited in
    full, oldest first. *)
Record result (St : Type) := {
  closure : St;
  err : option error;
  waited : list Z;
}.
Arguments closure {St} _.
Arguments err {St} _.
Arguments waited {St} _.

(** Modelled from the spec: [retry.Do] is not part of the sources at hand.
    "Any database error is retried with exponential backoff indefinitely
    until context cancellation": the callback [f] runs with the attempt
    number; a [nil] error ends the loop; so does an error the callback
    does not want retried; otherwise the loop waits [retryDelay], and a
    context that is done by the end of that wait ends the loop with the
    context's error.  [ctxDone n] says whether the context is done by the
    end of the wait after attempt [n].

    The loop need not end, so it runs on [fuel]: [None] means that the
    loop is still running when the fuel is spent. *)
Fixpoint Do {St} (r : Retry) (ctxDone : nat → bool)
    (f : nat → St → St * (bool * option error))
    (fuel : nat) (attempt : nat) (s : St) (w : list Z) : option (result St) :=
  match fuel with
  | O => None
  | S fuel' =>
      let '(s', (again, e)) := f attempt s in
      match e with
      | None => Some {| closure := s'; err := None; waited := w |}
      | Some e' =>
          if negb again then Some {| closure := s'; err := Some e'; waited := w |}
          else if ctxDone attempt
               then Some {| closure := s'; err := Some ErrContextCancelled; waited := w |}
               else Do r ctxDone f fuel' (S attempt) s' (w ++ [retryDelay r attempt])
      end
  end.

End Retry.

(** ** The engine *)

Module Engine.

(** Modelled from the spec: the declaration of the orchestrator states is
    not part of the sources at hand; "state ∈ {Stale, Idle, Running,
    Paused, Stopped}". *)
Inductive OrchestratorState :=
| OrchestratorStateStale
| OrchestratorStateIdle
| OrchestratorStateRunning
| OrchestratorStatePaused
| OrchestratorStateStopped.

#[global] Instance OrchestratorState_eq_dec : EqDecision OrchestratorState.
Proof. solve_decision. Defined.

Definition OrchestratorState_to_nat (s : OrchestratorState) : nat :=
  match s with
  | OrchestratorStateStale => 0
  | OrchestratorStateIdle => 1
  | OrchestratorStateRunning => 2
  | OrchestratorStatePaused => 3
  | OrchestratorStateStopped => 4
  end%nat.

Definition OrchestratorState_of_nat (n : nat) : OrchestratorState :=
  match n with
  | 0 => OrchestratorStateStale
  | 1 => OrchestratorStateIdle
  | 2 => OrchestratorStateRunning
  | 3 => OrchestratorStatePaused
  | _ => OrchestratorStateStopped
  end%nat.

#[global] Instance OrchestratorState_countable : Countable OrchestratorState.
Proof.
  apply (inj_countable' OrchestratorState_to_nat OrchestratorState_of_nat).
  by intros [].
Defined.

Definition AllOrchestratorStates : list OrchestratorState :=
  [ OrchestratorStateStale; OrchestratorStateIdle; OrchestratorStateRunning;
    OrchestratorStatePaused; OrchestratorStateStopped ].

(** Modelled from the spec: the declaration of the transaction statuses is
    not part of the sources at hand; "status ∈ {Pending, Submitted,
    Succeeded, Failed, Suspended}". *)
Inductive PubTxStatus :=
| PubTxStatusPending
| PubTxStatusSubmitted
| PubTxStatusSucceeded
| PubTxStatusFailed
| PubTxStatusSuspended.

#[global] Instance PubTxStatus_eq_dec : EqDecision PubTxStatus.
Proof. solve_decision. Defined.

(** ptxapi.PublicTx, with the fields the engine reads. *)
Record PublicTx := {
  ID : string;
  From : string;
  To : string;
  Nonce : Z;
  Status : PubTxStatus;
}.

(** components.PubTransactionQueries.  A field left out of a composite
    literal holds its zero value: [None] for a pointer, [[]] for a slice,
    [false] for a bool. *)
Record PubTransactionQueries := {
  InStatus : list PubTxStatus;
  q_To : option string;
  q_From : option string;
  NotFrom : list string;
  Sort : option string;
  Limit : option Z;
  HasTxValue : bool;
}.

(** Modelled from the spec: the orchestrator type is not part of the
    sources at hand.  The first four fields are the ones [poll] reads.
    "Stop() is asynchronous — it requests termination but the state update
    is observed by the engine only on the next poll": the last three
    fields hold the requests the engine has made of the orchestrator. *)
Record orchestrator := {
  signingAddress : string;
  state : OrchestratorState;
  stateEntryTime : Z;
  orchestratorBirthTime : Z;
  stopRequested : bool;
  staleMarked : bool;
  started : bool;
}.

(** The methods of the orchestrator that [poll] calls.  Their bodies are
    not part of the sources at hand; [poll] is modelled, and its theorems
    are proved, for every implementation of them. *)
Class OrchestratorAPI := {
  NewOrchestrator : string → Z → orchestrator;
  Start : orchestrator → orchestrator;
  Stop : orchestrator → orchestrator;
  MarkInFlightTxStale : orchestrator → orchestrator;
}.

(** Modelled from the spec: an orchestrator is born [Stale] ("Initial
    state: Stale") at the current instant; [Stop] and
    [MarkInFlightTxStale] leave a request and touch nothing [poll] reads;
    a second [Stop] changes nothing ("the orchestrator must make its stop
    idempotent"). *)
Definition specOrchestratorAPI : OrchestratorAPI := {|
  NewOrchestrator := fun addr now =>
    {| signingAddress := addr; state := OrchestratorStateStale;
       stateEntryTime := now; orchestratorBirthTime := now;
       stopRequested := false; staleMarked := false; started := false |};
  Start := fun oc =>
    {| signingAddress := signingAddress oc; state := state oc;
       stateEntryTime := stateEntryTime oc;
       orchestratorBirthTime := orchestratorBirthTime oc;
       stopRequested := stopRequested oc; staleMarked := staleMarked oc;
       started := true |};
  Stop := fun oc =>
    {| signingAddress := signingAddress oc; state := state oc;
       stateEntryTime := stateEntryTime oc;
       orchestratorBirthTime := orchestratorBirthTime oc;
       stopRequested := true; staleMarked := staleMarked oc;
       started := started oc |};
  MarkInFlightTxStale := fun oc =>
    {| signingAddress := signingAddress oc; state := state oc;
       stateEntryTime := stateEntryTime oc;
       orchestratorBirthTime := orchestratorBirthTime oc;
       stopRequested := stopRequested oc; staleMarked := true;
       started := started oc |};
|}.

(** The fields of [pubTxManager] that the functions below use. *)
Record pubTxManager := {
  InFlightOrchestrators : gmap string orchestrator;
  SigningAddressesPausedUntil : gmap string Z;
  InFlightOrchestratorStale : list bool;        (* chan bool, buffer of 1 *)
  completedTxNoncePerAddress : gmap string Z;
  maxInFlightOrchestrators : Z;
  maxOrchestratorStale : Z;
  maxOrchestratorIdle : Z;
  maxOverloadProcessTime : Z;
  retry : Retry.Retry;
}.

Definition set_InFlightOrchestrators (m : gmap string orchestrator)
    (ble : pubTxManager) : pubTxManager :=
  {| InFlightOrchestrators := m;
     SigningAddressesPausedUntil := SigningAddressesPausedUntil ble;
     InFlightOrchestratorStale := InFlightOrchestratorStale ble;
     completedTxNoncePerAddress := completedTxNoncePerAddress ble;
     maxInFlightOrchestrators := maxInFlightOrchestrators ble;
     maxOrchestratorStale := maxOrchestratorStale ble;
     maxOrchestratorIdle := maxOrchestratorIdle ble;
     maxOverloadProcessTime := maxOverloadProcessTime ble;
     retry := retry ble |}.

Definition set_SigningAddressesPausedUntil (p : gmap string Z)
    (ble : pubTxManager) : pubTxManager :=
  {| InFlightOrchestrators := InFlightOrchestrators ble;
     SigningAddressesPausedUntil := p;
     InFlightOrchestratorStale := InFlightOrchestratorStale ble;
     completedTxNoncePerAddress := completedTxNoncePerAddress ble;
     maxInFlightOrchestrators := maxInFlightOrchestrators ble;
     maxOrchestratorStale := maxOrchestratorStale ble;
     maxOrchestratorIdle := maxOrchestratorIdle ble;
     maxOverloadProcessTime := maxOverloadProcessTime ble;
     retry := retry ble |}.

Definition set_InFlightOrchestratorStale (ch : list bool)
    (ble : pubTxManager) : pubTxManager :=
  {| InFlightOrchestrators := InFlightOrchestrators ble;
     SigningAddressesPausedUntil := SigningAddressesPausedUntil ble;
     InFlightOrchestratorStale := ch;
     completedTxNoncePerAddress := completedTxNoncePerAddress ble;
     maxInFlightOrchestrators := maxInFlightOrchestrators ble;
     maxOrchestratorStale := maxOrchestratorStale ble;
     maxOrchestratorIdle := maxOrchestratorIdle ble;
     maxOverloadProcessTime := maxOverloadProcessTime ble;
     retry := retry ble |}.

Definition set_completedTxNoncePerAddress (c : gmap string Z)
    (ble : pubTxManager) : pubTxManager :=
  {| InFlightOrchestrators := InFlightOrchestrators ble;
     SigningAddressesPausedUntil := SigningAddressesPausedUntil ble;
     InFlightOrchestratorStale := InFlightOrchestratorStale ble;
     completedTxNoncePerAddress := c;
     maxInFlightOrchestrators := maxInFlightOrchestrators ble;
     maxOrchestratorStale := maxOrchestratorStale ble;
     maxOrchestratorIdle := maxOrchestratorIdle ble;
     maxOverloadProcessTime := maxOverloadProcessTime ble;
     retry := retry ble |}.

(** *** poll *)

(** What one call of [poll] is given from outside: the clock, the answers
    of the store to the successive attempts of the query (attempt numbers
    start at 1, as the retry helper counts them), and the moment the
    context is done. *)
Record pollEnv := {
  now : Z;
  ListTransactions : nat → PubTransactionQueries → list PublicTx * option error;
  ctxDone : nat → bool;
}.

(** The local variables of [poll] that its loops update.  [inFlight] is
    the fresh map assigned to [ble.InFlightOrchestrators]. *)
Record pollVars := {
  inFlight : gmap string orchestrator;
  InFlightSigningAddresses : list string;
  stateCounts : gmap OrchestratorState Z;
}.

(** The variables the retry callback closes over, and the queries it has
    sent to the store, oldest first. *)
Record pollClosure := {
  additionalTxFromNonInFlightSigners : list PublicTx;
  issued : list PubTransactionQueries;
}.

(** What a finished [poll] leaves behind: the manager, the two results,
    the queries sent to the store, the delays waited between attempts and
    the arguments of [RecordInFlightOrchestratorPoolMetrics] when it was
    called. *)
Record pollResult := {
  after : pubTxManager;
  polled : Z;
  total : Z;
  queries : list PubTransactionQueries;
  waits : list Z;
  recorded : option (gmap OrchestratorState Z * Z);
}.

(** [stateCounts[k] = stateCounts[k] + 1] *)
Definition bump (k : OrchestratorState)
    (c : gmap OrchestratorState Z) : gmap OrchestratorState Z :=
  <[k := default 0 (c !! k) + 1]> c.

Definition zeroCounts : gmap OrchestratorState Z :=
  foldl (fun c sName => <[sName := 0]> c) ∅ AllOrchestratorStates.

Section poll.
Context `{!OrchestratorAPI}.

(** The condition under which the engine tells an orchestrator to stop. *)
Definition expired (ble : pubTxManager) (now : Z) (oc : orchestrator) : Prop :=
  (state oc = OrchestratorStateStale ∧ now - stateEntryTime oc > maxOrchestratorStale ble) ∨
  (state oc = OrchestratorStateIdle ∧ now - stateEntryTime oc > maxOrchestratorIdle ble).

#[local] Instance expired_dec ble now oc : Decision (expired ble now oc).
Proof. unfold expired. apply _. Defined.

(** Body of the loop over [oldInFlight]. *)
Definition reapStep (ble : pubTxManager) (now : Z)
    (signingAddress : string) (oc : orchestrator) (v : pollVars) : pollVars :=
  let oc1 := if decide (expired ble now oc) then Stop oc else oc in
  if decide (state oc1 ≠ OrchestratorStateStopped) then
    let oc2 := MarkInFlightTxStale oc1 in
    {| inFlight := <[signingAddress := oc2]> (inFlight v);
       stateCounts := bump (state oc2) (stateCounts v);
       InFlightSigningAddresses := InFlightSigningAddresses v ++ [signingAddress] |}
  else v.

(** The reap phase: the loop over the old map, from the empty new map, the
    empty address slice and the zeroed counters. *)
Definition reapPhase (ble : pubTxManager) (now : Z) : pollVars :=
  map_fold (reapStep ble now)
    {| inFlight := ∅; InFlightSigningAddresses := []; stateCounts := zeroCounts |}
    (InFlightOrchestrators ble).

(** Body of the loop over [ble.SigningAddressesPausedUntil]. *)
Definition pauseStep (now : Z)
    (signingAddress : string) (pausedUntil : Z) (v : pollVars) : pollVars :=
  if decide (now < pausedUntil) then
    {| inFlight := inFlight v;
       stateCounts := bump OrchestratorStatePaused (stateCounts v);
       InFlightSigningAddresses := InFlightSigningAddresses v ++ [signingAddress] |}
  else v.

Definition pauseWalk (ble : pubTxManager) (now : Z) (v : pollVars) : pollVars :=
  map_fold (pauseStep now) v (SigningAddressesPausedUntil ble).

(** The query built inside the retry callback. *)
Definition pollQuery (spaces : Z) (addrs : list string) : PubTransactionQueries :=
  {| InStatus := [PubTxStatusPending];
     q_To := None;
     q_From := None;
     Sort := Config.P "sequence"%string;
     Limit := Some spaces;
     NotFrom := if decide (length addrs > 0)%nat then addrs else [];
     HasTxValue := false |}.

(** The retry callback: it sends the query, keeps the rows in the variable
    it closes over, and always asks for another attempt. *)
Definition pollCallback (env : pollEnv) (spaces : Z) (addrs : list string)
    (attempt : nat) (c : pollClosure) : pollClosure * (bool * option error) :=
  let tf := pollQuery spaces addrs in
  let '(txs, e) := ListTransactions env attempt tf in
  ({| additionalTxFromNonInFlightSigners := txs; issued := issued c ++ [tf] |},
   (true, e)).

(** Body of the loop over the rows the store returned. *)
Definition createStep (now : Z) (v : pollVars) (mtx : PublicTx) : pollVars :=
  match inFlight v !! From mtx with
  | None =>
      let oc := NewOrchestrator (From mtx) now in
      {| inFlight := <[From mtx := Start oc]> (inFlight v);
         stateCounts := bump (state oc) (stateCounts v);
         InFlightSigningAddresses := InFlightSigningAddresses v |}
  | Some _ => v
  end.

(** Body of the fairness loop over the new map: the orchestrators are
    reached through pointers, so [oc.Stop()] shows in the map. *)
Definition fairnessStep (ble : pubTxManager) (now : Z)
    (signingAddress : string) (oc : orchestrator)
    (acc : gmap string orchestrator * gmap string Z)
    : gmap string orchestrator * gmap string Z :=
  if decide (now - orchestratorBirthTime oc > maxOverloadProcessTime ble) then
    (<[signingAddress := Stop oc]> acc.1,
     <[signingAddress := now + maxOverloadProcessTime ble]> acc.2)
  else acc.

Definition fairnessLoop (ble : pubTxManager) (now : Z)
    (survivors : gmap string orchestrator)
    : gmap string orchestrator * gmap string Z :=
  map_fold (fairnessStep ble now)
    (survivors, SigningAddressesPausedUntil ble) survivors.

(** [poll].  [None]: the retry loop is still running when [fuel] is
    spent. *)
Definition poll (env : pollEnv) (fuel : nat) (ble : pubTxManager)
    : option pollResult :=
  let v := reapPhase ble (now env) in
  let totalBeforePoll := Z.of_nat (size (inFlight v)) in
  let spaces := maxInFlightOrchestrators ble - totalBeforePoll in
  if decide (spaces > 0) then
    let v1 := pauseWalk ble (now env) v in
    match Retry.Do (retry ble) (ctxDone env)
            (pollCallback env spaces (InFlightSigningAddresses v1))
            fuel 1
            {| additionalTxFromNonInFlightSigners := []; issued := [] |} []
    with
    | None => None
    | Some r =>
        match Retry.err r with
        | Some _ =>
            Some {| after := set_InFlightOrchestrators (inFlight v1) ble;
                    polled := -1;
                    total := Z.of_nat (size (inFlight v1));
                    queries := issued (Retry.closure r);
                    waits := Retry.waited r;
                    recorded := None |}
        | None =>
            let v2 := foldl (createStep (now env)) v1
                        (additionalTxFromNonInFlightSigners (Retry.closure r)) in
            let total := Z.of_nat (size (inFlight v2)) in
            Some {| after := set_InFlightOrchestrators (inFlight v2) ble;
                    polled := if decide (total > 0) then total - totalBeforePoll else 0;
                    total := total;
                    queries := issued (Retry.closure r);
                    waits := Retry.waited r;
                    recorded := Some (stateCounts v2,
                                      maxInFlightOrchestrators ble - total) |}
        end
    end
  else
    let '(m, p) := fairnessLoop ble (now env) (inFlight v) in
    Some {| after := set_SigningAddressesPausedUntil p
                       (set_InFlightOrchestrators m ble);
            polled := 0;
            total := 0;
            queries := [];
            waits := [];
            recorded := Some (stateCounts v,
                              maxInFlightOrchestrators ble - Z.of_nat (size m)) |}.

(** What the reap loop keeps of one orchestrator: [None] when it is left
    out of the new map. *)
Definition reaped (ble : pubTxManager) (now : Z) (oc : orchestrator)
    : option orchestrator :=
  let oc1 := if decide (expired ble now oc) then Stop oc else oc in
  if decide (state oc1 ≠ OrchestratorStateStopped)
  then Some (MarkInFlightTxStale oc1) else None.

(** The orchestrators that survive the reap phase, and the free slots. *)
Definition survivors (ble : pubTxManager) (now : Z) : gmap string orchestrator :=
  inFlight (reapPhase ble now).

Definition freeSlots (ble : pubTxManager) (now : Z) : Z :=
  maxInFlightOrchestrators ble - Z.of_nat (size (survivors ble now)).

(** The query [poll] sends when there are free slots. *)
Definition pollQueryOf (ble : pubTxManager) (now : Z) : PubTransactionQueries :=
  pollQuery (freeSlots ble now)
    (InFlightSigningAddresses (pauseWalk ble now (reapPhase ble now))).

(** An orchestrator that has lived longer than [maxOverloadProcessTime]. *)
Definition overdue (ble : pubTxManager) (now : Z) (oc : orchestrator) : Prop :=
  now - orchestratorBirthTime oc > maxOverloadProcessTime ble.

#[global] Instance overdue_dec ble now oc : Decision (overdue ble now oc).
Proof. unfold overdue. apply _. Defined.

End poll.

(** *** The wake channel and the engine loop *)

(** [MarkInFlightOrchestratorsStale]: a send with a [default] case on the
    channel "which has a buffer of 1". *)
Definition MarkInFlightOrchestratorsStale (ble : pubTxManager) : pubTxManager :=
  set_InFlightOrchestratorStale
    (Chan.try_send 1 true (InFlightOrchestratorStale ble)) ble.

(** The three cases of the [select] in [engineLoop]. *)
Inductive wake :=
| WakeTicker        (* case <-ticker.C *)
| WakeStale         (* case <-ble.InFlightOrchestratorStale *)
| WakeDone.         (* case <-ctx.Done() *)

(** The engine loop and what it waits on.  [tickerC] is the channel of the
    ticker, which holds one tick at most; [polls] lists the wake-up behind
    every call of [poll], oldest first. *)
Record engine := {
  ble : pubTxManager;
  tickerC : list unit;
  done : bool;                (* ctx.Done() is closed *)
  engineLoopDone : bool;      (* closed when engineLoop returns *)
  inPoll : bool;              (* inside a call of poll that has not returned *)
  polls : list wake;
}.

Definition ready (w : wake) (e : engine) : bool :=
  match w with
  | WakeTicker => bool_decide (tickerC e ≠ [])
  | WakeStale => bool_decide (InFlightOrchestratorStale (ble e) ≠ [])
  | WakeDone => done e
  end.

(** What other goroutines and the runtime do to the loop, and the loop's
    own turns.  [EvSelect w]: the loop, blocked in its [select], takes the
    case [w].  When several cases are ready Go picks any of them; the
    schedule says which. *)
Inductive event :=
| EvMark              (* a call of MarkInFlightOrchestratorsStale *)
| EvTickerFire        (* the ticker sends a tick, dropped when one is waiting *)
| EvCancel            (* the context is cancelled *)
| EvSelect (w : wake).

Section engineLoop.
Context `{!OrchestratorAPI}.

(** The environment and the fuel of the k-th call of [poll], k from 0. *)
Variable envs : nat → pollEnv * nat.

(** [polled, total := ble.poll(ctx)] *)
Definition callPoll (w : wake) (e : engine) : engine :=
  let '(env, fuel) := envs (length (polls e)) in
  match poll env fuel (ble e) with
  | Some r =>
      {| ble := after r; tickerC := tickerC e; done := done e;
         engineLoopDone := false; inPoll := false; polls := polls e ++ [w] |}
  | None =>
      {| ble := ble e; tickerC := tickerC e; done := done e;
         engineLoopDone := false; inPoll := true; polls := polls e ++ [w] |}
  end.

(** One turn of the [for] loop of [engineLoop]: the [select] takes case
    [w], then [poll] runs unless the case was [ctx.Done()].  A loop that
    has returned, that is inside [poll], or whose case [w] is not ready,
    does nothing. *)
Definition engineLoopTurn (w : wake) (e : engine) : engine :=
  if engineLoopDone e || inPoll e || negb (ready w e) then e
  else
    match w with
    | WakeDone =>
        {| ble := ble e; tickerC := tickerC e; done := done e;
           engineLoopDone := true; inPoll := false; polls := polls e |}
    | WakeTicker =>
        callPoll w
          {| ble := ble e; tickerC := tail (tickerC e); done := done e;
             engineLoopDone := false; inPoll := false; polls := polls e |}
    | WakeStale =>
        callPoll w
          {| ble := set_InFlightOrchestratorStale
                      (tail (InFlightOrchestratorStale (ble e))) (ble e);
             tickerC := tickerC e; done := done e;
             engineLoopDone := false; inPoll := false; polls := polls e |}
    end.

Definition step (e : engine) (ev : event) : engine :=
  match ev with
  | EvMark =>
      {| ble := MarkInFlightOrchestratorsStale (ble e); tickerC := tickerC e;
         done := done e; engineLoopDone := engineLoopDone e;
         inPoll := inPoll e; polls := polls e |}
  | EvTickerFire =>
      {| ble := ble e; tickerC := Chan.try_send 1 () (tickerC e);
         done := done e; engineLoopDone := engineLoopDone e;
         inPoll := inPoll e; polls := polls e |}
  | EvCancel =>
      {| ble := ble e; tickerC := tickerC e;
         done := true; engineLoopDone := engineLoopDone e;
         inPoll := inPoll e; polls := polls e |}
  | EvSelect w => engineLoopTurn w e
  end.

Definition run (e : engine) (schedule : list event) : engine :=
  foldl step e schedule.

End engineLoop.

#[global] Instance wake_eq_dec : EqDecision wake.
Proof. solve_decision. Defined.

(** The pool of the engine is within its bound. *)
Definition withinBound (e : engine) : Prop :=
  Z.of_nat (size (InFlightOrchestrators (ble e))) <= maxInFlightOrchestrators (ble e).

(** The polls that a signal on the stale channel caused. *)
Definition extraPolls (e : engine) : nat :=
  length (filter (fun w => w = WakeStale) (polls e)).

(** *** The completed-nonce cache *)

(** [x.Cmp(y)] of [big.Int]. *)
Definition Cmp (x y : Z) : Z :=
  match x ?= y with
  | Lt => -1
  | Eq => 0
  | Gt => 1
  end.

(** [v, exists := m[k]]: the zero value when the key is missing. *)
Definition lookup2 (m : gmap string Z) (k : string) : Z * bool :=
  match m !! k with
  | Some v => (v, true)
  | None => (0, false)
  end.

(** What the two functions below do to the cache and around it, in
    order. *)
Inductive cacheEvent :=
| EvLock                                   (* completedTxNoncePerAddressMutex.Lock() *)
| EvUnlock                                 (* the deferred Unlock() *)
| EvRead (a : string)
| EvWrite (a : string) (n : Z)
| EvQuery (q : PubTransactionQueries).     (* txStore.ListTransactions *)

#[global] Instance isQuery_dec ev : Decision (∃ q, ev = EvQuery q).
Proof.
  destruct ev; try (right; by intros [? ?]). left. by eexists.
Defined.

Record updateResult := {
  u_after : pubTxManager;
  updated : bool;
  u_trace : list cacheEvent;
}.

Definition updateCompletedTxNonce (tx : PublicTx) (ble : pubTxManager)
    : updateResult :=
  if decide (Status tx ≠ PubTxStatusSucceeded ∧ Status tx ≠ PubTxStatusFailed) then
    {| u_after := ble; updated := false; u_trace := [EvLock; EvUnlock] |}
  else
    let '(currentNonce, exists_) := lookup2 (completedTxNoncePerAddress ble) (From tx) in
    if decide (exists_ = false ∨ Cmp currentNonce (Nonce tx) = -1) then
      {| u_after := set_completedTxNoncePerAddress
                      (<[From tx := Nonce tx]> (completedTxNoncePerAddress ble)) ble;
         updated := true;
         u_trace := [EvLock; EvRead (From tx); EvWrite (From tx) (Nonce tx); EvUnlock] |}
    else
      {| u_after := ble; updated := false;
         u_trace := [EvLock; EvRead (From tx); EvUnlock] |}.

Record checkResult := {
  c_after : pubTxManager;
  completed : bool;
  c_trace : list cacheEvent;
}.

(** The query [CheckTransactionCompleted] sends when the cache has no
    entry for the signer. *)
Definition completedQuery (from : string) : PubTransactionQueries :=
  {| InStatus := [PubTxStatusSucceeded; PubTxStatusFailed];
     q_To := None;
     q_From := Config.P from;
     Sort := Config.P "-nonce"%string;
     Limit := Config.P 1;
     NotFrom := [];
     HasTxValue := false |}.

(** [CheckTransactionCompleted]; [txStore] is the answer of
    [ble.txStore.ListTransactions] to the one query it may send. *)
Definition CheckTransactionCompleted
    (txStore : PubTransactionQueries → list PublicTx * option error)
    (tx : PublicTx) (ble : pubTxManager) : checkResult :=
  let '(completedTxNonce, exists_) := lookup2 (completedTxNoncePerAddress ble) (From tx) in
  if negb exists_ then
    let tf := completedQuery (From tx) in
    let '(txs, e) := txStore tf in
    match e with
    | Some _ =>
        {| c_after := ble; completed := false;
           c_trace := [EvRead (From tx); EvQuery tf] |}
    | None =>
        match txs with
        | tx0 :: _ =>
            let u := updateCompletedTxNonce tx0 ble in
            let completedTxNonce := Nonce tx0 in
            {| c_after := u_after u;
               completed := bool_decide (Cmp completedTxNonce (Nonce tx) >= 0);
               c_trace := [EvRead (From tx); EvQuery tf] ++ u_trace u |}
        | [] =>
            {| c_after := ble; completed := false;
               c_trace := [EvRead (From tx); EvQuery tf] |}
        end
    end
  else
    {| c_after := ble;
       completed := bool_decide (Cmp completedTxNonce (Nonce tx) >= 0);
       c_trace := [EvRead (From tx)] |}.

(** Every write of the cache in a trace happens while the mutex is held:
    [held] is whether it is held before the first event. *)
Fixpoint writesLocked (held : bool) (t : list cacheEvent) : bool :=
  match t with
  | [] => true
  | EvLock :: t' => writesLocked true t'
  | EvUnlock :: t' => writesLocked false t'
  | EvWrite _ _ :: t' => held && writesLocked held t'
  | _ :: t' => writesLocked held t'
  end.

(** The operations that reach the cache, for sequences of them. *)
Inductive cacheOp :=
| OpUpdate (tx : PublicTx)
| OpCheck (txStore : PubTransactionQueries → list PublicTx * option error)
          (tx : PublicTx).

Definition runCacheOp (ble : pubTxManager) (op : cacheOp) : pubTxManager :=
  match op with
  | OpUpdate tx => u_after (updateCompletedTxNonce tx ble)
  | OpCheck txStore tx => c_after (CheckTransactionCompleted txStore tx ble)
  end.

(** An entry of the pause table whose instant is still ahead. *)
Definition stillPaused (now : Z) (kv : string * Z) : Prop := now < kv.2.

#[global] Instance stillPaused_dec now kv : Decision (stillPaused now kv).
Proof. unfold stillPaused. apply _. Defined.

(** What a store owes a query.  No more rows than a limit that is not
    negative: *)
Definition withinLimit (q : PubTransactionQueries) (txs : list PublicTx) : Prop :=
  ∀ k, Limit q = Some k → 0 <= k → Z.of_nat (length txs) <= k.

(** no row of an excluded signer: *)
Definition notExcluded (q : PubTransactionQueries) (txs : list PublicTx) : Prop :=
  ∀ t, t ∈ txs → From t ∉ NotFrom q.

(** and only rows in one of the statuses asked for, of the signer asked
    for. *)
Definition honours (q : PubTransactionQueries) (txs : list PublicTx) : Prop :=
  withinLimit q txs ∧
  (∀ t, t ∈ txs →
     Status t ∈ InStatus q ∧ (∀ a, q_From q = Some a → From t = a)) ∧
  notExcluded q txs.

(** A store that holds the transactions [db].  A row passes a query when
    it is in one of the statuses asked for, of the signer and to the
    address asked for, and of no excluded signer. *)
Definition passes (q : PubTransactionQueries) (t : PublicTx) : Prop :=
  (InStatus q = [] ∨ Status t ∈ InStatus q) ∧
  match q_From q with Some a => From t = a | None => True end ∧
  match q_To q with Some a => To t = a | None => True end ∧
  From t ∉ NotFrom q.

#[global] Instance passes_dec q t : Decision (passes q t).
Proof. unfold passes. destruct (q_From q), (q_To q); apply _. Defined.

(** The sort ["-nonce"]: by descending nonce. *)
Definition descendingNonce (txs : list PublicTx) : Prop :=
  ∀ i j t u, txs !! i = Some t → txs !! j = Some u → (i ≤ j)%nat →
    Nonce u <= Nonce t.

(** A store that holds [db] answers a query with the rows of [db] that
    pass it, by descending nonce when that is the sort asked for, cut at
    the limit. *)
Definition answers (db : list PublicTx) (q : PubTransactionQueries)
    (txs : list PublicTx) : Prop :=
  ∃ full,
    (∀ t, t ∈ full ↔ t ∈ db ∧ passes q t) ∧
    (Sort q = Some "-nonce"%string → descendingNonce full) ∧
    txs = match Limit q with
          | Some k => take (Z.to_nat k) full
          | None => full
          end.

(** A transaction in a terminal status. *)
Definition terminal (tx : PublicTx) : Prop :=
  Status tx = PubTxStatusSucceeded ∨ Status tx = PubTxStatusFailed.

(** The order in which the cache may move: an entry is never removed and
    never lowered. *)
Definition nonce_le (o o' : option Z) : Prop :=
  match o with
  | None => True
  | Some v => ∃ v', o' = Some v' ∧ v <= v'
  end.

(** The retry settings the default configuration denotes. *)
Definition defaultRetry : Retry.Retry :=
  {| Retry.initialDelay := 250 * Duration.Millisecond;
     Retry.maxDelay := 30 * Duration.Second;
     Retry.factor := 2 # 1 |}.

(** *** Derived notions for the counters and the cache *)

(** The sum of the counters handed to the metrics. *)
Definition sumCounts (c : gmap OrchestratorState Z) : Z :=
  map_fold (fun _ n acc => n + acc) 0 c.

(** [updateCompletedTxNonce] on each transaction of a list, in order. *)
Definition updateAll (ble : pubTxManager) (txs : list PublicTx) : pubTxManager :=
  foldl (fun b tx => u_after (updateCompletedTxNonce tx b)) ble txs.

#[global] Instance event_eq_dec : EqDecision event.
Proof. solve_decision. Defined.

(** The events of a schedule that can wake the loop up for a poll: the
    calls of [MarkInFlightOrchestratorsStale] and the ticks. *)
Definition wakeUps (schedule : list event) : nat :=
  length (filter (fun ev => ev = EvMark ∨ ev = EvTickerFire) schedule).

(** What the loop has polled and what still waits in its two channels. *)
Definition served (e : engine) : nat :=
  length (polls e) + length (tickerC e) + length (InFlightOrchestratorStale (ble e)).

End Engine.

(** ** Receipt delivery over JSON/RPC *)

Module EventStreams.

Record rpcAckNack := {
  ack : bool;
}.

(** pldapi.TransactionReceiptBatch; a receipt is named by its id. *)
Record TransactionReceiptBatch := {
  Subscription : string;
  Batch : Z;
  Receipts : list string;
}.

(** A [receiptListenerSubscription], with what has been done through its
    [ctrl] and [rrc] handles. *)
Record receiptListenerSubscription := {
  ctrlID : string;                                     (* sub.ctrl.ID() *)
  ctrlClosed : bool;                                   (* sub.ctrl.Closed() was called *)
  ctrlSent : list (string * TransactionReceiptBatch);  (* sub.ctrl.Send calls, oldest first *)
  rrc : bool;                                          (* sub.rrc != nil *)
  rrcClosed : bool;                                    (* sub.rrc.Close() was called *)
  acksNacks : list rpcAckNack;                         (* chan *rpcAckNack, capacity 1 *)
  closed : bool;                                       (* close(sub.closed) has run *)
}.

(** Subscriptions are reached through pointers: from [es.receiptSubs] and
    from the receipt listener that calls [DeliverReceiptBatch]. *)
Definition loc := nat.

Record rpcEventStreams := {
  objects : gmap loc receiptListenerSubscription;
  receiptSubs : gmap string loc;
}.

Inductive message :=
| MsgTxMgrSubIDRequired
| MsgTxMgrLifecycleMethodUnknown (method : string)
| MsgTxMgrJSONRPCSubscriptionNack (id : string)
| MsgTxMgrJSONRPCSubscriptionClosed (id : string).

Record RPCRequest := {
  Method : string;
  reqID : string;
  Params : list string;
}.

Inductive RPCResponse :=
| RPCResult (id : string) (result : bool)
| RPCErrorResponse (e : message) (id : string).   (* code RPCCodeInvalidRequest *)

(** The subscription as [HandleStart] makes it. *)
Definition newSubscription (id : string) : receiptListenerSubscription :=
  {| ctrlID := id; ctrlClosed := false; ctrlSent := []; rrc := true;
     rrcClosed := false; acksNacks := []; closed := false |}.

Definition getSubscription (subID : string) (es : rpcEventStreams) : option loc :=
  receiptSubs es !! subID.

(** [delete(receiptSubs, sub.ctrl.ID())], [sub.rrc.Close()] when [rrc] is
    set, [close(sub.closed)]. *)
Definition cleanupLocked (l : loc) (es : rpcEventStreams) : rpcEventStreams :=
  match objects es !! l with
  | None => es
  | Some sub =>
      {| objects :=
           <[l := {| ctrlID := ctrlID sub; ctrlClosed := ctrlClosed sub;
                     ctrlSent := ctrlSent sub; rrc := rrc sub;
                     rrcClosed := if rrc sub then true else rrcClosed sub;
                     acksNacks := acksNacks sub; closed := true |}]> (objects es);
         receiptSubs := delete (ctrlID sub) (receiptSubs es) |}
  end.

Definition cleanupSubscription (subID : string) (es : rpcEventStreams)
    : rpcEventStreams :=
  match receiptSubs es !! subID with
  | Some l => cleanupLocked l es
  | None => es
  end.

(** [sub.ctrl.Closed()] *)
Definition ctrl_Closed (l : loc) (es : rpcEventStreams) : rpcEventStreams :=
  {| objects :=
       alter (fun sub =>
         {| ctrlID := ctrlID sub; ctrlClosed := true; ctrlSent := ctrlSent sub;
            rrc := rrc sub; rrcClosed := rrcClosed sub;
            acksNacks := acksNacks sub; closed := closed sub |}) l (objects es);
     receiptSubs := receiptSubs es |}.

(** [select { case sub.acksNacks <- v: default: }] *)
Definition offerAckNack (l : loc) (v : rpcAckNack) (es : rpcEventStreams)
    : rpcEventStreams :=
  {| objects :=
       alter (fun sub =>
         {| ctrlID := ctrlID sub; ctrlClosed := ctrlClosed sub;
            ctrlSent := ctrlSent sub; rrc := rrc sub; rrcClosed := rrcClosed sub;
            acksNacks := Chan.try_send 1 v (acksNacks sub);
            closed := closed sub |}) l (objects es);
     receiptSubs := receiptSubs es |}.

Definition HandleLifecycle (req : RPCRequest) (es : rpcEventStreams)
    : rpcEventStreams * option RPCResponse :=
  if decide (length (Params req) < 1)%nat then
    (es, Some (RPCErrorResponse MsgTxMgrSubIDRequired (reqID req)))
  else
    let subID := hd ""%string (Params req) in
    let sub := getSubscription subID es in
    if decide (Method req = "ptx_ack"%string ∨ Method req = "ptx_nack"%string) then
      match sub with
      | Some l =>
          (offerAckNack l {| ack := bool_decide (Method req = "ptx_ack"%string) |} es,
           None)
      | None => (es, None)
      end
    else if decide (Method req = "ptx_unsubscribe"%string) then
      match sub with
      | Some l =>
          (cleanupSubscription subID (ctrl_Closed l es),
           Some (RPCResult (reqID req) true))
      | None => (es, Some (RPCResult (reqID req) false))
      end
    else
      (es, Some (RPCErrorResponse (MsgTxMgrLifecycleMethodUnknown (Method req))
                   (reqID req))).

(** [ConnectionClosed] *)
Definition ConnectionClosed (l : loc) (es : rpcEventStreams) : rpcEventStreams :=
  match objects es !! l with
  | Some sub => cleanupSubscription (ctrlID sub) es
  | None => es
  end.

(** The two cases of the [select] in [DeliverReceiptBatch]; when both are
    ready Go takes any, [pick] says which. *)
Inductive selectCase :=
| CaseAckNack      (* case ackNack := <-sub.acksNacks *)
| CaseClosed.      (* case <-sub.closed *)

(** How a call of [DeliverReceiptBatch] stands once its [select] has
    looked at both channels: blocked in it, where it waits for a send or
    a close (see [exchange] below), or returned with an error or [nil]. *)
Inductive delivery :=
| Blocked
| Returned (e : option message).

Definition afterSend (batchID : Z) (receipts : list string)
    (sub : receiptListenerSubscription) : receiptListenerSubscription :=
  {| ctrlID := ctrlID sub; ctrlClosed := ctrlClosed sub;
     ctrlSent := ctrlSent sub ++
       [("ptx_receiptBatch"%string,
         {| Subscription := ctrlID sub; Batch := batchID; Receipts := receipts |})];
     rrc := rrc sub; rrcClosed := rrcClosed sub;
     acksNacks := acksNacks sub; closed := closed sub |}.

Definition received (a : rpcAckNack) (rest : list rpcAckNack)
    (sub : receiptListenerSubscription) : receiptListenerSubscription * delivery :=
  let sub' :=
    {| ctrlID := ctrlID sub; ctrlClosed := ctrlClosed sub; ctrlSent := ctrlSent sub;
       rrc := rrc sub; rrcClosed := rrcClosed sub;
       acksNacks := rest; closed := closed sub |} in
  if negb (ack a)
  then (sub', Returned (Some (MsgTxMgrJSONRPCSubscriptionNack (ctrlID sub))))
  else (sub', Returned None).

(** [DeliverReceiptBatch] on the subscription it is called on. *)
Definition DeliverReceiptBatch (pick : selectCase) (batchID : Z)
    (receipts : list string) (sub : receiptListenerSubscription)
    : receiptListenerSubscription * delivery :=
  let sub1 := afterSend batchID receipts sub in
  match Chan.recv (acksNacks sub1), closed sub1 with
  | None, false => (sub1, Blocked)
  | Some (a, rest), false => received a rest sub1
  | None, true =>
      (sub1, Returned (Some (MsgTxMgrJSONRPCSubscriptionClosed (ctrlID sub1))))
  | Some (a, rest), true =>
      match pick with
      | CaseAckNack => received a rest sub1
      | CaseClosed =>
          (sub1, Returned (Some (MsgTxMgrJSONRPCSubscriptionClosed (ctrlID sub1))))
      end
  end.

(** The same call through the pointer the receipt listener holds. *)
Definition deliverAt (pick : selectCase) (l : loc) (batchID : Z)
    (receipts : list string) (es : rpcEventStreams)
    : option (rpcEventStreams * delivery) :=
  sub ← objects es !! l;
  let '(sub', d) := DeliverReceiptBatch pick batchID receipts sub in
  Some ({| objects := <[l := sub']> (objects es); receiptSubs := receiptSubs es |}, d).

(** *** Starting, stopping and the life of a subscription *)

Definition StartMethod : string := "ptx_subscribe".

Definition LifecycleMethods : list string :=
  ["ptx_unsubscribe"; "ptx_ack"; "ptx_nack"]%string.

Definition newRPCEventStreams : rpcEventStreams :=
  {| objects := ∅; receiptSubs := ∅ |}.

(** What [HandleStart] can answer with an error: the error of
    [eventType.Validate()], the missing listener name, and the error of
    [tm.AddReceiptReceiver]. *)
Inductive startError :=
| ErrEventType (e : string)
| MsgTxMgrListenerNameRequired
| ErrAddReceiptReceiver (e : string).

(** The response of [HandleStart]: the id of the subscription as the
    result, or an error (code RPCCodeInvalidRequest). *)
Inductive startResponse :=
| StartResult (id : string) (subscription : string)
| StartErrorResponse (e : startError) (id : string).

(** [HandleStart].  [Validate] and [AddReceiptReceiver] stand for
    [eventType.Validate()] and [es.tm.AddReceiptReceiver], whose bodies
    are elsewhere: the first gives the error or [None]; the second gives
    whether the closer it returns is set, and its error.  [id] is
    [ctrl.ID()] of the control handle of the new connection, on which
    nothing has been sent.  The new subscription is a new object: its
    location is one that holds none. *)
Definition HandleStart (Validate : string → option string)
    (AddReceiptReceiver : string → bool * option string)
    (id : string) (req : RPCRequest) (es : rpcEventStreams)
    : rpcEventStreams * (option loc * startResponse) :=
  let eventType :=
    if decide (1 ≤ length (Params req))%nat then hd ""%string (Params req)
    else ""%string in
  match Validate eventType with
  | Some e => (es, (None, StartErrorResponse (ErrEventType e) (reqID req)))
  | None =>
      if decide (length (Params req) < 2)%nat then
        (es, (None, StartErrorResponse MsgTxMgrListenerNameRequired (reqID req)))
      else
        let l := fresh (dom (objects es) : gset loc) in
        let '(closer, e) := AddReceiptReceiver (nth 1 (Params req) ""%string) in
        let sub :=
          {| ctrlID := id; ctrlClosed := false; ctrlSent := []; rrc := closer;
             rrcClosed := false; acksNacks := []; closed := false |} in
        let es' :=
          {| objects := <[l := sub]> (objects es);
             receiptSubs := <[id := l]> (receiptSubs es) |} in
        match e with
        | Some e' =>
            (es', (None, StartErrorResponse (ErrAddReceiptReceiver e') (reqID req)))
        | None => (es', (Some l, StartResult (reqID req) id))
        end
  end.

(** [stop]: [cleanupLocked] on every subscription of [es.receiptSubs].
    The loop deletes from the map it ranges over; each subscription is
    registered under its own id (see [registered] below), so each turn
    deletes its own entry and the loop sees every entry once. *)
Definition stop (es : rpcEventStreams) : rpcEventStreams :=
  map_fold (fun _ l acc => cleanupLocked l acc) es (receiptSubs es).

(** Every entry of [es.receiptSubs] leads to a subscription that carries
    the id it is registered under and whose [closed] channel is open. *)
Definition registered (es : rpcEventStreams) : Prop :=
  ∀ k l, receiptSubs es !! k = Some l →
    ∃ sub, objects es !! l = Some sub ∧ ctrlID sub = k ∧ closed sub = false.

(** What reaches an [rpcEventStreams]. *)
Inductive call :=
| CallStart (Validate : string → option string)
            (AddReceiptReceiver : string → bool * option string)
            (id : string) (req : RPCRequest)
| CallLifecycle (req : RPCRequest)
| CallConnectionClosed (l : loc)
| CallDeliver (pick : selectCase) (l : loc) (batchID : Z) (receipts : list string)
| CallStop.

Definition perform (es : rpcEventStreams) (c : call) : rpcEventStreams :=
  match c with
  | CallStart v a id req => (HandleStart v a id req es).1
  | CallLifecycle req => (HandleLifecycle req es).1
  | CallConnectionClosed l => ConnectionClosed l es
  | CallDeliver pick l batchID receipts =>
      match deliverAt pick l batchID receipts es with
      | Some (es', _) => es'
      | None => es
      end
  | CallStop => stop es
  end.

(** A subscription after [cleanupLocked]: its closer closed when it has
    one, its [closed] channel closed. *)
Definition shut (sub : receiptListenerSubscription) : receiptListenerSubscription :=
  {| ctrlID := ctrlID sub; ctrlClosed := ctrlClosed sub;
     ctrlSent := ctrlSent sub; rrc := rrc sub;
     rrcClosed := if rrc sub then true else rrcClosed sub;
     acksNacks := acksNacks sub; closed := true |}.

(** *** Deliveries that wait *)

(** A call of [DeliverReceiptBatch] that finds neither case of its
    [select] ready waits there, on both channels, until another goroutine
    sends an ack or a nack or closes the subscription.  [waiting] lists
    the calls that wait, oldest first, each with its subscription and its
    batch; [finished] lists the calls that have returned, oldest first,
    each with what it returned. *)
Record exchange := {
  streams : rpcEventStreams;
  waiting : list (loc * Z);
  finished : list (loc * Z * option message);
}.

Definition newExchange : exchange :=
  {| streams := newRPCEventStreams; waiting := []; finished := [] |}.

(** The oldest call that waits on the subscription [l], and the calls
    that wait once it is gone. *)
Fixpoint firstWaiting (l : loc) (ws : list (loc * Z))
    : option (Z * list (loc * Z)) :=
  match ws with
  | [] => None
  | w :: rest =>
      if decide (w.1 = l) then Some (w.2, rest)
      else '(b, rest') ← firstWaiting l rest; Some (b, w :: rest')
  end.

(** What a call returns: nothing while it is blocked. *)
Definition errorOf (d : delivery) : option message :=
  match d with
  | Blocked => None
  | Returned e => e
  end.

(** A send on [sub.acksNacks] while a call waits on it: the value goes to
    the oldest such call, not to the buffer, and the call goes on with the
    first case of its [select]. *)
Definition handOver (l : loc) (b : Z) (v : rpcAckNack) (rest : list (loc * Z))
    (x : exchange) : exchange :=
  match objects (streams x) !! l with
  | Some sub =>
      {| streams := streams x;
         waiting := rest;
         finished := finished x ++
           [(l, b, errorOf (received v (acksNacks sub) sub).2)] |}
  | None => x
  end.

Definition isClosed (es : rpcEventStreams) (l : loc) : bool :=
  default false (closed <$> objects es !! l).

(** [close(sub.closed)] wakes every call that waits on the subscription;
    each goes on with the second case of its [select]. *)
Definition wake (x : exchange) : exchange :=
  {| streams := streams x;
     waiting := filter (fun w => isClosed (streams x) w.1 = false) (waiting x);
     finished := finished x ++
       omap (fun w : loc * Z =>
               sub ← objects (streams x) !! w.1;
               if closed sub
               then Some (w.1, w.2, Some (MsgTxMgrJSONRPCSubscriptionClosed (ctrlID sub)))
               else None) (waiting x) |}.

(** The send of [HandleLifecycle] when a call waits on the subscription
    the request names. *)
Definition handedOver (req : RPCRequest) (x : exchange) : option exchange :=
  if decide ((1 ≤ length (Params req))%nat ∧
             (Method req = "ptx_ack"%string ∨ Method req = "ptx_nack"%string))
  then
    l ← getSubscription (hd ""%string (Params req)) (streams x);
    '(b, rest) ← firstWaiting l (waiting x);
    Some (handOver l b {| ack := bool_decide (Method req = "ptx_ack"%string) |} rest x)
  else None.

(** A call on the event streams, with the calls of [DeliverReceiptBatch]
    that wait: a delivery that blocks joins them; an ack or a nack goes to
    the oldest of them on its subscription when there is one, and to the
    buffer otherwise; closing a subscription wakes them.  [plain] is a
    call that hands nothing over. *)
Definition plain (x : exchange) (c : call) : exchange :=
  wake {| streams := perform (streams x) c; waiting := waiting x;
          finished := finished x |}.

Definition act (x : exchange) (c : call) : exchange :=
  match c with
  | CallDeliver pick l batchID receipts =>
      match deliverAt pick l batchID receipts (streams x) with
      | Some (es', Blocked) =>
          {| streams := es'; waiting := waiting x ++ [(l, batchID)];
             finished := finished x |}
      | Some (es', Returned e) =>
          {| streams := es'; waiting := waiting x;
             finished := finished x ++ [(l, batchID, e)] |}
      | None => x
      end
  | CallLifecycle req => default (plain x c) (handedOver req x)
  | _ => plain x c
  end.

(** A call waits only on a subscription that is open and has no ack or
    nack in its buffer. *)
Definition settled (x : exchange) : Prop :=
  ∀ l b, (l, b) ∈ waiting x →
    ∃ sub, objects (streams x) !! l = Some sub ∧
           closed sub = false ∧ acksNacks sub = [].

(** [es'] has every subscription of [es], with the same buffer. *)
Definition keeps (es es' : rpcEventStreams) : Prop :=
  ∀ l sub, objects es !! l = Some sub →
    ∃ sub', objects es' !! l = Some sub' ∧ acksNacks sub' = acksNacks sub.

End EventStreams.

(** ** Concrete inputs *)

Module Sample.
Import Engine.

Definition running (a : string) (birth : Z) : orchestrator :=
  {| signingAddress := a; state := OrchestratorStateRunning;
     stateEntryTime := birth; orchestratorBirthTime := birth;
     stopRequested := false; staleMarked := false; started := true |}.

Definition manager (m : gmap string orchestrator) (p : gmap string Z) (max : Z)
    : pubTxManager :=
  {| InFlightOrchestrators := m;
     SigningAddressesPausedUntil := p;
     InFlightOrchestratorStale := [];
     completedTxNoncePerAddress := ∅;
     maxInFlightOrchestrators := max;
     maxOrchestratorStale := 1 * Duration.Minute;
     maxOrchestratorIdle := 10 * Duration.Second;
     maxOverloadProcessTime := 10 * Duration.Minute;
     retry := defaultRetry |}.

Definition transaction (id from : string) (nonce : Z) (st : PubTxStatus) : PublicTx :=
  {| ID := id; From := from; To := "0xfeed"; Nonce := nonce; Status := st |}.

Definition noon : Z := 12 * Duration.Hour.

Definition calm (rows : list PublicTx) : pollEnv :=
  {| now := noon;
     ListTransactions := fun _ _ => (rows, None);
     ctxDone := fun _ => false |}.

Definition flaky (failures : nat) (rows : list PublicTx) : pollEnv :=
  {| now := noon;
     ListTransactions := fun attempt _ =>
       if decide (attempt ≤ failures)%nat
       then ([], Some (ErrStore "connection refused"))
       else (rows, None);
     ctxDone := fun _ => false |}.

Definition crowded : pubTxManager :=
  manager (<["0xA" := running "0xA" (noon - Duration.Second)]>
           (<["0xB" := running "0xB" (noon - Duration.Second)]> ∅)) ∅ 1.

Definition aged : pubTxManager :=
  manager (<["0xA" := running "0xA" (noon - 11 * Duration.Minute)]>
           (<["0xB" := running "0xB" (noon - Duration.Second)]> ∅)) ∅ 2.

Definition roomy : pubTxManager :=
  manager (<["0xA" := running "0xA" (noon - Duration.Second)]> ∅)
          (<["0xP" := noon + Duration.Minute]>
           (<["0xQ" := noon - Duration.Minute]> ∅)) 3.

Definition idle : engine :=
  {| ble := manager ∅ ∅ 1; tickerC := []; done := false;
     engineLoopDone := false; inPoll := false; polls := [] |}.

(** The engine of [specOrchestratorAPI]. *)
Definition poll := @Engine.poll specOrchestratorAPI.
Definition run := @Engine.run specOrchestratorAPI.

(** Every call of [poll] finds an empty queue and a store that answers. *)
Definition quiet (k : nat) : pollEnv * nat := (calm [], 1%nat).

(** One open subscription, registered under its id. *)
Definition listening : EventStreams.rpcEventStreams :=
  {| EventStreams.objects := {[ 0%nat := EventStreams.newSubscription "sub1" ]};
     EventStreams.receiptSubs := {[ "sub1"%string := 0%nat ]} |}.

Definition nack : EventStreams.RPCRequest :=
  {| EventStreams.Method := "ptx_nack"; EventStreams.reqID := "1";
     EventStreams.Params := ["sub1"%string] |}.

End Sample.

(** ** More concrete inputs *)

Module Probe.
Import EventStreams.

(** Every event type validates; a receiver is found, or is not. *)
Definition anyType (eventType : string) : option string := None.
Definition found (name : string) : bool * option string := (true, None).
Definition missing (name : string) : bool * option string :=
  (false, Some "no such listener"%string).

Definition subscribe : RPCRequest :=
  {| Method := "ptx_subscribe"; reqID := "7";
     Params := ["receipts"; "listener1"]%string |}.

Definition session : list call :=
  [ CallStart anyType found "sub1" subscribe;
    CallLifecycle Sample.nack;
    CallDeliver CaseAckNack 0%nat 1 ["receipt1"%string];
    CallStart anyType missing "sub2" subscribe;
    CallStop ].

(** One open subscription and no delivery that waits. *)
Definition hearing : exchange :=
  {| streams := Sample.listening; waiting := []; finished := [] |}.

Definition ack : RPCRequest :=
  {| Method := "ptx_ack"; reqID := "2"; Params := ["sub1"%string] |}.

(** An orchestrator that entered the state [st] at [since]. *)
Definition resting (a : string) (st : Engine.OrchestratorState) (since : Z)
    : Engine.orchestrator :=
  {| Engine.signingAddress := a; Engine.state := st;
     Engine.stateEntryTime := since; Engine.orchestratorBirthTime := since;
     Engine.stopRequested := false; Engine.staleMarked := false;
     Engine.started := true |}.

(** One signer idle for eleven seconds, one stale for thirty, one stale
    for exactly a minute. *)
Definition mixed : Engine.pubTxManager :=
  Sample.manager
    (<["0xI" := resting "0xI" Engine.OrchestratorStateIdle
                  (Sample.noon - 11 * Duration.Second)]>
     (<["0xS" := resting "0xS" Engine.OrchestratorStateStale
                   (Sample.noon - 30 * Duration.Second)]>
      (<["0xT" := resting "0xT" Engine.OrchestratorStateStale
                    (Sample.noon - 1 * Duration.Minute)]> ∅))) ∅ 5.

(** An engine whose loop has returned. *)
Definition returned : Engine.engine :=
  {| Engine.ble := Sample.roomy; Engine.tickerC := []; Engine.done := true;
     Engine.engineLoopDone := true; Engine.inPoll := false; Engine.polls := [] |}.

End Probe.

(** * Theorems *)

Import Engine.

(** ** The completed-nonce cache *)

Lemma nonce_le_refl o : nonce_le o o.
Proof. destruct o; simpl; eauto with lia. Qed.

Lemma nonce_le_trans o1 o2 o3 : nonce_le o1 o2 → nonce_le o2 o3 → nonce_le o1 o3.
Proof.
  destruct o1 as [v1|]; simpl; [|done].
  intros (v2 & -> & H12); simpl. intros (v3 & -> & H23).
  exists v3; split; [done|lia].
Qed.

Lemma Cmp_lt x y : Cmp x y = -1 ↔ x < y.
Proof. unfold Cmp. destruct (Z.compare_spec x y); split; (lia || done). Qed.

Lemma Cmp_ge x y : Cmp x y >= 0 ↔ x >= y.
Proof. unfold Cmp. destruct (Z.compare_spec x y); split; (lia || done). Qed.

Lemma lookup2_Some m k v : m !! k = Some v → lookup2 m k = (v, true).
Proof. unfold lookup2. by intros ->. Qed.

Lemma lookup2_None m k : m !! k = None → lookup2 m k = (0, false).
Proof. unfold lookup2. by intros ->. Qed.

(** The two ways a call of [updateCompletedTxNonce] can go. *)
Lemma update_cases tx ble :
  let u := updateCompletedTxNonce tx ble in
  (updated u = false ∧ u_after u = ble ∧
     ((Status tx ≠ PubTxStatusSucceeded ∧ Status tx ≠ PubTxStatusFailed) ∨
      ∃ v, completedTxNoncePerAddress ble !! From tx = Some v ∧ v >= Nonce tx)) ∨
  (updated u = true ∧
     u_after u = set_completedTxNoncePerAddress
                   (<[From tx := Nonce tx]> (completedTxNoncePerAddress ble)) ble ∧
     (Status tx = PubTxStatusSucceeded ∨ Status tx = PubTxStatusFailed) ∧
     (completedTxNoncePerAddress ble !! From tx = None ∨
      ∃ v, completedTxNoncePerAddress ble !! From tx = Some v ∧ v < Nonce tx)).
Proof.
  unfold updateCompletedTxNonce.
  destruct (decide (Status tx ≠ PubTxStatusSucceeded ∧ Status tx ≠ PubTxStatusFailed)) as [Hs|Hs].
  { left. simpl. auto. }
  assert (Hterm : Status tx = PubTxStatusSucceeded ∨ Status tx = PubTxStatusFailed).
  { destruct (Status tx); try (by left); try (by right); exfalso; apply Hs; split; discriminate. }
  destruct (completedTxNoncePerAddress ble !! From tx) as [v|] eqn:Hl.
  - rewrite (lookup2_Some _ _ _ Hl).
    destruct (decide (true = false ∨ Cmp v (Nonce tx) = -1)) as [[?|Hc]|Hn]; [done| |].
    + right. simpl. apply Cmp_lt in Hc. eauto 10.
    + left. simpl. split; [done|]. split; [done|]. right. exists v. split; [done|].
      destruct (Z.lt_ge_cases v (Nonce tx)) as [Hlt|Hge]; [|lia].
      exfalso. apply Hn. right. by apply Cmp_lt.
  - rewrite (lookup2_None _ _ Hl).
    destruct (decide (false = false ∨ Cmp 0 (Nonce tx) = -1)) as [_|Hn].
    + right. simpl. eauto 10.
    + exfalso. apply Hn. by left.
Qed.

Lemma update_lookup_le tx ble a :
  nonce_le (completedTxNoncePerAddress ble !! a)
           (completedTxNoncePerAddress (u_after (updateCompletedTxNonce tx ble)) !! a).
Proof.
  destruct (update_cases tx ble) as [(_ & -> & _)|(_ & -> & _ & Hold)].
  { apply nonce_le_refl. }
  simpl. destruct (decide (a = From tx)) as [->|Hne].
  - rewrite lookup_insert_eq.
    destruct Hold as [->|(v & -> & Hlt)]; simpl; [done|].
    exists (Nonce tx). split; [done|lia].
  - rewrite lookup_insert_ne by done. apply nonce_le_refl.
Qed.

Lemma check_after txStore tx ble :
  c_after (CheckTransactionCompleted txStore tx ble) = ble ∨
  ∃ tx0, c_after (CheckTransactionCompleted txStore tx ble) =
         u_after (updateCompletedTxNonce tx0 ble).
Proof.
  unfold CheckTransactionCompleted.
  destruct (lookup2 _ _) as [n [|]]; simpl; [by left|].
  destruct (txStore _) as [txs [e|]]; simpl; [by left|].
  destruct txs as [|tx0 ?]; simpl; [by left|]. right. by exists tx0.
Qed.

Lemma runCacheOp_le ble op a :
  nonce_le (completedTxNoncePerAddress ble !! a)
           (completedTxNoncePerAddress (runCacheOp ble op) !! a).
Proof.
  destruct op as [tx|txStore tx]; simpl.
  - apply update_lookup_le.
  - destruct (check_after txStore tx ble) as [->|[tx0 ->]].
    + apply nonce_le_refl.
    + apply update_lookup_le.
Qed.

(** C3: the completed-nonce cache only moves up.  For every signing
    address, the entry after a call of [updateCompletedTxNonce] is there
    and no lower when there was one before; and so after any sequence of
    the operations that reach the cache. *)
Theorem completed_nonce_cache_monotone :
  (∀ tx ble a,
     nonce_le (completedTxNoncePerAddress ble !! a)
              (completedTxNoncePerAddress (u_after (updateCompletedTxNonce tx ble)) !! a)) ∧
  (∀ ops ble a,
     nonce_le (completedTxNoncePerAddress ble !! a)
              (completedTxNoncePerAddress (foldl runCacheOp ble ops) !! a)).
Proof.
  split; [apply update_lookup_le|].
  induction ops as [|op ops IH]; intros ble a; simpl.
  - apply nonce_le_refl.
  - eapply nonce_le_trans; [apply runCacheOp_le|apply IH].
Qed.

(** C10: the frame of [updateCompletedTxNonce].  A transaction that is
    neither Succeeded nor Failed, or whose signer has an entry at or above
    its nonce, leaves the manager as it was and gives [false]; the result
    is [true] exactly when the status is terminal and the entry is missing
    or lower, and then the entry of the signer is the nonce of the
    transaction; the entry of no other address changes, and no other
    field of the manager. *)
Theorem updateCompletedTxNonce_frame tx ble :
  let u := updateCompletedTxNonce tx ble in
  let cache := completedTxNoncePerAddress in
  (Status tx ≠ PubTxStatusSucceeded ∧ Status tx ≠ PubTxStatusFailed →
     u_after u = ble ∧ updated u = false) ∧
  (∀ v, cache ble !! From tx = Some v → v >= Nonce tx →
     u_after u = ble ∧ updated u = false) ∧
  (updated u = true ↔
     (Status tx = PubTxStatusSucceeded ∨ Status tx = PubTxStatusFailed) ∧
     (cache ble !! From tx = None ∨
      ∃ v, cache ble !! From tx = Some v ∧ v < Nonce tx)) ∧
  (updated u = true → cache (u_after u) !! From tx = Some (Nonce tx)) ∧
  (updated u = false → u_after u = ble) ∧
  (∀ a, a ≠ From tx → cache (u_after u) !! a = cache ble !! a) ∧
  u_after u = set_completedTxNoncePerAddress (cache (u_after u)) ble.
Proof.
  intros u cache. subst u cache.
  destruct (update_cases tx ble) as [(Hu & Ha & Hwhy)|(Hu & Ha & Hst & Hold)];
    rewrite Hu, Ha.
  - split; [done|]. split; [done|]. split.
    { split; [done|]. intros [Hst Hold]. exfalso.
      destruct Hwhy as [[H1 H2]|(v & Hv & Hge)].
      - destruct Hst; congruence.
      - destruct Hold as [Hn|(v' & Hv' & Hlt)]; [congruence|].
        rewrite Hv in Hv'. injection Hv' as <-. lia. }
    split; [done|]. split; [done|]. split; [done|].
    by destruct ble.
  - simpl. split.
    { intros [H1 H2]. destruct Hst; congruence. }
    split.
    { intros v Hv Hge. exfalso.
      destruct Hold as [Hn|(v' & Hv' & Hlt)]; [congruence|].
      rewrite Hv in Hv'. injection Hv' as <-. lia. }
    split; [done|].
    split; [intros _; apply lookup_insert_eq|].
    split; [done|].
    split; [|done].
    intros a Hne. by rewrite lookup_insert_ne.
Qed.

Lemma update_writesLocked tx ble :
  writesLocked false (u_trace (updateCompletedTxNonce tx ble)) = true.
Proof.
  unfold updateCompletedTxNonce.
  destruct (decide _) as [?|?]; [done|]. destruct (lookup2 _ _) as [cur b].
  by destruct (decide _).
Qed.

Lemma update_fresh tx0 ble :
  (Status tx0 = PubTxStatusSucceeded ∨ Status tx0 = PubTxStatusFailed) →
  completedTxNoncePerAddress ble !! From tx0 = None →
  completedTxNoncePerAddress (u_after (updateCompletedTxNonce tx0 ble)) =
    <[From tx0 := Nonce tx0]> (completedTxNoncePerAddress ble).
Proof.
  intros Hst Hnone.
  destruct (update_cases tx0 ble) as [(_ & _ & Hwhy)|(_ & -> & _)]; [|done].
  exfalso. destruct Hwhy as [[H1 H2]|(v & Hv & _)]; [|congruence].
  destruct Hst; congruence.
Qed.

Lemma completed_ge v n : bool_decide (Cmp v n >= 0) = true ↔ v >= n.
Proof. by rewrite bool_decide_eq_true, Cmp_ge. Qed.

Lemma query_in_trace q a t : EvQuery q ∈ [EvRead a; EvQuery q] ++ t.
Proof. simpl. apply elem_of_cons. right. apply elem_of_cons. by left. Qed.

Lemma CheckTransactionCompleted_cases txStore tx ble :
  (∀ txs, txStore (completedQuery (From tx)) = (txs, None) →
     honours (completedQuery (From tx)) txs) →
  let r := CheckTransactionCompleted txStore tx ble in
  let cache := completedTxNoncePerAddress in
  let tf := completedQuery (From tx) in
  (completed r = true ↔
     ∃ v, cache (c_after r) !! From tx = Some v ∧ v >= Nonce tx) ∧
  (∀ v, cache ble !! From tx = Some v →
     c_after r = ble ∧ c_trace r = [EvRead (From tx)] ∧
     (completed r = true ↔ v >= Nonce tx)) ∧
  (cache ble !! From tx = None →
     EvQuery tf ∈ c_trace r ∧
     (∀ tx0 rest, txStore tf = (tx0 :: rest, None) →
        cache (c_after r) = <[From tx := Nonce tx0]> (cache ble) ∧
        (completed r = true ↔ Nonce tx0 >= Nonce tx)) ∧
     (∀ txs e, txStore tf = (txs, Some e) ∨ txStore tf = ([], None) →
        c_after r = ble ∧ completed r = false)) ∧
  writesLocked false (c_trace r) = true.
Proof.
  intros Hstore r cache tf. subst r cache tf.
  unfold CheckTransactionCompleted.
  destruct (completedTxNoncePerAddress ble !! From tx) as [v|] eqn:Hl.
  - rewrite (lookup2_Some _ _ _ Hl). simpl. rewrite Hl.
    split.
    { rewrite completed_ge. split; [intros Hge; exists v; by split|].
      intros (v' & Hv' & Hge). by injection Hv' as <-. }
    split; [|done].
    intros v' Hv'. injection Hv' as <-.
    split; [done|]. split; [done|]. apply completed_ge.
  - rewrite (lookup2_None _ _ Hl). simpl.
    destruct (txStore (completedQuery (From tx))) as [txs [e|]] eqn:Hq; simpl.
    + rewrite Hl. split; [split; [done|by intros (? & ? & _)]|].
      split; [done|]. split; [|done]. intros _.
      split; [apply (query_in_trace _ _ [])|]. split; done.
    + destruct txs as [|tx0 rest]; simpl.
      * rewrite Hl. split; [split; [done|by intros (? & ? & _)]|].
        split; [done|]. split; [|done]. intros _.
        split; [apply (query_in_trace _ _ [])|]. split; done.
      * destruct (Hstore _ eq_refl) as (_ & Hrows & _).
        destruct (Hrows tx0) as (Hst & Hfrom); [apply elem_of_cons; by left|].
        assert (Hf : From tx0 = From tx) by (by apply Hfrom).
        assert (Hterm : Status tx0 = PubTxStatusSucceeded ∨ Status tx0 = PubTxStatusFailed).
        { simpl in Hst. apply elem_of_cons in Hst as [?|Hst]; [by left|].
          apply elem_of_cons in Hst as [?|Hst]; [by right|].
          by apply elem_of_nil in Hst. }
        rewrite update_fresh; [|done|by rewrite Hf].
        rewrite Hf, lookup_insert_eq.
        split.
        { rewrite completed_ge. split; [intros Hge; eexists; by split|].
          intros (v' & Hv' & Hge). by injection Hv' as <-. }
        split; [done|].
        split; [|apply update_writesLocked].
        intros _. split; [apply query_in_trace|]. split.
        -- intros tx1 rest1 Heq. injection Heq as <- <-.
           split; [done|apply completed_ge].
        -- intros txs e [Heq|Heq]; discriminate.
Qed.

(** A store that answers from what it holds answers the way the query
    asks, when the query names a status. *)
Lemma answers_honours db q txs :
  InStatus q ≠ [] → answers db q txs → honours q txs.
Proof.
  intros Hst (full & Hfull & _ & ->).
  assert (Hin : ∀ t, t ∈ match Limit q with
                         | Some k => take (Z.to_nat k) full
                         | None => full
                         end → t ∈ full).
  { intros t. destruct (Limit q) as [k|]; [|done].
    intros Ht. rewrite <-(take_drop (Z.to_nat k) full). apply elem_of_app. by left. }
  split; [|split].
  - intros k -> Hk. rewrite length_take. lia.
  - intros t [_ (Hs & Hf & _)]%Hin%Hfull. split.
    + by destruct Hs.
    + intros a Ha. by rewrite Ha in Hf.
  - intros t [_ (_ & _ & _ & Hn)]%Hin%Hfull. done.
Qed.

Lemma u_trace_queries tx ble :
  filter (λ ev, ∃ q, ev = EvQuery q) (u_trace (updateCompletedTxNonce tx ble)) = [].
Proof.
  unfold updateCompletedTxNonce. case_decide; [done|].
  destruct (lookup2 _ _) as [c e]. by case_decide.
Qed.

Lemma CheckTransactionCompleted_trace txStore tx ble :
  filter (λ ev, ∃ q, ev = EvQuery q)
    (c_trace (CheckTransactionCompleted txStore tx ble)) =
  if decide (completedTxNoncePerAddress ble !! From tx = None)
  then [EvQuery (completedQuery (From tx))] else [].
Proof.
  unfold CheckTransactionCompleted.
  destruct (completedTxNoncePerAddress ble !! From tx) as [v|] eqn:Hl.
  - rewrite (lookup2_Some _ _ _ Hl). done.
  - rewrite (lookup2_None _ _ Hl). cbn.
    destruct (txStore _) as [txs [e|]]; [done|].
    destruct txs as [|tx0 rest]; [done|].
    cbn [c_trace app].
    rewrite filter_cons_False by (by intros [? ?]).
    rewrite filter_cons_True by (by eexists).
    by rewrite u_trace_queries.
Qed.

Lemma CheckTransactionCompleted_queries txStore tx ble q :
  EvQuery q ∈ c_trace (CheckTransactionCompleted txStore tx ble) →
  q = completedQuery (From tx).
Proof.
  intros Hin.
  assert (Hf : EvQuery q ∈ filter (λ ev, ∃ q, ev = EvQuery q)
                 (c_trace (CheckTransactionCompleted txStore tx ble))).
  { apply list_elem_of_filter. split; [by eexists|done]. }
  rewrite CheckTransactionCompleted_trace in Hf.
  case_decide; [|by apply elem_of_nil in Hf].
  apply list_elem_of_singleton in Hf. by injection Hf.
Qed.

Lemma CheckTransactionCompleted_one_query txStore tx ble :
  length (filter (λ ev, ∃ q, ev = EvQuery q)
            (c_trace (CheckTransactionCompleted txStore tx ble))) =
  (if decide (completedTxNoncePerAddress ble !! From tx = None) then 1 else 0)%nat.
Proof. rewrite CheckTransactionCompleted_trace. by case_decide. Qed.

Lemma CheckTransactionCompleted_highest txStore tx ble db txs :
  completedTxNoncePerAddress ble !! From tx = None →
  txStore (completedQuery (From tx)) = (txs, None) →
  answers db (completedQuery (From tx)) txs →
  let r := CheckTransactionCompleted txStore tx ble in
  let cache := completedTxNoncePerAddress in
  (∀ t, t ∈ db → terminal t → From t = From tx →
     ∃ v, cache (c_after r) !! From tx = Some v ∧ Nonce t <= v) ∧
  (∀ v, cache (c_after r) !! From tx = Some v →
     ∃ t, t ∈ db ∧ terminal t ∧ From t = From tx ∧ Nonce t = v) ∧
  (completed r = true ↔
     ∃ t, t ∈ db ∧ terminal t ∧ From t = From tx ∧ Nonce t >= Nonce tx).
Proof.
  intros Hnone Hq (full & Hfull & Hsort & Htxs) r cache. subst r cache.
  specialize (Hsort eq_refl). cbn [Limit completedQuery Config.P] in Htxs.
  change (Z.to_nat 1) with 1%nat in Htxs.
  assert (Hpass : ∀ t, t ∈ db → terminal t → From t = From tx → t ∈ full).
  { intros t Hdb Hterm Hfrom. apply Hfull. split; [done|].
    split; [|split; [done|split; [done|apply not_elem_of_nil]]].
    right. cbn. destruct Hterm as [-> | ->];
      [apply elem_of_cons; by left|apply elem_of_cons; right; apply elem_of_cons; by left]. }
  assert (Hrow : ∀ t, t ∈ full → t ∈ db ∧ terminal t ∧ From t = From tx).
  { intros t [Hdb (Hst & Hfrom & _)]%Hfull. split; [done|]. split; [|done].
    destruct Hst as [Hst|Hst]; [discriminate Hst|]. cbn in Hst.
    apply elem_of_cons in Hst as [?|Hst]; [by left|].
    apply elem_of_cons in Hst as [?|Hst]; [by right|]. by apply elem_of_nil in Hst. }
  unfold CheckTransactionCompleted. rewrite (lookup2_None _ _ Hnone). cbn.
  rewrite Hq. destruct full as [|tx0 more]; cbn in Htxs; subst txs; cbn.
  - rewrite Hnone. split; [|split].
    + intros t Hdb Hterm Hfrom. by apply Hpass, elem_of_nil in Hdb.
    + done.
    + split; [done|]. intros (t & Hdb & Hterm & Hfrom & _).
      by apply Hpass, elem_of_nil in Hdb.
  - destruct (Hrow tx0) as (Hdb0 & Hterm0 & Hfrom0); [apply elem_of_cons; by left|].
    rewrite update_fresh; [|done|by rewrite Hfrom0].
    rewrite Hfrom0. cbn. rewrite lookup_insert_eq.
    assert (Htop : ∀ t, t ∈ db → terminal t → From t = From tx → Nonce t <= Nonce tx0).
    { intros t Hdb Hterm Hfrom.
      apply Hpass, list_elem_of_lookup in Hdb as [j Hj]; [|done|done].
      apply (Hsort 0%nat j tx0 t); [done|done|lia]. }
    split; [|split].
    + intros t Hdb Hterm Hfrom. exists (Nonce tx0). split; [done|]. by apply Htop.
    + intros v [= <-]. by exists tx0.
    + rewrite completed_ge. split.
      * intros Hge. by exists tx0.
      * intros (t & Hdb & Hterm & Hfrom & Hge).
        specialize (Htop t Hdb Hterm Hfrom). lia.
Qed.

(** C4: [CheckTransactionCompleted], for a store that answers its query
    the way the query asks.  The result is [true] exactly when, after the
    call, the cache holds for the signer a nonce at or above the nonce of
    the transaction.  With an entry in the cache nothing is asked of the
    store and nothing changes.  Without one the store is asked, once, for
    the highest nonce of the signer among the Succeeded and Failed
    transactions: the statuses Succeeded and Failed, the signer, the sort
    ["-nonce"], the limit 1 and nothing else; a row that comes back
    becomes the entry of the signer and is what the nonce is compared
    with; an error or no row gives [false] and changes nothing.  When the
    store answers from the transactions [db] it holds, the entry after the
    call is the highest nonce of the terminal transactions of the signer
    in [db], there is none when [db] has no such transaction, and the
    result is [true] exactly when one of them has a nonce at or above the
    nonce of the transaction.  Every write of the cache happens with the
    mutex held. *)
Theorem CheckTransactionCompleted_spec txStore tx ble :
  let tf :=
    {| InStatus := [PubTxStatusSucceeded; PubTxStatusFailed];
       q_To := None; q_From := Some (From tx);
       Sort := Some "-nonce"%string; Limit := Some 1;
       NotFrom := []; HasTxValue := false |} in
  (∀ txs, txStore tf = (txs, None) → honours tf txs) →
  let r := CheckTransactionCompleted txStore tx ble in
  let cache := completedTxNoncePerAddress in
  (completed r = true ↔
     ∃ v, cache (c_after r) !! From tx = Some v ∧ v >= Nonce tx) ∧
  (∀ v, cache ble !! From tx = Some v →
     c_after r = ble ∧ c_trace r = [EvRead (From tx)] ∧
     (completed r = true ↔ v >= Nonce tx)) ∧
  (cache ble !! From tx = None →
     EvQuery tf ∈ c_trace r ∧
     (∀ tx0 rest, txStore tf = (tx0 :: rest, None) →
        cache (c_after r) = <[From tx := Nonce tx0]> (cache ble) ∧
        (completed r = true ↔ Nonce tx0 >= Nonce tx)) ∧
     (∀ txs e, txStore tf = (txs, Some e) ∨ txStore tf = ([], None) →
        c_after r = ble ∧ completed r = false)) ∧
  writesLocked false (c_trace r) = true ∧
  (∀ q, EvQuery q ∈ c_trace r → q = tf) ∧
  length (filter (λ ev, ∃ q, ev = EvQuery q) (c_trace r)) =
    (if decide (cache ble !! From tx = None) then 1 else 0)%nat ∧
  (cache ble !! From tx = None →
     ∀ db txs, txStore tf = (txs, None) → answers db tf txs →
       (∀ t, t ∈ db → terminal t → From t = From tx →
          ∃ v, cache (c_after r) !! From tx = Some v ∧ Nonce t <= v) ∧
       (∀ v, cache (c_after r) !! From tx = Some v →
          ∃ t, t ∈ db ∧ terminal t ∧ From t = From tx ∧ Nonce t = v) ∧
       (completed r = true ↔
          ∃ t, t ∈ db ∧ terminal t ∧ From t = From tx ∧ Nonce t >= Nonce tx)).
Proof.
  intros tf Hstore r cache.
  change tf with (completedQuery (From tx)) in *.
  assert (Hold := CheckTransactionCompleted_cases txStore tx ble Hstore).
  cbv zeta in Hold. fold r in Hold.
  destruct Hold as (Hiff & Hhit & Hmiss & Hlock).
  split; [exact Hiff|]. split; [exact Hhit|]. split; [exact Hmiss|].
  split; [exact Hlock|].
  split; [apply CheckTransactionCompleted_queries|].
  split; [apply CheckTransactionCompleted_one_query|].
  intros Hnone db txs Hq Hans.
  by apply (CheckTransactionCompleted_highest txStore tx ble db txs).
Qed.

Section poll_facts.
Context `{!OrchestratorAPI}.






Lemma reapStep_reaped ble now a oc v :
  reapStep ble now a oc v =
  match reaped ble now oc with
  | Some oc2 =>
      {| inFlight := <[a := oc2]> (inFlight v);
         stateCounts := bump (state oc2) (stateCounts v);
         InFlightSigningAddresses := InFlightSigningAddresses v ++ [a] |}
  | None => v
  end.
Proof. unfold reapStep, reaped. by repeat case_decide. Qed.

Lemma reapPhase_spec ble now :
  let v := reapPhase ble now in
  (∀ a, inFlight v !! a = InFlightOrchestrators ble !! a ≫= reaped ble now) ∧
  (∀ a, a ∈ InFlightSigningAddresses v ↔ is_Some (inFlight v !! a)) ∧
  (size (inFlight v) ≤ size (InFlightOrchestrators ble))%nat.
Proof.
  unfold reapPhase.
  apply (map_fold_weak_ind (λ v m,
    (∀ a, inFlight v !! a = m !! a ≫= reaped ble now) ∧
    (∀ a, a ∈ InFlightSigningAddresses v ↔ is_Some (inFlight v !! a)) ∧
    (size (inFlight v) ≤ size m)%nat)).
  - simpl. split; [intros a; by rewrite !lookup_empty|].
    split; [|by rewrite map_size_empty].
    intros a. rewrite lookup_empty. split; [by intros ?%elem_of_nil|by intros [? ?]].
  - intros i oc m v Hi (Hlook & Haddr & Hsize).
    rewrite reapStep_reaped.
    assert (Hvi : inFlight v !! i = None) by (by rewrite Hlook, Hi).
    destruct (reaped ble now oc) as [oc2|] eqn:Hr; simpl.
    + split; [|split].
      * intros a. destruct (decide (a = i)) as [->|Hne].
        -- rewrite !lookup_insert_eq. simpl. by rewrite Hr.
        -- rewrite !lookup_insert_ne by done. apply Hlook.
      * intros a. rewrite elem_of_app, list_elem_of_singleton, Haddr.
        destruct (decide (a = i)) as [->|Hne].
        -- rewrite lookup_insert_eq. split; [eauto|by right].
        -- rewrite lookup_insert_ne by done. split; [by intros [?|?]|by left].
      * rewrite !map_size_insert_None by done. lia.
    + split; [|split; [done|]].
      * intros a. destruct (decide (a = i)) as [->|Hne].
        -- rewrite lookup_insert_eq, Hvi. simpl. by rewrite Hr.
        -- rewrite lookup_insert_ne by done. apply Hlook.
      * rewrite map_size_insert_None by done. lia.
Qed.

Lemma bump_lookup k c : bump k c !! k = Some (default 0 (c !! k) + 1).
Proof. unfold bump. by rewrite lookup_insert_eq. Qed.

Lemma bump_lookup_ne k k' c : k ≠ k' → bump k c !! k' = c !! k'.
Proof. intros ?. unfold bump. by rewrite lookup_insert_ne. Qed.

Lemma bump_ge k k' c : default 0 (c !! k') <= default 0 (bump k c !! k').
Proof.
  destruct (decide (k = k')) as [->|Hne].
  - rewrite bump_lookup. simpl. lia.
  - rewrite bump_lookup_ne by done. lia.
Qed.

Lemma pauseWalk_spec ble now v :
  let v1 := pauseWalk ble now v in
  let paused := SigningAddressesPausedUntil ble in
  inFlight v1 = inFlight v ∧
  (∀ a, a ∈ InFlightSigningAddresses v1 ↔
        a ∈ InFlightSigningAddresses v ∨ ∃ t, paused !! a = Some t ∧ now < t) ∧
  (∀ k, k ≠ OrchestratorStatePaused → stateCounts v1 !! k = stateCounts v !! k) ∧
  default 0 (stateCounts v1 !! OrchestratorStatePaused) =
    default 0 (stateCounts v !! OrchestratorStatePaused) +
    Z.of_nat (size (filter (stillPaused now) paused)).
Proof.
  unfold pauseWalk.
  apply (map_fold_weak_ind (λ v1 m,
    inFlight v1 = inFlight v ∧
    (∀ a, a ∈ InFlightSigningAddresses v1 ↔
          a ∈ InFlightSigningAddresses v ∨ ∃ t, m !! a = Some t ∧ now < t) ∧
    (∀ k, k ≠ OrchestratorStatePaused → stateCounts v1 !! k = stateCounts v !! k) ∧
    default 0 (stateCounts v1 !! OrchestratorStatePaused) =
      default 0 (stateCounts v !! OrchestratorStatePaused) +
      Z.of_nat (size (filter (stillPaused now) m)))).
  - split; [done|]. split; [|split; [done|]].
    + intros a. rewrite lookup_empty. split; [by left|].
      intros [?|(t & ? & _)]; done.
    + rewrite map_filter_empty, map_size_empty. lia.
  - intros i t m v1 Hi (Hfl & Haddr & Hother & Hp).
    unfold pauseStep. destruct (decide (now < t)) as [Hlt|Hge]; simpl.
    + split; [done|]. split; [|split].
      * intros a. rewrite elem_of_app, list_elem_of_singleton, Haddr.
        destruct (decide (a = i)) as [->|Hne].
        -- rewrite lookup_insert_eq, Hi. split; [|by right].
           intros _. right. by exists t.
        -- rewrite lookup_insert_ne by done. split; [by intros [?|?]|by left].
      * intros k Hk. rewrite bump_lookup_ne by done. by apply Hother.
      * rewrite bump_lookup. simpl. rewrite Hp.
        rewrite map_filter_insert_True by done.
        rewrite map_size_insert_None; [lia|].
        by rewrite map_lookup_filter, Hi.
    + split; [done|]. split; [|split; [done|]].
      * intros a. rewrite Haddr.
        destruct (decide (a = i)) as [->|Hne].
        -- rewrite lookup_insert_eq, Hi.
           split; (intros [?|(t' & Ht' & Hlt')]; [by left|]); [done|].
           injection Ht' as <-. done.
        -- by rewrite lookup_insert_ne.
      * rewrite Hp. rewrite map_filter_insert_not' ; [done|done|].
        intros y Hy. congruence.
Qed.


Lemma createLoop_spec now rows v :
  let v' := foldl (createStep now) v rows in
  (size (inFlight v') ≤ size (inFlight v) + length rows)%nat ∧
  (size (inFlight v) ≤ size (inFlight v'))%nat ∧
  (∀ a oc, inFlight v !! a = Some oc → inFlight v' !! a = Some oc) ∧
  (∀ a, inFlight v !! a = None →
     inFlight v' !! a =
       if decide (a ∈ From <$> rows)
       then Some (Start (NewOrchestrator a now)) else None) ∧
  (∀ k, default 0 (stateCounts v !! k) <= default 0 (stateCounts v' !! k)) ∧
  InFlightSigningAddresses v' = InFlightSigningAddresses v.
Proof.
  revert v. induction rows as [|mtx rows IH]; intros v.
  - simpl. split; [lia|]. split; [lia|]. split; [done|]. split; [|split; [lia|done]].
    intros a Ha. done.
  - cbn [foldl length]. rewrite fmap_cons.
    destruct (IH (createStep now v mtx)) as (Hs1 & Hs2 & Hkeep & Hnew & Hc & Haddr).
    unfold createStep in *.
    destruct (inFlight v !! From mtx) as [oc0|] eqn:Hl; cbn [inFlight stateCounts InFlightSigningAddresses] in *.
    + split; [lia|]. split; [lia|]. split; [done|]. split; [|done].
      intros a Ha. rewrite (Hnew a Ha).
      apply decide_ext. rewrite elem_of_cons. split; [by right|].
      intros [->|?]; [congruence|done].
    + rewrite map_size_insert_None in Hs1, Hs2 by done.
      split; [lia|]. split; [lia|]. split; [|split; [|split]].
      * intros a oc Ha. apply Hkeep. rewrite lookup_insert_ne; [done|congruence].
      * intros a Ha. destruct (decide (From mtx = a)) as [Heq|Hne].
        -- subst a. rewrite (Hkeep (From mtx) _ (lookup_insert_eq _ _ _)).
           rewrite decide_True; [done|]. apply elem_of_cons. by left.
        -- rewrite Hnew by (by rewrite lookup_insert_ne).
           apply decide_ext. rewrite elem_of_cons. split; [by right|].
           intros [->|?]; [congruence|done].
      * intros k. etrans; [|apply Hc]. apply bump_ge.
      * done.
Qed.

Lemma fairnessLoop_spec ble now (survivors : gmap string orchestrator) :
  fairnessLoop ble now survivors =
    ((λ oc, if decide (overdue ble now oc) then Stop oc else oc) <$> survivors,
     ((λ _, now + maxOverloadProcessTime ble) <$> filter (λ kv, overdue ble now kv.2) survivors)
       ∪ SigningAddressesPausedUntil ble).
Proof.
  unfold fairnessLoop.
  set (paused := SigningAddressesPausedUntil ble).
  assert (Hgen : ∀ (m0 : gmap string orchestrator) m,
    let acc := map_fold (fairnessStep ble now) (m0, paused) m in
    (∀ a, acc.1 !! a =
       match m !! a with
       | Some oc => if decide (overdue ble now oc) then Some (Stop oc) else m0 !! a
       | None => m0 !! a
       end) ∧
    (∀ a, acc.2 !! a =
       match m !! a with
       | Some oc => if decide (overdue ble now oc)
                    then Some (now + maxOverloadProcessTime ble) else paused !! a
       | None => paused !! a
       end)).
  { intros m0. apply (map_fold_weak_ind (λ acc m,
      (∀ a, acc.1 !! a =
         match m !! a with
         | Some oc => if decide (overdue ble now oc) then Some (Stop oc) else m0 !! a
         | None => m0 !! a
         end) ∧
      (∀ a, acc.2 !! a =
         match m !! a with
         | Some oc => if decide (overdue ble now oc)
                      then Some (now + maxOverloadProcessTime ble) else paused !! a
         | None => paused !! a
         end))).
    - split; intros a; by rewrite lookup_empty.
    - intros i oc m acc Hi [H1 H2]. unfold fairnessStep.
      fold (overdue ble now oc).
      destruct (decide (overdue ble now oc)) as [Ho|Ho]; simpl.
      + split; intros a; (destruct (decide (a = i)) as [->|Hne];
          [rewrite !lookup_insert_eq; by rewrite decide_True
          |rewrite !lookup_insert_ne by done; [apply H1 || apply H2]]).
      + split; intros a; (destruct (decide (a = i)) as [->|Hne];
          [rewrite lookup_insert_eq, decide_False by done;
           first [rewrite H1 | rewrite H2]; by rewrite Hi
          |rewrite lookup_insert_ne by done; [apply H1 || apply H2]]). }
  destruct (Hgen survivors survivors) as [H1 H2].
  destruct (map_fold _ _ _) as [m p]. simpl in *. f_equal.
  - apply map_eq. intros a. rewrite H1, lookup_fmap.
    destruct (survivors !! a) as [oc|]; simpl; [|done]. by case_decide.
  - apply map_eq. intros a. rewrite H2.
    destruct (survivors !! a) as [oc|] eqn:Hs.
    + destruct (decide (overdue ble now oc)) as [Ho|Ho].
      * symmetry. apply lookup_union_Some_l. rewrite lookup_fmap.
        erewrite (map_lookup_filter_Some_2 _ _ a oc); done.
      * rewrite lookup_union_r; [done|]. rewrite lookup_fmap.
        rewrite map_lookup_filter_None_2; [done|]. right. intros oc' Hoc'.
        rewrite Hs in Hoc'. by injection Hoc' as <-.
    + rewrite lookup_union_r; [done|]. rewrite lookup_fmap.
      rewrite map_lookup_filter_None_2; [done|]. by left.
Qed.






Section retry_facts.
Variable r0 : Retry.Retry.
Variable env : pollEnv.
Variable spaces : Z.
Variable addrs : list string.

Let tf := pollQuery spaces addrs.
Let answer (n : nat) := ListTransactions env n tf.

Lemma Do_poll_inv fuel : ∀ attempt c w res,
  Retry.Do r0 (ctxDone env) (pollCallback env spaces addrs) fuel attempt c w = Some res →
  ∃ k : nat,
    (∀ i, (i < k)%nat →
       is_Some (answer (attempt + i)).2 ∧ ctxDone env (attempt + i) = false) ∧
    Retry.waited res = w ++ (Retry.retryDelay r0 <$> seq attempt k) ∧
    issued (Retry.closure res) = issued c ++ replicate (S k) tf ∧
    additionalTxFromNonInFlightSigners (Retry.closure res) = (answer (attempt + k)).1 ∧
    ((Retry.err res = None ∧ (answer (attempt + k)).2 = None) ∨
     (Retry.err res = Some ErrContextCancelled ∧
      is_Some (answer (attempt + k)).2 ∧ ctxDone env (attempt + k) = true)).
Proof.
  induction fuel as [|fuel IH]; intros attempt c w res; [done|].
  cbn [Retry.Do]. unfold pollCallback at 1. fold tf. fold (answer attempt).
  destruct (answer attempt) as [txs [e|]] eqn:Hans.
  - cbn [negb]. destruct (ctxDone env attempt) eqn:Hctx.
    + intros [= <-]. exists 0%nat. rewrite Nat.add_0_r, Hans. cbn.
      split; [lia|]. split; [by rewrite app_nil_r|]. split; [done|].
      split; [done|]. right. eauto.
    + intros Hdo. apply IH in Hdo as (k & Hfail & Hw & Hi & Hrows & Hend).
      exists (S k). cbn [issued] in Hi.
      replace (attempt + S k)%nat with (S attempt + k)%nat by lia.
      split; [|split; [|split; [|split]]]; try done.
      * intros i Hlt. destruct i as [|i].
        -- rewrite Nat.add_0_r, Hans. eauto.
        -- replace (attempt + S i)%nat with (S attempt + i)%nat by lia.
           apply Hfail. lia.
      * rewrite Hw. cbn [seq fmap list_fmap]. by rewrite <-app_assoc.
      * rewrite Hi. cbn [replicate]. by rewrite <-app_assoc.
  - intros [= <-]. exists 0%nat. rewrite Nat.add_0_r, Hans. cbn.
    split; [lia|]. split; [by rewrite app_nil_r|]. split; [done|].
    split; [done|]. by left.
Qed.

Lemma Do_poll_returns k : ∀ attempt c w fuel,
  (k < fuel)%nat →
  (answer (attempt + k)).2 = None ∨ ctxDone env (attempt + k) = true →
  is_Some (Retry.Do r0 (ctxDone env) (pollCallback env spaces addrs) fuel attempt c w).
Proof.
  induction k as [|k IH]; intros attempt c w fuel Hlt Hend;
    (destruct fuel as [|fuel]; [lia|]);
    cbn [Retry.Do]; unfold pollCallback at 1; fold tf; fold (answer attempt);
    destruct (answer attempt) as [txs [e|]] eqn:Hans; try (by eexists);
    cbn [negb]; destruct (ctxDone env attempt) eqn:Hctx; try (by eexists).
  - rewrite Nat.add_0_r, Hans, Hctx in Hend. by destruct Hend.
  - apply IH; [lia|]. by replace (S attempt + k)%nat with (attempt + S k)%nat by lia.
Qed.

Lemma Do_poll_diverges :
  (∀ n, is_Some (answer n).2 ∧ ctxDone env n = false) →
  ∀ fuel attempt c w,
    Retry.Do r0 (ctxDone env) (pollCallback env spaces addrs) fuel attempt c w = None.
Proof.
  intros Hall. induction fuel as [|fuel IH]; intros attempt c w; [done|].
  cbn [Retry.Do]. unfold pollCallback at 1. fold tf. fold (answer attempt).
  destruct (Hall attempt) as [[e He] Hctx].
  destruct (answer attempt) as [txs o]. simpl in He. subst o.
  cbn [negb]. rewrite Hctx. apply IH.
Qed.

End retry_facts.


(** The two branches of poll. *)
Lemma poll_full env fuel ble :
  ¬ freeSlots ble (now env) > 0 →
  poll env fuel ble =
    let '(m, p) := fairnessLoop ble (now env) (survivors ble (now env)) in
    Some {| after := set_SigningAddressesPausedUntil p
                       (set_InFlightOrchestrators m ble);
            polled := 0; total := 0; queries := []; waits := [];
            recorded := Some (stateCounts (reapPhase ble (now env)),
                              maxInFlightOrchestrators ble - Z.of_nat (size m)) |}.
Proof.
  intros Hfull. unfold poll, freeSlots, survivors in *.
  by rewrite decide_False.
Qed.

Lemma poll_free env fuel ble r :
  freeSlots ble (now env) > 0 →
  poll env fuel ble = Some r →
  let v1 := pauseWalk ble (now env) (reapPhase ble (now env)) in
  ∃ res,
    Retry.Do (retry ble) (ctxDone env)
      (pollCallback env (freeSlots ble (now env)) (InFlightSigningAddresses v1))
      fuel 1
      {| additionalTxFromNonInFlightSigners := []; issued := [] |} [] = Some res ∧
    queries r = issued (Retry.closure res) ∧
    waits r = Retry.waited res ∧
    ((is_Some (Retry.err res) ∧
      after r = set_InFlightOrchestrators (survivors ble (now env)) ble ∧
      polled r = -1 ∧
      total r = Z.of_nat (size (survivors ble (now env))) ∧
      recorded r = None) ∨
     (Retry.err res = None ∧
      let v2 := foldl (createStep (now env)) v1
                  (additionalTxFromNonInFlightSigners (Retry.closure res)) in
      after r = set_InFlightOrchestrators (inFlight v2) ble ∧
      total r = Z.of_nat (size (inFlight v2)) ∧
      polled r = (if decide (total r > 0)
                  then total r - Z.of_nat (size (survivors ble (now env))) else 0) ∧
      recorded r = Some (stateCounts v2, maxInFlightOrchestrators ble - total r))).
Proof.
  intros Hfree. unfold poll. fold (survivors ble (now env)). fold (freeSlots ble (now env)).
  rewrite decide_True by done.
  destruct (pauseWalk_spec ble (now env) (reapPhase ble (now env))) as (Hsame & _).
  fold (survivors ble (now env)) in Hsame.
  destruct (Retry.Do _ _ _ _ _ _ _) as [res|]; [|done].
  intros Hr. exists res. split; [done|].
  destruct (Retry.err res) as [e|]; injection Hr as <-; cbn.
  - split; [done|]. split; [done|]. left. rewrite Hsame. eauto 10.
  - split; [done|]. split; [done|]. right. done.
Qed.

Lemma poll_keeps_bound env fuel ble r :
  Z.of_nat (size (InFlightOrchestrators ble)) <= maxInFlightOrchestrators ble →
  (∀ n txs, ListTransactions env n (pollQueryOf ble (now env)) = (txs, None) →
     withinLimit (pollQueryOf ble (now env)) txs) →
  poll env fuel ble = Some r →
  (size (survivors ble (now env)) ≤ size (InFlightOrchestrators ble))%nat ∧
  (∀ q, q ∈ queries r →
     freeSlots ble (now env) > 0 ∧ Limit q = Some (freeSlots ble (now env))) ∧
  (size (survivors ble (now env)) ≤ size (InFlightOrchestrators (after r)))%nat ∧
  Z.of_nat (size (InFlightOrchestrators (after r))) <=
    Z.of_nat (size (survivors ble (now env))) + Z.max 0 (freeSlots ble (now env)) ∧
  Z.of_nat (size (InFlightOrchestrators (after r))) <= maxInFlightOrchestrators ble.
Proof.
  intros Hinv Hstore Hpoll. unfold pollQueryOf in Hstore.
  destruct (reapPhase_spec ble (now env)) as (_ & _ & Hsz).
  fold (survivors ble (now env)) in Hsz.
  split; [done|].
  destruct (decide (freeSlots ble (now env) > 0)) as [Hfree|Hfull].
  - destruct (poll_free _ _ _ _ Hfree Hpoll) as (res & Hdo & Hq & _ & Hres).
    apply Do_poll_inv in Hdo as (k & _ & _ & Hi & Hrows & Hend).
    cbn [issued app] in Hi.
    split.
    { intros q. rewrite Hq, Hi. intros ->%elem_of_replicate_inv. done. }
    destruct Hres as [(_ & -> & _)|(Herr & Hafter & _)].
    { cbn. unfold freeSlots in Hfree. lia. }
    cbn zeta in Hafter. rewrite Hafter. cbn.
    destruct Hend as [[_ Hok]|[Hbad _]]; [|congruence].
    set (v1 := pauseWalk _ _ _) in *.
    destruct (pauseWalk_spec ble (now env) (reapPhase ble (now env))) as (Hsame & _).
    fold v1 in Hsame. fold (survivors ble (now env)) in Hsame.
    destruct (createLoop_spec (now env)
                (additionalTxFromNonInFlightSigners (Retry.closure res)) v1)
      as (Hup & Hlow & _).
    rewrite Hsame in Hup, Hlow. split; [done|].
    assert (Hlim : Z.of_nat (length (additionalTxFromNonInFlightSigners (Retry.closure res)))
                   <= freeSlots ble (now env)).
    { rewrite Hrows.
      eapply (Hstore (1 + k)%nat).
      - apply injective_projections; [done|]. by rewrite Hok.
      - done.
      - lia. }
    unfold freeSlots in Hlim. unfold freeSlots. lia.
  - rewrite (poll_full _ _ _ Hfull) in Hpoll. rewrite fairnessLoop_spec in Hpoll.
    injection Hpoll as <-. cbn.
    split; [by intros q ?%elem_of_nil|].
    rewrite map_size_fmap. split; [done|lia].
Qed.


(** C2: fairness eviction.  When the survivors of the reap phase number
    at least [maxInFlightOrchestrators], [poll] returns whatever the fuel,
    sends no query to the store, calls [Stop] on every survivor born more
    than [maxOverloadProcessTime] ago and enters its address in the pause
    table with [now + maxOverloadProcessTime]; the other survivors and
    the other entries of the pause table are as they were. *)
Theorem poll_fairness_eviction env fuel ble :
  Z.of_nat (size (survivors ble (now env))) >= maxInFlightOrchestrators ble →
  ∃ r, poll env fuel ble = Some r ∧
    queries r = [] ∧
    (∀ a oc, survivors ble (now env) !! a = Some oc →
       overdue ble (now env) oc →
       InFlightOrchestrators (after r) !! a = Some (Stop oc) ∧
       SigningAddressesPausedUntil (after r) !! a =
         Some (now env + maxOverloadProcessTime ble)) ∧
    (∀ a oc, survivors ble (now env) !! a = Some oc →
       ¬ overdue ble (now env) oc →
       InFlightOrchestrators (after r) !! a = Some oc ∧
       SigningAddressesPausedUntil (after r) !! a =
         SigningAddressesPausedUntil ble !! a) ∧
    (∀ a, survivors ble (now env) !! a = None →
       InFlightOrchestrators (after r) !! a = None ∧
       SigningAddressesPausedUntil (after r) !! a =
         SigningAddressesPausedUntil ble !! a).
Proof.
  intros Hfull.
  assert (Hno : ¬ freeSlots ble (now env) > 0) by (unfold freeSlots; lia).
  rewrite (poll_full _ fuel _ Hno), fairnessLoop_spec.
  eexists. split; [done|]. cbn. split; [done|].
  split; [|split].
  - intros a oc Ha Ho. rewrite lookup_fmap, Ha. cbn.
    rewrite decide_True by done. split; [done|].
    apply lookup_union_Some_l. rewrite lookup_fmap.
    by erewrite (map_lookup_filter_Some_2 _ _ a oc).
  - intros a oc Ha Ho. rewrite lookup_fmap, Ha. cbn.
    rewrite decide_False by done. split; [done|].
    rewrite lookup_union_r; [done|]. rewrite lookup_fmap.
    rewrite map_lookup_filter_None_2; [done|]. right. intros oc' Hoc'.
    rewrite Ha in Hoc'. by injection Hoc' as <-.
  - intros a Ha. rewrite lookup_fmap, Ha. cbn. split; [done|].
    rewrite lookup_union_r; [done|]. rewrite lookup_fmap.
    rewrite map_lookup_filter_None_2; [done|]. by left.
Qed.



Lemma Do_poll_exact r0 env spaces addrs k : ∀ attempt c w fuel,
  let tf := pollQuery spaces addrs in
  let answer n := ListTransactions env n tf in
  (k < fuel)%nat →
  (∀ i, (i < k)%nat →
     is_Some (answer (attempt + i)%nat).2 ∧ ctxDone env (attempt + i) = false) →
  (answer (attempt + k)%nat).2 = None ∨ ctxDone env (attempt + k) = true →
  Retry.Do r0 (ctxDone env) (pollCallback env spaces addrs) fuel attempt c w =
    Some {| Retry.closure :=
              {| additionalTxFromNonInFlightSigners := (answer (attempt + k)%nat).1;
                 issued := issued c ++ replicate (S k) tf |};
            Retry.err := match (answer (attempt + k)%nat).2 with
                         | Some _ => Some ErrContextCancelled
                         | None => None
                         end;
            Retry.waited := w ++ (Retry.retryDelay r0 <$> seq attempt k) |}.
Proof.
  induction k as [|k IH]; intros attempt c w fuel tf answer Hlt Hfail Hend;
    (destruct fuel as [|fuel]; [lia|]);
    cbn [Retry.Do]; unfold pollCallback at 1; fold tf; fold (answer attempt).
  - rewrite Nat.add_0_r in *.
    destruct (answer attempt) as [txs [e|]] eqn:Hans; cbn in *.
    + destruct Hend as [?| ->]; [done|]. by rewrite app_nil_r.
    + by rewrite app_nil_r.
  - destruct (Hfail 0%nat) as [[e He] Hctx]; [lia|]. rewrite Nat.add_0_r in He, Hctx.
    destruct (answer attempt) as [txs o] eqn:Hans. cbn in He. subst o.
    cbn [negb]. rewrite Hctx.
    rewrite (IH (S attempt)); [| lia | | ].
    + replace (S attempt + k)%nat with (attempt + S k)%nat by lia.
      cbn [issued replicate seq fmap list_fmap]. by rewrite <-!app_assoc.
    + intros i Hi. replace (S attempt + i)%nat with (attempt + S i)%nat by lia.
      apply Hfail. lia.
    + by replace (S attempt + k)%nat with (attempt + S k)%nat by lia.
Qed.

Lemma Qfloor_double d : Qfloor (inject_Z d * (2 # 1)) = 2 * d.
Proof. unfold Qfloor, Qmult, inject_Z. cbn. rewrite Z.div_1_r. lia. Qed.

Lemma grow_double (r0 : Retry.Retry) n : ∀ d,
  Retry.factor r0 = (2 # 1)%Q → 0 < d <= Retry.maxDelay r0 →
  Retry.grow r0 n d = Z.min (d * 2 ^ Z.of_nat n) (Retry.maxDelay r0).
Proof.
  induction n as [|n IH]; intros d Hf Hd.
  - cbn. lia.
  - cbn [Retry.grow]. rewrite Hf, Qfloor_double.
    rewrite Nat2Z.inj_succ, Z.pow_succ_r by lia.
    assert (1 <= 2 ^ Z.of_nat n) by (apply Z.lt_pred_le, Z.pow_pos_nonneg; lia).
    case_decide.
    + nia.
    + rewrite IH by (done || lia). f_equal. lia.
Qed.



Lemma pollCallback_again env spaces addrs attempt c :
  (pollCallback env spaces addrs attempt c).2.1 = true.
Proof. unfold pollCallback. by destruct (ListTransactions _ _ _). Qed.

Lemma poll_after_retries env ble k fuel :
  let v1 := pauseWalk ble (now env) (reapPhase ble (now env)) in
  let tf := pollQuery (freeSlots ble (now env)) (InFlightSigningAddresses v1) in
  let answer n := ListTransactions env n tf in
  freeSlots ble (now env) > 0 →
  (k < fuel)%nat →
  (∀ i, (i < k)%nat →
     is_Some (answer (1 + i)%nat).2 ∧ ctxDone env (1 + i) = false) →
  (answer (1 + k)%nat).2 = None ∨ ctxDone env (1 + k) = true →
  ∃ r, poll env fuel ble = Some r ∧
    queries r = replicate (S k) tf ∧
    waits r = (Retry.retryDelay (retry ble) <$> seq 1 k) ∧
    match (answer (1 + k)%nat).2 with
    | Some _ =>
        polled r = -1 ∧
        after r = set_InFlightOrchestrators (survivors ble (now env)) ble ∧
        total r = Z.of_nat (size (survivors ble (now env))) ∧
        recorded r = None
    | None =>
        0 <= polled r ∧
        after r = set_InFlightOrchestrators
                    (inFlight (foldl (createStep (now env)) v1 (answer (1 + k)%nat).1)) ble
    end.
Proof.
  intros v1 tf answer Hfree Hlt Hfail Hend.
  unfold poll. fold (survivors ble (now env)). fold (freeSlots ble (now env)).
  rewrite decide_True by done. fold v1.
  rewrite (Do_poll_exact _ _ _ _ k) by done. fold tf.
  destruct (pauseWalk_spec ble (now env) (reapPhase ble (now env))) as (Hsame & _).
  fold v1 in Hsame. fold (survivors ble (now env)) in Hsame.
  subst answer. cbn beta in *.
  destruct (ListTransactions env (1 + k)%nat tf) as [txs [e|]];
    cbn; eexists; (split; [reflexivity|]); cbn.
  - rewrite Hsame. done.
  - split; [done|]. split; [done|]. split; [|done].
    destruct (createLoop_spec (now env) txs v1) as (_ & Hlow & _).
    rewrite Hsame in Hlow. case_decide; lia.
Qed.

(** C7: the query of [poll] is retried until the context is cancelled.
    The callback asks for another attempt whatever happens.  After [k]
    failed attempts with the context alive, an attempt that succeeds makes
    [poll] go on ([k + 1] queries sent, [k] delays waited), and an attempt
    that fails with the context done makes [poll] return [-1] with the
    survivors as the pool and nothing else changed.  [poll] returns [-1]
    only when the context was done at a failed attempt.  While the store
    fails and the context is alive [poll] does not return, whatever the
    fuel.  With the default configuration the delay after the [n+1]-th
    failure is 250 ms doubled [n] times and capped at 30 s. *)
Theorem poll_retries_until_cancelled env ble :
  freeSlots ble (now env) > 0 →
  let tf := pollQueryOf ble (now env) in
  let failed n := is_Some (ListTransactions env n tf).2 in
  (∀ spaces addrs attempt c,
     (pollCallback env spaces addrs attempt c).2.1 = true) ∧
  (∀ k fuel, (k < fuel)%nat →
     (∀ i, (i < k)%nat → failed (1 + i)%nat ∧ ctxDone env (1 + i) = false) →
     (¬ failed (1 + k)%nat →
        ∃ r, poll env fuel ble = Some r ∧ 0 <= polled r ∧
          queries r = replicate (S k) tf ∧
          waits r = (Retry.retryDelay (retry ble) <$> seq 1 k)) ∧
     (failed (1 + k)%nat → ctxDone env (1 + k) = true →
        ∃ r, poll env fuel ble = Some r ∧ polled r = -1 ∧
          after r = set_InFlightOrchestrators (survivors ble (now env)) ble ∧
          total r = Z.of_nat (size (survivors ble (now env))) ∧
          queries r = replicate (S k) tf ∧
          waits r = (Retry.retryDelay (retry ble) <$> seq 1 k))) ∧
  (∀ fuel r, poll env fuel ble = Some r → polled r = -1 →
     after r = set_InFlightOrchestrators (survivors ble (now env)) ble ∧
     ∃ n, failed n ∧ ctxDone env n = true) ∧
  ((∀ n, failed n ∧ ctxDone env n = false) → ∀ fuel, poll env fuel ble = None) ∧
  (Retry.NewRetryIndefinite (Config.Retry Config.DefaultTransactionEngineConfig)
     = Some defaultRetry ∧
   ∀ n, Retry.retryDelay defaultRetry (S n) =
        Z.min (250 * Duration.Millisecond * 2 ^ Z.of_nat n) (30 * Duration.Second)).
Proof.
  intros Hfree tf failed. unfold pollQueryOf in tf.
  set (v1 := pauseWalk ble (now env) (reapPhase ble (now env))) in *.
  split; [intros; apply pollCallback_again|].
  split; [|split; [|split; [|split]]].
  - intros k fuel Hlt Hfail. split.
    + intros Hok.
      destruct (poll_after_retries env ble k fuel Hfree Hlt Hfail) as (r & Hr & Hq & Hw & Hres).
      { left. fold v1 tf. unfold failed in Hok.
        destruct (ListTransactions env (1 + k) tf).2; [|done].
        exfalso. apply Hok. eauto. }
      fold v1 tf in Hq, Hres. exists r.
      destruct (ListTransactions env (1 + k) tf).2 as [e|] eqn:He.
      { exfalso. apply Hok. unfold failed. rewrite He. eauto. }
      destruct Hres as [Hp _]. done.
    + intros [e He] Hctx.
      destruct (poll_after_retries env ble k fuel Hfree Hlt Hfail) as (r & Hr & Hq & Hw & Hres).
      { by right. }
      fold v1 tf in Hq, Hres. exists r. rewrite He in Hres.
      destruct Hres as (? & ? & ? & _). done.
  - intros fuel r Hpoll Hm1.
    destruct (poll_free _ _ _ _ Hfree Hpoll) as (res & Hdo & _ & _ & Hres).
    fold v1 in Hdo, Hres.
    apply Do_poll_inv in Hdo as (k & _ & _ & _ & Hrows & Hend). fold tf in Hend.
    destruct Hres as [([e He] & Hafter & _)|(Herr & Hafter & Htot & Hpolled & _)].
    + split; [done|].
      destruct Hend as [[Hnone _]|(_ & Hf & Hc)]; [congruence|by exists (1 + k)%nat].
    + exfalso. cbn zeta in Htot, Hpolled.
      destruct (pauseWalk_spec ble (now env) (reapPhase ble (now env))) as (Hsame & _).
      fold v1 in Hsame. fold (survivors ble (now env)) in Hsame.
      destruct (createLoop_spec (now env)
                  (additionalTxFromNonInFlightSigners (Retry.closure res)) v1)
        as (_ & Hlow & _).
      rewrite Hsame in Hlow. rewrite Hpolled in Hm1.
      apply Nat2Z.inj_le in Hlow. rewrite <-Htot in Hlow.
      destruct (decide (total r > 0)); lia.
  - intros Hall fuel. unfold poll.
    fold (survivors ble (now env)). fold (freeSlots ble (now env)).
    rewrite decide_True by done. fold v1.
    by rewrite Do_poll_diverges.
  - done.
  - intros n. unfold Retry.retryDelay.
    replace (S n - 1)%nat with n by lia.
    rewrite grow_double; [done|done|]. split; [reflexivity|discriminate].
Qed.

(** [poll] writes two fields of the manager and no other. *)
Lemma poll_frame env fuel ble r :
  poll env fuel ble = Some r →
  ∃ m p, after r = set_SigningAddressesPausedUntil p (set_InFlightOrchestrators m ble).
Proof.
  intros Hpoll.
  destruct (decide (freeSlots ble (now env) > 0)) as [Hfree|Hfull].
  - destruct (poll_free _ _ _ _ Hfree Hpoll) as (res & _ & _ & _ & Hres).
    destruct Hres as [(_ & -> & _)|(_ & -> & _)]; eexists _, _; reflexivity.
  - rewrite (poll_full _ _ _ Hfull) in Hpoll.
    destruct (fairnessLoop _ _ _) as [m p]. injection Hpoll as <-.
    cbn. by eexists _, _.
Qed.

End poll_facts.

(** ** The engine loop *)

Section engine_facts.
Context `{!OrchestratorAPI}.
Variable envs : nat → pollEnv * nat.

Lemma callPoll_spec w e :
  let e' := callPoll envs w e in
  polls e' = polls e ++ [w] ∧
  tickerC e' = tickerC e ∧ done e' = done e ∧ engineLoopDone e' = false ∧
  InFlightOrchestratorStale (ble e') = InFlightOrchestratorStale (ble e) ∧
  maxInFlightOrchestrators (ble e') = maxInFlightOrchestrators (ble e) ∧
  (ble e' = ble e ∨
   ∃ r, poll (envs (length (polls e))).1 (envs (length (polls e))).2 (ble e) = Some r ∧
        ble e' = after r).
Proof.
  unfold callPoll. destruct (envs (length (polls e))) as [env fuel]. cbn.
  destruct (poll env fuel (ble e)) as [r|] eqn:Hpoll; cbn.
  - destruct (poll_frame _ _ _ _ Hpoll) as (m & p & Hafter).
    rewrite Hafter. cbn. repeat (split; [done|]). right. by exists r.
  - repeat (split; [done|]). by left.
Qed.

(** After every step of the engine loop, whatever the schedule, the pool
    is within its bound, provided every answer of the store is within the
    limit of its query. *)
Lemma run_pool_bound schedule : ∀ e,
  (∀ k n q txs, ListTransactions (envs k).1 n q = (txs, None) → withinLimit q txs) →
  withinBound e → withinBound (run envs e schedule).
Proof.
  induction schedule as [|ev schedule IH]; intros e Hstore Hb; [done|].
  cbn [run foldl]. apply IH; [done|].
  assert (Hpoll : ∀ w ch,
    withinBound (callPoll envs w
      {| ble := set_InFlightOrchestratorStale ch (ble e); tickerC := tickerC e;
         done := done e; engineLoopDone := false; inPoll := false; polls := polls e |}) ∧
    ∀ t, withinBound (callPoll envs w
      {| ble := ble e; tickerC := t;
         done := done e; engineLoopDone := false; inPoll := false; polls := polls e |})).
  { intros w ch. split; [|intros t].
    all: match goal with |- withinBound (callPoll _ ?w0 ?e0) =>
           destruct (callPoll_spec w0 e0) as (_ & _ & _ & _ & _ & Hmax & [Heq|(r & Hr & Heq)])
         end.
    all: unfold withinBound; rewrite ?Hmax; rewrite Heq; cbn; try done.
    all: eapply poll_keeps_bound in Hr as (_ & _ & _ & _ & Hle);
      [exact Hle|done|intros ??; apply Hstore]. }
  destruct ev as [| | |w]; cbn; try done.
  unfold engineLoopTurn.
  destruct (engineLoopDone e || inPoll e || negb (ready w e)); [done|].
  destruct w;
    [apply (proj2 (Hpoll WakeTicker []))|apply (proj1 (Hpoll WakeStale _))|done].
Qed.

(** ** The pool bound *)

(** C1, as amended: one call of [poll] keeps the pool within
    [maxInFlightOrchestrators] when it starts within it and the store
    returns no more rows than the limit of the query.  The free slots are
    [maxInFlightOrchestrators] less the survivors; a query is sent only
    when they are positive, with them as its limit; the new map holds the
    survivors and at most one more orchestrator per free slot.  Hence the
    pool is within its bound after every step of the engine loop, whatever
    the schedule, once it is so at the start, as the empty pool is. *)
Theorem poll_pool_bound :
  (∀ env fuel ble r,
     Z.of_nat (size (InFlightOrchestrators ble)) <= maxInFlightOrchestrators ble →
     (∀ n txs, ListTransactions env n (pollQueryOf ble (now env)) = (txs, None) →
        withinLimit (pollQueryOf ble (now env)) txs) →
     poll env fuel ble = Some r →
     (size (survivors ble (now env)) ≤ size (InFlightOrchestrators ble))%nat ∧
     (∀ q, q ∈ queries r →
        freeSlots ble (now env) > 0 ∧ Limit q = Some (freeSlots ble (now env))) ∧
     (size (survivors ble (now env)) ≤ size (InFlightOrchestrators (after r)))%nat ∧
     Z.of_nat (size (InFlightOrchestrators (after r))) <=
       Z.of_nat (size (survivors ble (now env))) + Z.max 0 (freeSlots ble (now env)) ∧
     Z.of_nat (size (InFlightOrchestrators (after r))) <= maxInFlightOrchestrators ble) ∧
  (∀ e schedule,
     (∀ k n q txs, ListTransactions (envs k).1 n q = (txs, None) → withinLimit q txs) →
     withinBound e → withinBound (run envs e schedule)).
Proof.
  split.
  - intros env fuel ble r. apply poll_keeps_bound.
  - intros e schedule. apply run_pool_bound.
Qed.

(** ** The wake channel *)

Lemma Mark_full ble :
  (1 ≤ length (InFlightOrchestratorStale ble))%nat →
  MarkInFlightOrchestratorsStale ble = ble.
Proof.
  intros Hlen. unfold MarkInFlightOrchestratorsStale, Chan.try_send.
  rewrite decide_False by lia. by destruct ble.
Qed.

Lemma Mark_empty ble :
  InFlightOrchestratorStale ble = [] →
  MarkInFlightOrchestratorsStale ble = set_InFlightOrchestratorStale [true] ble.
Proof.
  intros Hlen. unfold MarkInFlightOrchestratorsStale, Chan.try_send.
  rewrite Hlen. by rewrite decide_True by (cbn; lia).
Qed.

Lemma Mark_bounded ble :
  (length (InFlightOrchestratorStale ble) ≤ 1)%nat →
  (length (InFlightOrchestratorStale (MarkInFlightOrchestratorsStale ble)) ≤ 1)%nat.
Proof.
  intros Hlen. destruct (InFlightOrchestratorStale ble) as [|b ch] eqn:Hch.
  - by rewrite Mark_empty.
  - rewrite Mark_full; rewrite Hch; [done|cbn; lia].
Qed.

Lemma run_marks_full n : ∀ e,
  (1 ≤ length (InFlightOrchestratorStale (ble e)))%nat →
  run envs e (replicate n EvMark) = e.
Proof.
  induction n as [|n IH]; intros e Hlen; [done|].
  cbn [replicate run foldl step]. rewrite Mark_full by done.
  destruct e; cbn in *. by apply (IH {| ble := _ |}).
Qed.

Lemma select_stale_idle n : ∀ e,
  InFlightOrchestratorStale (ble e) = [] →
  run envs e (replicate n (EvSelect WakeStale)) = e.
Proof.
  induction n as [|n IH]; intros e Hch; [done|].
  cbn [replicate run foldl step].
  assert (Hidle : engineLoopTurn envs WakeStale e = e).
  { unfold engineLoopTurn, ready. rewrite Hch.
    rewrite bool_decide_eq_false_2 by (by intros Hne). cbn.
    by rewrite !orb_true_r. }
  rewrite Hidle. by apply IH.
Qed.

Lemma run_stale_bounded schedule : ∀ e,
  (length (InFlightOrchestratorStale (ble e)) ≤ 1)%nat →
  (length (InFlightOrchestratorStale (ble (run envs e schedule))) ≤ 1)%nat.
Proof.
  induction schedule as [|ev schedule IH]; intros e Hlen; [done|].
  cbn [run foldl]. apply IH.
  destruct ev as [| | |w]; cbn; try done.
  { by apply Mark_bounded. }
  unfold engineLoopTurn.
  destruct (engineLoopDone e || inPoll e || negb (ready w e)); [done|].
  destruct w; cbn; [| |done].
  all: match goal with |- context [callPoll _ ?w0 ?e0] =>
         destruct (callPoll_spec w0 e0) as (_ & _ & _ & _ & Hst & _); rewrite Hst
       end.
  all: cbn.
  - done.
  - destruct (InFlightOrchestratorStale (ble e)); cbn in *; lia.
Qed.

(** C6, as amended.  A call of [MarkInFlightOrchestratorsStale] never
    blocks (it is a total function) and changes nothing when the buffer
    holds a signal; the buffer never holds more than one; and [N ≥ 1]
    calls made while the loop takes nothing from the channel leave one
    signal, which makes the loop poll once and no more, however many turns
    it is given afterwards. *)
Theorem stale_wake_coalesces :
  (∀ ble, (1 ≤ length (InFlightOrchestratorStale ble))%nat →
     MarkInFlightOrchestratorsStale ble = ble) ∧
  (∀ ble, InFlightOrchestratorStale ble = [] →
     MarkInFlightOrchestratorsStale ble = set_InFlightOrchestratorStale [true] ble) ∧
  (∀ e schedule,
     (length (InFlightOrchestratorStale (ble e)) ≤ 1)%nat →
     (length (InFlightOrchestratorStale (ble (run envs e schedule))) ≤ 1)%nat) ∧
  (∀ N k e,
     (1 ≤ N)%nat → (1 ≤ k)%nat →
     InFlightOrchestratorStale (ble e) = [] →
     engineLoopDone e = false → inPoll e = false →
     let e1 := run envs e (replicate N EvMark) in
     let e2 := run envs e1 (replicate k (EvSelect WakeStale)) in
     InFlightOrchestratorStale (ble e1) = [true] ∧
     polls e1 = polls e ∧
     polls e2 = polls e ++ [WakeStale] ∧
     extraPolls e2 = S (extraPolls e) ∧
     InFlightOrchestratorStale (ble e2) = []).
Proof.
  split; [apply Mark_full|]. split; [apply Mark_empty|].
  split; [intros e schedule; apply run_stale_bounded|].
  intros N k e HN Hk Hch Hdone Hin e1 e2.
  destruct N as [|N]; [lia|]. destruct k as [|k]; [lia|].
  assert (He1 : e1 =
    {| ble := set_InFlightOrchestratorStale [true] (ble e); tickerC := tickerC e;
       done := done e; engineLoopDone := engineLoopDone e;
       inPoll := inPoll e; polls := polls e |}).
  { subst e1. cbn [replicate run foldl step]. rewrite Mark_empty by done.
    apply run_marks_full. cbn. lia. }
  subst e2. rewrite He1. clear e1 He1.
  split; [done|]. split; [done|].
  cbn [replicate run foldl step].
  unfold engineLoopTurn at 1. cbn. rewrite Hdone, Hin. cbn.
  match goal with |- context [callPoll _ ?w0 ?e0] =>
    destruct (callPoll_spec w0 e0) as (Hp & _ & _ & _ & Hst & _);
    set (e3 := callPoll envs w0 e0) in *
  end.
  cbn in Hp, Hst.
  fold (run envs e3 (replicate k (EvSelect WakeStale))).
  rewrite select_stale_idle by done.
  split; [done|]. split; [|done].
  unfold extraPolls. rewrite Hp, filter_app, length_app.
  change (filter (λ w : wake, w = WakeStale) [WakeStale]) with [WakeStale].
  cbn [length]. lia.
Qed.

End engine_facts.

(** ** The default configuration *)

(** C8: what [DefaultTransactionEngineConfig] holds.  Every default of the
    configuration table is there but one: the literal has no
    [MaxOverloadProcessTime] key, so that pointer is nil, although the
    constant [defaultMaxOverloadProcessTime] denotes the ten minutes of the
    table. *)
Theorem DefaultTransactionEngineConfig_values :
  let c := Config.DefaultTransactionEngineConfig in
  Config.MaxInFlightOrchestrators c = Some 50 ∧
  Config.duration_of (Config.Interval c) = Some (5 * Duration.Second) ∧
  Config.duration_of (Config.MaxStaleTime c) = Some (1 * Duration.Minute) ∧
  Config.duration_of (Config.MaxIdleTime c) = Some (10 * Duration.Second) ∧
  Config.duration_of (Config.InitialDelay (Config.Retry c)) =
    Some (250 * Duration.Millisecond) ∧
  Config.duration_of (Config.MaxDelay (Config.Retry c)) = Some (30 * Duration.Second) ∧
  Config.Factor (Config.Retry c) = Some (2 # 1)%Q ∧
  Config.Capacity (Config.TransactionCache c) = Some 1000 ∧
  Config.MaxOverloadProcessTime c = None ∧
  Duration.ParseDuration Config.defaultMaxOverloadProcessTime =
    Some (10 * Duration.Minute).
Proof. repeat split; reflexivity. Qed.

Lemma term_range s d d' s' :
  Duration.term s d = Some (d', s') → 0 <= d' <= Duration.two63.
Proof.
  unfold Duration.term. intros H.
  repeat (case_match; simplify_option_eq; try done).
  all: unfold Duration.add64 in *;
    match goal with
    | |- context [?a mod ?b] => pose proof (Z.mod_pos_bound a b ltac:(done)); lia
    end.
Qed.

Lemma terms_range fuel : ∀ s d d',
  0 <= d <= Duration.two63 →
  Duration.terms fuel s d = Some d' → 0 <= d' <= Duration.two63.
Proof.
  induction fuel as [|fuel IH]; intros s d d' Hd; destruct s as [|c s].
  - intros [= <-]. exact Hd.
  - intros [=].
  - intros [= <-]. exact Hd.
  - cbn [Duration.terms].
    destruct (Duration.term (String c s) d) as [[d1 s1]|] eqn:Ht; [|intros [=]].
    cbn. apply IH. by eapply term_range.
Qed.

(** What [ParseDuration] returns fits an [int64]: a duration beyond the
    range is an error, not a wrapped value. *)
Lemma ParseDuration_in_range s d :
  Duration.ParseDuration s = Some d → - 2 ^ 63 <= d <= 2 ^ 63 - 1.
Proof.
  unfold Duration.ParseDuration.
  assert (H : ∀ (neg : bool) s1,
    (if decide (s1 = "0"%string) then Some 0
     else if decide (s1 = EmptyString) then None
     else d0 ← Duration.terms (String.length s1) s1 0;
          if neg then Some (- d0)
          else if decide (d0 > Duration.two63 - 1) then None else Some d0) = Some d →
    - 2 ^ 63 <= d <= 2 ^ 63 - 1).
  { intros neg s1. case_decide; [intros [= <-]; lia|]. case_decide; [done|].
    destruct (Duration.terms _ s1 0) as [d0|] eqn:Ht; cbn; [|done].
    apply terms_range in Ht; [|unfold Duration.two63; lia].
    unfold Duration.two63 in *. destruct neg; [intros [= <-]; lia|].
    case_decide; [done|]. intros [= <-]. lia. }
  destruct s as [|c s]; [apply (H false)|].
  destruct (decide (c = "-"%char)) as [-> |Hm]; [apply (H true)|].
  destruct (decide (c = "+"%char)) as [-> |Hp]; [apply (H false)|].
  intros Hd. apply (H false (String c s)). rewrite <-Hd.
  destruct c as [[] [] [] [] [] [] [] []]; try done.
Qed.

(** ** Receipt delivery *)

Import EventStreams.

Lemma received_spec a rest sub :
  let res := received a rest sub in
  acksNacks res.1 = rest ∧ closed res.1 = closed sub ∧
  ctrlSent res.1 = ctrlSent sub ∧ ctrlID res.1 = ctrlID sub ∧
  res.2 = Returned (if ack a then None
                    else Some (MsgTxMgrJSONRPCSubscriptionNack (ctrlID sub))).
Proof. unfold received. by destruct (ack a). Qed.

Lemma DeliverReceiptBatch_cases :
  ∀ pick batchID receipts sub,
     let res := DeliverReceiptBatch pick batchID receipts sub in
     let taken := closed sub = false ∨ pick = CaseAckNack in
     ctrlSent res.1 = ctrlSent sub ++
       [("ptx_receiptBatch"%string,
         {| Subscription := ctrlID sub; Batch := batchID; Receipts := receipts |})] ∧
     closed res.1 = closed sub ∧
     (res.2 = Blocked ↔ acksNacks sub = [] ∧ closed sub = false) ∧
     (res.2 = Returned None ↔
        ∃ rest, acksNacks sub = {| ack := true |} :: rest ∧ taken) ∧
     (res.2 = Returned (Some (MsgTxMgrJSONRPCSubscriptionNack (ctrlID sub))) ↔
        ∃ rest, acksNacks sub = {| ack := false |} :: rest ∧ taken) ∧
     (res.2 = Returned (Some (MsgTxMgrJSONRPCSubscriptionClosed (ctrlID sub))) ↔
        closed sub = true ∧ (acksNacks sub = [] ∨ pick = CaseClosed)).
Proof.
  intros pick batchID receipts sub res taken. subst res taken.
  unfold DeliverReceiptBatch.
  change (acksNacks (afterSend batchID receipts sub)) with (acksNacks sub).
  change (closed (afterSend batchID receipts sub)) with (closed sub).
  change (ctrlID (afterSend batchID receipts sub)) with (ctrlID sub).
  destruct (acksNacks sub) as [|[a] rest] eqn:Hch; cbn [Chan.recv];
    destruct (closed sub) eqn:Hcl; try destruct pick; try destruct a; cbn.
  all: split; [done|]; split; [done|].
  all: repeat split; try done; try (intros (? & ? & ?); done);
         try (intros [? ?]; done); try (intros [? [?|?]]; done).
  all: try (intros _; eexists; split; [done|]; by (left + right)).
  all: try (intros _; by (left + right)).
  all: try by (intros (? & ? & [?|?])).
  all: by (left + right).
Qed.

(** C9, as amended.  [DeliverReceiptBatch] sends the batch, then waits for
    an ack, a nack or the closing of the subscription: it is blocked while
    there is none of them; it returns [nil] exactly when it takes an ack
    from the channel; it returns the nack error exactly when it takes a
    nack; it returns the closed error exactly when it takes the closed
    case, which it must when the subscription is closed and no ack or nack
    waits.  It never closes the subscription, and neither does a
    [ptx_ack] or [ptx_nack] request: after a nack the subscription is as
    open and as registered as before. *)
Theorem DeliverReceiptBatch_outcomes :
  (∀ pick batchID receipts sub,
     let res := DeliverReceiptBatch pick batchID receipts sub in
     let taken := closed sub = false ∨ pick = CaseAckNack in
     ctrlSent res.1 = ctrlSent sub ++
       [("ptx_receiptBatch"%string,
         {| Subscription := ctrlID sub; Batch := batchID; Receipts := receipts |})] ∧
     closed res.1 = closed sub ∧
     (res.2 = Blocked ↔ acksNacks sub = [] ∧ closed sub = false) ∧
     (res.2 = Returned None ↔
        ∃ rest, acksNacks sub = {| ack := true |} :: rest ∧ taken) ∧
     (res.2 = Returned (Some (MsgTxMgrJSONRPCSubscriptionNack (ctrlID sub))) ↔
        ∃ rest, acksNacks sub = {| ack := false |} :: rest ∧ taken) ∧
     (res.2 = Returned (Some (MsgTxMgrJSONRPCSubscriptionClosed (ctrlID sub))) ↔
        closed sub = true ∧ (acksNacks sub = [] ∨ pick = CaseClosed))) ∧
  (∀ pick l batchID receipts es es' d,
     deliverAt pick l batchID receipts es = Some (es', d) →
     receiptSubs es' = receiptSubs es ∧
     ∀ l', closed <$> objects es' !! l' = closed <$> objects es !! l') ∧
  (∀ req es,
     Method req = "ptx_ack"%string ∨ Method req = "ptx_nack"%string →
     let es' := (HandleLifecycle req es).1 in
     receiptSubs es' = receiptSubs es ∧
     ∀ l', closed <$> objects es' !! l' = closed <$> objects es !! l').
Proof.
  split; [apply DeliverReceiptBatch_cases|split].
  - intros pick l batchID receipts es es' d. unfold deliverAt.
    destruct (objects es !! l) as [sub|] eqn:Hl; [|done]. cbn.
    destruct (DeliverReceiptBatch_cases pick batchID receipts sub) as (_ & Hc & _).
    destruct (DeliverReceiptBatch pick batchID receipts sub) as [sub' d'].
    intros [= <- <-]. cbn. split; [done|]. intros l'.
    destruct (decide (l' = l)) as [->|Hne].
    + rewrite lookup_insert_eq, Hl. cbn. by f_equal.
    + by rewrite lookup_insert_ne.
  - intros req es Hm es'. subst es'. unfold HandleLifecycle.
    destruct (decide (length (Params req) < 1)%nat); [done|].
    rewrite decide_True by done.
    destruct (getSubscription _ es) as [l|]; [|done].
    cbn. split; [done|]. intros l'. rewrite lookup_alter.
    case_decide; [subst|done]. by destruct (objects es !! l').
Qed.

(** * Further properties *)

(** ** The life of a subscription *)

Lemma cleanupLocked_Some l es sub :
  objects es !! l = Some sub →
  cleanupLocked l es =
    {| objects := <[l := shut sub]> (objects es);
       receiptSubs := delete (ctrlID sub) (receiptSubs es) |}.
Proof. intros Hl. unfold cleanupLocked. by rewrite Hl. Qed.

Lemma registered_inj es k1 k2 l :
  registered es → receiptSubs es !! k1 = Some l → receiptSubs es !! k2 = Some l →
  k1 = k2.
Proof.
  intros Hreg H1 H2.
  destruct (Hreg _ _ H1) as (s1 & Hs1 & <- & _).
  destruct (Hreg _ _ H2) as (s2 & Hs2 & <- & _). congruence.
Qed.

Lemma registered_cleanupLocked l es :
  registered es → registered (cleanupLocked l es).
Proof.
  intros Hreg. destruct (objects es !! l) as [sub|] eqn:Hl.
  2:{ unfold cleanupLocked. by rewrite Hl. }
  rewrite (cleanupLocked_Some _ _ _ Hl). intros k l' Hk. cbn in *.
  apply lookup_delete_Some in Hk as [Hne Hk].
  destruct (Hreg _ _ Hk) as (sub' & Hs' & Hid & Hopen).
  exists sub'. split; [|done].
  rewrite lookup_insert_ne; [done|]. intros <-. congruence.
Qed.

Lemma registered_alter f es :
  (∀ sub, ctrlID (f sub) = ctrlID sub ∧ closed (f sub) = closed sub) →
  ∀ l, registered es →
    registered {| objects := alter f l (objects es); receiptSubs := receiptSubs es |}.
Proof.
  intros Hf l Hreg k l' Hk. cbn in *.
  destruct (Hreg _ _ Hk) as (sub & Hs & Hid & Hopen).
  destruct (decide (l' = l)) as [->|Hne].
  - exists (f sub). rewrite lookup_alter_eq, Hs. destruct (Hf sub) as [-> ->]. done.
  - exists sub. by rewrite lookup_alter_ne.
Qed.

Lemma registered_cleanupSubscription subID es :
  registered es → registered (cleanupSubscription subID es).
Proof.
  intros Hreg. unfold cleanupSubscription.
  destruct (receiptSubs es !! subID); [by apply registered_cleanupLocked|done].
Qed.

Lemma registered_HandleLifecycle req es :
  registered es → registered (HandleLifecycle req es).1.
Proof.
  intros Hreg. unfold HandleLifecycle.
  destruct (decide (length (Params req) < 1)%nat); [done|].
  destruct (decide (Method req = "ptx_ack"%string ∨ Method req = "ptx_nack"%string)).
  { destruct (getSubscription _ es) as [l|]; [|done]. cbn.
    by apply registered_alter. }
  destruct (decide (Method req = "ptx_unsubscribe"%string)); [|done].
  destruct (getSubscription _ es) as [l|]; [|done]. cbn.
  apply registered_cleanupSubscription. by apply registered_alter.
Qed.

Lemma DeliverReceiptBatch_keeps pick batchID receipts sub :
  let res := DeliverReceiptBatch pick batchID receipts sub in
  ctrlID res.1 = ctrlID sub ∧ closed res.1 = closed sub ∧
  ctrlClosed res.1 = ctrlClosed sub ∧ rrc res.1 = rrc sub ∧
  rrcClosed res.1 = rrcClosed sub.
Proof.
  unfold DeliverReceiptBatch, received.
  change (acksNacks (afterSend batchID receipts sub)) with (acksNacks sub).
  change (closed (afterSend batchID receipts sub)) with (closed sub).
  destruct (acksNacks sub) as [|a rest]; cbn [Chan.recv];
    destruct (closed sub) eqn:Hcl; try destruct pick; try destruct (ack a);
    cbn; by rewrite ?Hcl.
Qed.

Lemma registered_deliverAt pick l batchID receipts es es' d :
  registered es → deliverAt pick l batchID receipts es = Some (es', d) →
  registered es'.
Proof.
  intros Hreg. unfold deliverAt.
  destruct (objects es !! l) as [sub|] eqn:Hl; [|done]. cbn.
  destruct (DeliverReceiptBatch_keeps pick batchID receipts sub) as (Hid & Hcl & _).
  destruct (DeliverReceiptBatch pick batchID receipts sub) as [sub' d'].
  intros [= <- <-] k l' Hk. cbn in *.
  destruct (Hreg _ _ Hk) as (s0 & Hs & Hid0 & Hopen).
  destruct (decide (l' = l)) as [->|Hne].
  - exists sub'. rewrite lookup_insert_eq. split; [done|]. split; congruence.
  - exists s0. by rewrite lookup_insert_ne.
Qed.

Lemma fresh_unused (es : rpcEventStreams) :
  objects es !! fresh (dom (objects es) : gset loc) = None.
Proof. apply not_elem_of_dom, is_fresh. Qed.

Lemma registered_HandleStart v a id req es :
  registered es → registered (HandleStart v a id req es).1.
Proof.
  intros Hreg. unfold HandleStart.
  destruct (v _); [done|]. destruct (decide _); [done|].
  destruct (a _) as [closer e].
  assert (registered
    {| objects := <[fresh (dom (objects es) : gset loc) :=
                     {| ctrlID := id; ctrlClosed := false; ctrlSent := [];
                        rrc := closer; rrcClosed := false; acksNacks := [];
                        closed := false |}]> (objects es);
       receiptSubs := <[id := fresh (dom (objects es) : gset loc)]> (receiptSubs es) |}).
  { intros k l Hk. cbn in *. destruct (decide (k = id)) as [->|Hne].
    - rewrite lookup_insert_eq in Hk. injection Hk as <-.
      eexists. by rewrite lookup_insert_eq.
    - rewrite lookup_insert_ne in Hk by done.
      destruct (Hreg _ _ Hk) as (sub & Hs & Hid & Hopen).
      exists sub. split; [|done]. rewrite lookup_insert_ne; [done|].
      intros <-. by rewrite fresh_unused in Hs. }
  by destruct e.
Qed.

Lemma stop_spec es :
  registered es →
  receiptSubs (stop es) = ∅ ∧
  (∀ k l, receiptSubs es !! k = Some l →
     objects (stop es) !! l = shut <$> objects es !! l) ∧
  (∀ l, (∀ k, receiptSubs es !! k ≠ Some l) →
     objects (stop es) !! l = objects es !! l).
Proof.
  intros Hreg. unfold stop.
  assert (Hgen : ∀ m, m ⊆ receiptSubs es →
    let acc := map_fold (λ _ l acc, cleanupLocked l acc) es m in
    (∀ k, receiptSubs acc !! k =
          match m !! k with Some _ => None | None => receiptSubs es !! k end) ∧
    (∀ k l, m !! k = Some l → objects acc !! l = shut <$> objects es !! l) ∧
    (∀ l, (∀ k, m !! k ≠ Some l) → objects acc !! l = objects es !! l)).
  { intros m. apply (map_fold_weak_ind (λ acc m, m ⊆ receiptSubs es →
      (∀ k, receiptSubs acc !! k =
            match m !! k with Some _ => None | None => receiptSubs es !! k end) ∧
      (∀ k l, m !! k = Some l → objects acc !! l = shut <$> objects es !! l) ∧
      (∀ l, (∀ k, m !! k ≠ Some l) → objects acc !! l = objects es !! l))).
    - intros _. split; [|split].
      + intros k. by rewrite lookup_empty.
      + intros k l. by rewrite lookup_empty.
      + done.
    - intros i x m0 acc Hi IH Hsub.
      assert (Hix : receiptSubs es !! i = Some x).
      { eapply lookup_weaken; [|exact Hsub]. apply lookup_insert_eq. }
      assert (Hsub0 : m0 ⊆ receiptSubs es).
      { etrans; [|exact Hsub]. by apply insert_subseteq. }
      destruct (IH Hsub0) as (Hsubs & Hshut & Hsame).
      destruct (Hreg _ _ Hix) as (sub & Hs & Hid & Hopen).
      assert (Hnot : ∀ k, m0 !! k ≠ Some x).
      { intros k Hk.
        assert (k = i); [|congruence].
        eapply (registered_inj es); [done| |done].
        eapply lookup_weaken; [exact Hk|exact Hsub0]. }
      rewrite (cleanupLocked_Some x acc sub) by (by rewrite Hsame, Hs).
      cbn. rewrite Hid. split; [|split].
      + intros k. destruct (decide (k = i)) as [->|Hne].
        * by rewrite lookup_delete_eq, lookup_insert_eq.
        * rewrite lookup_delete_ne, lookup_insert_ne by done. apply Hsubs.
      + intros k l Hk. destruct (decide (k = i)) as [->|Hne].
        * rewrite lookup_insert_eq in Hk. injection Hk as <-.
          by rewrite lookup_insert_eq, Hs.
        * rewrite lookup_insert_ne in Hk by done.
          rewrite lookup_insert_ne; [by eapply Hshut|].
          intros <-. by apply (Hnot k).
      + intros l Hl. rewrite lookup_insert_ne.
        * apply Hsame. intros k Hk. apply (Hl k).
          rewrite lookup_insert_ne; [done|]. intros <-. congruence.
        * intros <-. apply (Hl i). apply lookup_insert_eq. }
  destruct (Hgen (receiptSubs es)) as (Hsubs & Hshut & Hsame); [done|].
  split; [|split; [done|done]].
  apply map_eq. intros k. rewrite Hsubs, lookup_empty.
  by destruct (receiptSubs es !! k).
Qed.

Lemma registered_stop es : registered es → registered (stop es).
Proof.
  intros Hreg. destruct (stop_spec es Hreg) as (Hempty & _).
  intros k l. by rewrite Hempty, lookup_empty.
Qed.

(** X4: [stop] on registered subscriptions.  It empties
    [es.receiptSubs] and closes every subscription that was in it, with
    its closer when it has one; it calls no [ctrl.Closed()], leaves the
    ack channels as they are and touches no other subscription; a second
    [stop] does nothing. *)
Theorem stop_closes_every_subscription es :
  registered es →
  receiptSubs (stop es) = ∅ ∧
  (∀ k l, receiptSubs es !! k = Some l →
     ∃ sub sub', objects es !! l = Some sub ∧ objects (stop es) !! l = Some sub' ∧
       closed sub' = true ∧ rrcClosed sub' = (rrc sub || rrcClosed sub) ∧
       ctrlClosed sub' = ctrlClosed sub ∧ acksNacks sub' = acksNacks sub ∧
       ctrlSent sub' = ctrlSent sub) ∧
  (∀ l, (∀ k, receiptSubs es !! k ≠ Some l) →
     objects (stop es) !! l = objects es !! l) ∧
  stop (stop es) = stop es.
Proof.
  intros Hreg. destruct (stop_spec es Hreg) as (Hempty & Hshut & Hsame).
  split; [done|]. split; [|split; [done|]].
  - intros k l Hk. destruct (Hreg _ _ Hk) as (sub & Hs & _).
    exists sub, (shut sub). rewrite (Hshut _ _ Hk), Hs. cbn.
    repeat split; try done; by destruct (rrc sub).
  - unfold stop at 1. rewrite Hempty. apply map_fold_empty.
Qed.

Lemma registered_perform es c : registered es → registered (perform es c).
Proof.
  intros Hreg. destruct c as [v a id req|req|l|pick l b r|]; cbn.
  - by apply registered_HandleStart.
  - by apply registered_HandleLifecycle.
  - unfold ConnectionClosed. destruct (objects es !! l); [|done].
    by apply registered_cleanupSubscription.
  - destruct (deliverAt pick l b r es) as [[es' d]|] eqn:Hd; [|done].
    by eapply registered_deliverAt.
  - by apply registered_stop.
Qed.

(** X1: every subscription in [es.receiptSubs] is there under its own
    id and with its [closed] channel open, after any sequence of
    [HandleStart], [HandleLifecycle], [ConnectionClosed],
    [DeliverReceiptBatch] and [stop] from [newRPCEventStreams]; so
    [cleanupLocked], which these reach only through the map, never closes
    a channel twice. *)
Theorem subscriptions_stay_registered :
  (∀ es c, registered es → registered (perform es c)) ∧
  (∀ calls, registered (foldl perform newRPCEventStreams calls)).
Proof.
  split; [apply registered_perform|].
  assert (H : ∀ calls es, registered es → registered (foldl perform es calls)).
  { induction calls as [|c calls IH]; intros es Hreg; [done|].
    cbn. apply IH. by apply registered_perform. }
  intros calls. apply H. intros k l. cbn. by rewrite lookup_empty.
Qed.

Lemma HandleStart_accepted v a id req es :
  v (hd ""%string (Params req)) = None →
  (2 ≤ length (Params req))%nat →
  let l := fresh (dom (objects es) : gset loc) in
  let added := a (nth 1 (Params req) ""%string) in
  HandleStart v a id req es =
    ({| objects :=
          <[l := {| ctrlID := id; ctrlClosed := false; ctrlSent := [];
                    rrc := added.1; rrcClosed := false; acksNacks := [];
                    closed := false |}]> (objects es);
        receiptSubs := <[id := l]> (receiptSubs es) |},
     match added.2 with
     | Some e => (None, StartErrorResponse (ErrAddReceiptReceiver e) (reqID req))
     | None => (Some l, StartResult (reqID req) id)
     end).
Proof.
  intros Hv Hlen l added. subst l added. unfold HandleStart.
  rewrite decide_True by lia. rewrite Hv.
  rewrite decide_False by lia.
  destruct (a _) as [closer [e|]]; done.
Qed.

(** X2: what [HandleStart] leaves behind.  With an event type that does
    not validate, or fewer than two parameters, it answers an error,
    returns no instance and changes nothing.  Otherwise it registers a
    new, open subscription with an empty ack channel under [ctrl.ID()],
    and it does so before it calls [AddReceiptReceiver]: when that call
    fails the caller gets the error and no instance, and the subscription
    stays registered. *)
Theorem HandleStart_outcomes v a id req es :
  let res := HandleStart v a id req es in
  let accepted := v (hd ""%string (Params req)) = None ∧ (2 ≤ length (Params req))%nat in
  let l := fresh (dom (objects es) : gset loc) in
  let added := a (nth 1 (Params req) ""%string) in
  (¬ accepted →
     res.1 = es ∧ res.2.1 = None ∧
     ∃ e, res.2.2 = StartErrorResponse e (reqID req)) ∧
  (accepted →
     objects es !! l = None ∧
     receiptSubs res.1 = <[id := l]> (receiptSubs es) ∧
     objects res.1 =
       <[l := {| ctrlID := id; ctrlClosed := false; ctrlSent := [];
                 rrc := added.1; rrcClosed := false; acksNacks := [];
                 closed := false |}]> (objects es) ∧
     res.2 = match added.2 with
             | Some e => (None, StartErrorResponse (ErrAddReceiptReceiver e) (reqID req))
             | None => (Some l, StartResult (reqID req) id)
             end).
Proof.
  intros res accepted l added. subst res accepted l added. unfold HandleStart.
  assert (Hty : (if decide (1 ≤ length (Params req))%nat
                 then hd ""%string (Params req) else ""%string)
                = hd ""%string (Params req)).
  { case_decide; [done|]. destruct (Params req); [done|]. cbn in *. lia. }
  rewrite Hty.
  destruct (v (hd ""%string (Params req))) as [e|].
  { split; [|by intros [? _]]. intros _. cbn. eauto. }
  destruct (decide (length (Params req) < 2)%nat) as [Hlt|Hge].
  { split; [|intros [_ ?]; lia]. intros _. cbn. eauto. }
  split; [intros Hn; exfalso; apply Hn; split; [done|lia]|].
  intros _. split; [apply fresh_unused|].
  destruct (a _) as [closer [e|]]; done.
Qed.

(** X3: subscribe, then unsubscribe.  After a [HandleStart] that
    registered a subscription, [ptx_unsubscribe] for its id answers
    [true], removes the registration, calls [ctrl.Closed()], closes the
    closer when there is one and closes the [closed] channel; the other
    subscriptions are as before the two calls; a second [ptx_unsubscribe]
    answers [false] and changes nothing. *)
Theorem subscribe_unsubscribe_round_trip v a id req es rid rest :
  v (hd ""%string (Params req)) = None →
  (2 ≤ length (Params req))%nat →
  let es1 := (HandleStart v a id req es).1 in
  let l := fresh (dom (objects es) : gset loc) in
  let bye := {| Method := "ptx_unsubscribe"; reqID := rid; Params := id :: rest |} in
  let r2 := HandleLifecycle bye es1 in
  r2.2 = Some (RPCResult rid true) ∧
  receiptSubs r2.1 = delete id (receiptSubs es) ∧
  (∃ sub, objects r2.1 !! l = Some sub ∧ ctrlID sub = id ∧
          closed sub = true ∧ ctrlClosed sub = true ∧
          rrcClosed sub = (a (nth 1 (Params req) ""%string)).1) ∧
  (∀ l', l' ≠ l → objects r2.1 !! l' = objects es !! l') ∧
  HandleLifecycle bye r2.1 = (r2.1, Some (RPCResult rid false)).
Proof.
  intros Hv Hlen es1 l bye r2.
  pose proof (fresh_unused es) as Hfresh. fold l in Hfresh.
  pose proof (HandleStart_accepted v a id req es Hv Hlen) as Hstart.
  cbn zeta in Hstart. fold l in Hstart.
  assert (Hsubs : receiptSubs es1 = <[id := l]> (receiptSubs es))
    by (subst es1; by rewrite Hstart).
  assert (Hobjs : objects es1 =
    <[l := {| ctrlID := id; ctrlClosed := false; ctrlSent := [];
              rrc := (a (nth 1 (Params req) ""%string)).1; rrcClosed := false;
              acksNacks := []; closed := false |}]> (objects es))
    by (subst es1; by rewrite Hstart).
  assert (Hr2 : r2 =
    (cleanupSubscription id (ctrl_Closed l es1), Some (RPCResult rid true))).
  { subst r2. unfold HandleLifecycle, getSubscription. cbn.
    by rewrite Hsubs, lookup_insert_eq. }
  assert (Hc : cleanupSubscription id (ctrl_Closed l es1) =
               cleanupLocked l (ctrl_Closed l es1)).
  { unfold cleanupSubscription. cbn. by rewrite Hsubs, lookup_insert_eq. }
  rewrite Hc in Hr2.
  erewrite cleanupLocked_Some in Hr2;
    [|cbn; rewrite Hobjs, lookup_alter_eq, lookup_insert_eq; reflexivity].
  rewrite Hr2. cbn. split; [done|]. split; [|split; [|split]].
  - by rewrite Hsubs, delete_insert_eq.
  - eexists. rewrite lookup_insert_eq. split; [done|]. cbn.
    repeat split. by destruct (a _).1.
  - intros l' Hne. rewrite lookup_insert_ne, lookup_alter_ne, Hobjs by done.
    by rewrite lookup_insert_ne.
  - unfold HandleLifecycle, getSubscription. cbn.
    by rewrite Hsubs, delete_insert_eq, lookup_delete_eq.
Qed.

(** X5: the requests of the life cycle.  Without a parameter the answer
    is the missing-id error whatever the method.  With one, the
    unknown-method error is the answer exactly for the methods outside
    [LifecycleMethods], and there is no answer at all exactly for
    [ptx_ack] and [ptx_nack]; an unknown method, or an id that is not
    registered, changes nothing, and [ptx_unsubscribe] for such an id
    answers [false]. *)
Theorem HandleLifecycle_routing req es :
  let res := HandleLifecycle req es in
  (Params req = [] →
     res = (es, Some (RPCErrorResponse MsgTxMgrSubIDRequired (reqID req)))) ∧
  (Params req ≠ [] →
     (res.2 = Some (RPCErrorResponse (MsgTxMgrLifecycleMethodUnknown (Method req))
                      (reqID req)) ↔
        Method req ∉ LifecycleMethods) ∧
     (res.2 = None ↔
        Method req = "ptx_ack"%string ∨ Method req = "ptx_nack"%string) ∧
     (Method req ∉ LifecycleMethods → res.1 = es) ∧
     (getSubscription (hd ""%string (Params req)) es = None →
        res.1 = es ∧
        (Method req = "ptx_unsubscribe"%string →
           res.2 = Some (RPCResult (reqID req) false)))).
Proof.
  intros res. subst res. unfold HandleLifecycle, LifecycleMethods.
  split.
  { intros ->. done. }
  intros Hne. rewrite decide_False by (destruct (Params req); [done|cbn; lia]).
  rewrite !elem_of_cons, elem_of_nil.
  destruct (decide (Method req = "ptx_ack"%string ∨ Method req = "ptx_nack"%string))
    as [Hack|Hnack].
  { assert (Method req ≠ "ptx_unsubscribe"%string) by (destruct Hack as [-> | ->]; done).
    destruct (getSubscription _ es); cbn; (split; [split; [done|tauto]|]);
      (split; [done|]); (split; [tauto|]); try done. }
  destruct (decide (Method req = "ptx_unsubscribe"%string)) as [Hun|Hnun].
  { destruct (getSubscription _ es); cbn; (split; [split; [done|tauto]|]);
      (split; [split; [done|tauto]|]); (split; [tauto|]); done. }
  cbn. split; [split; [tauto|done]|]. split; [split; [done|tauto]|].
  split; [done|]. intros _. split; [done|]. done.
Qed.

Lemma offer_registered m rid id rest es l :
  receiptSubs es !! id = Some l →
  m = "ptx_ack"%string ∨ m = "ptx_nack"%string →
  HandleLifecycle {| Method := m; reqID := rid; Params := id :: rest |} es =
    (offerAckNack l {| ack := bool_decide (m = "ptx_ack"%string) |} es, None).
Proof.
  intros Hl Hm. unfold HandleLifecycle, getSubscription.
  cbn [Params Method reqID hd].
  rewrite decide_False by (cbn; lia). rewrite decide_True by done. by rewrite Hl.
Qed.

Lemma unsubscribe_registered rid id rest es l :
  receiptSubs es !! id = Some l →
  HandleLifecycle {| Method := "ptx_unsubscribe"; reqID := rid; Params := id :: rest |} es =
    (cleanupSubscription id (ctrl_Closed l es), Some (RPCResult rid true)).
Proof.
  intros Hl. unfold HandleLifecycle, getSubscription.
  cbn [Params Method reqID hd].
  rewrite decide_False by (cbn; lia).
  rewrite decide_False by (by intros [?|?]).
  rewrite decide_True by done. by rewrite Hl.
Qed.

(** ** Deliveries that wait *)

Lemma firstWaiting_None l ws :
  firstWaiting l ws = None ↔ ∀ w, w ∈ ws → w.1 ≠ l.
Proof.
  induction ws as [|w ws IH]; cbn.
  { split; [|done]. by intros _ w ?%elem_of_nil. }
  case_decide as Hw.
  - split; [done|]. intros Hall. exfalso. apply (Hall w); [apply elem_of_cons; by left|done].
  - destruct (firstWaiting l ws) as [[b rest]|]; cbn.
    + split; [done|]. intros Hall.
      assert (Hn : Some (b, rest) = @None (Z * list (loc * Z))); [|done].
      apply IH. intros w' Hw'. apply Hall, elem_of_cons. by right.
    + split; [|done]. intros _ w' [-> |Hw']%elem_of_cons; [done|].
      by apply (proj1 IH).
Qed.

Lemma firstWaiting_Some l ws b rest :
  firstWaiting l ws = Some (b, rest) →
  (l, b) ∈ ws ∧ ∀ w, w ∈ rest → w ∈ ws.
Proof.
  revert b rest. induction ws as [|w ws IH]; intros b rest; cbn; [done|].
  case_decide as Hw.
  - intros [= <- <-]. split.
    + apply elem_of_cons. left. destruct w; cbn in *. by subst.
    + intros w' Hw'. apply elem_of_cons. by right.
  - destruct (firstWaiting l ws) as [[b' rest']|]; cbn; [|done].
    intros [= <- <-]. destruct (IH _ _ eq_refl) as [Hin Hsub]. split.
    + apply elem_of_cons. by right.
    + intros w' [-> |Hw']%elem_of_cons; apply elem_of_cons; [by left|right; by apply Hsub].
Qed.

Lemma wake_open es ws fs :
  (∀ w, w ∈ ws → ∃ sub, objects es !! w.1 = Some sub ∧ closed sub = false) →
  wake {| streams := es; waiting := ws; finished := fs |} =
    {| streams := es; waiting := ws; finished := fs |}.
Proof.
  intros Hopen. unfold wake. cbn. f_equal.
  - induction ws as [|w ws IH]; [done|].
    destruct (Hopen w) as (sub & Hs & Hcl); [apply elem_of_cons; by left|].
    rewrite filter_cons_True by (unfold isClosed; by rewrite Hs; cbn).
    f_equal. apply IH. intros w' Hw'. apply Hopen, elem_of_cons. by right.
  - rewrite <-(app_nil_r fs) at 2. f_equal.
    induction ws as [|w ws IH]; [done|].
    destruct (Hopen w) as (sub & Hs & Hcl); [apply elem_of_cons; by left|].
    cbn. rewrite Hs. cbn. rewrite Hcl. apply IH.
    intros w' Hw'. apply Hopen, elem_of_cons. by right.
Qed.

Lemma wake_settled x : settled x → wake x = x.
Proof.
  intros Hx. destruct x as [es ws fs]. apply wake_open.
  intros [l b] Hw. destruct (Hx l b Hw) as (sub & ? & ? & _). by exists sub.
Qed.

Lemma settled_wake x :
  (∀ w, w ∈ waiting x →
     ∃ sub, objects (streams x) !! w.1 = Some sub ∧ acksNacks sub = []) →
  settled (wake x).
Proof.
  intros Hq l b Hw. cbn in *.
  apply list_elem_of_filter in Hw as [Hopen Hw].
  destruct (Hq _ Hw) as (sub & Hs & Hch). cbn in *.
  exists sub. split; [done|]. split; [|done].
  unfold isClosed in Hopen. by rewrite Hs in Hopen.
Qed.

Lemma keeps_refl es : keeps es es.
Proof. intros l sub Hl. by exists sub. Qed.

Lemma keeps_trans es1 es2 es3 : keeps es1 es2 → keeps es2 es3 → keeps es1 es3.
Proof.
  intros H12 H23 l sub Hl.
  destruct (H12 _ _ Hl) as (sub2 & Hl2 & Hb2).
  destruct (H23 _ _ Hl2) as (sub3 & Hl3 & Hb3).
  exists sub3. split; [done|congruence].
Qed.

Lemma keeps_alter f l es :
  (∀ sub, acksNacks (f sub) = acksNacks sub) →
  keeps es {| objects := alter f l (objects es); receiptSubs := receiptSubs es |}.
Proof.
  intros Hf l' sub Hl'. cbn. destruct (decide (l' = l)) as [-> |Hne].
  - exists (f sub). by rewrite lookup_alter_eq, Hl'.
  - exists sub. by rewrite lookup_alter_ne.
Qed.

Lemma keeps_cleanupLocked l es : keeps es (cleanupLocked l es).
Proof.
  destruct (objects es !! l) as [sub|] eqn:Hl.
  2:{ unfold cleanupLocked. rewrite Hl. apply keeps_refl. }
  rewrite (cleanupLocked_Some _ _ _ Hl). intros l' sub' Hl'. cbn.
  destruct (decide (l' = l)) as [-> |Hne].
  - exists (shut sub). rewrite lookup_insert_eq. split; [done|]. cbn. congruence.
  - exists sub'. by rewrite lookup_insert_ne.
Qed.

Lemma keeps_cleanupSubscription id es : keeps es (cleanupSubscription id es).
Proof.
  unfold cleanupSubscription. destruct (receiptSubs es !! id);
    [apply keeps_cleanupLocked|apply keeps_refl].
Qed.

Lemma keeps_stop es : keeps es (stop es).
Proof.
  unfold stop.
  apply (map_fold_weak_ind (λ acc (_ : gmap string loc), keeps es acc)).
  - apply keeps_refl.
  - intros k l m acc _ IH. eapply keeps_trans; [exact IH|apply keeps_cleanupLocked].
Qed.

Lemma keeps_HandleStart v a id req es : keeps es (HandleStart v a id req es).1.
Proof.
  unfold HandleStart.
  destruct (v _); [apply keeps_refl|].
  case_decide; [apply keeps_refl|].
  assert (Hk : ∀ sub0 subs,
    keeps es {| objects := <[fresh (dom (objects es) : gset loc) := sub0]> (objects es);
                receiptSubs := subs |}).
  { intros sub0 subs l sub Hl. cbn. exists sub. split; [|done].
    rewrite lookup_insert_ne; [done|]. intros <-. by rewrite fresh_unused in Hl. }
  destruct (a _) as [closer [e|]]; apply Hk.
Qed.

(** A request of the life cycle leaves every buffer as it is but the one
    of the subscription an ack or a nack is for. *)
Lemma HandleLifecycle_keeps req es l sub :
  objects es !! l = Some sub →
  ((1 ≤ length (Params req))%nat ∧
   (Method req = "ptx_ack"%string ∨ Method req = "ptx_nack"%string) ∧
   getSubscription (hd ""%string (Params req)) es = Some l) ∨
  ∃ sub', objects (HandleLifecycle req es).1 !! l = Some sub' ∧
          acksNacks sub' = acksNacks sub.
Proof.
  intros Hl. unfold HandleLifecycle.
  case_decide as Hlen; [right; by exists sub|].
  case_decide as Hack.
  - destruct (getSubscription _ es) as [l0|] eqn:Hg; [|right; by exists sub].
    destruct (decide (l0 = l)) as [-> |Hne]; [left; split; [lia|done]|].
    right. exists sub. cbn. by rewrite lookup_alter_ne.
  - right. case_decide; [|by exists sub].
    destruct (getSubscription _ es) as [l0|]; [|by exists sub]. cbn [fst].
    eapply (keeps_trans es); [|apply keeps_cleanupSubscription|exact Hl].
    by apply keeps_alter.
Qed.

Lemma keeps_perform es c :
  match c with
  | CallLifecycle _ | CallDeliver _ _ _ _ => True
  | _ => keeps es (perform es c)
  end.
Proof.
  destruct c as [v a id req|req|l|pick l b r|]; cbn; try done.
  - apply keeps_HandleStart.
  - unfold ConnectionClosed. destruct (objects es !! l);
      [apply keeps_cleanupSubscription|apply keeps_refl].
  - apply keeps_stop.
Qed.

Lemma settled_plain x c :
  settled x →
  (∀ w, w ∈ waiting x → ∀ sub, objects (streams x) !! w.1 = Some sub →
     ∃ sub', objects (perform (streams x) c) !! w.1 = Some sub' ∧
             acksNacks sub' = acksNacks sub) →
  settled (plain x c).
Proof.
  intros Hx Hk. apply settled_wake. cbn. intros [l b] Hw.
  destruct (Hx l b Hw) as (sub & Hs & _ & Hch).
  destruct (Hk _ Hw _ Hs) as (sub' & Hs' & Hb). exists sub'. split; [done|congruence].
Qed.

Lemma settled_act x c : settled x → settled (act x c).
Proof.
  intros Hx. destruct c as [v a id req|req|l0|pick l0 b0 r|].
  - apply settled_plain; [done|]. intros w _ sub Hs. by apply keeps_HandleStart.
  - cbn. destruct (handedOver req x) as [x'|] eqn:Hh; cbn.
    + unfold handedOver in Hh. case_decide; [|done].
      destruct (getSubscription _ _) as [l|]; [|done]. cbn in Hh.
      destruct (firstWaiting l (waiting x)) as [[b rest]|] eqn:Hf; [|done].
      injection Hh as <-. apply firstWaiting_Some in Hf as [Hin Hsub].
      destruct (Hx l b Hin) as (sub & Hs & _). unfold handOver. rewrite Hs.
      intros l' b' Hw. cbn in *. apply (Hx l' b'). by apply Hsub.
    + apply settled_plain; [done|]. intros w Hw sub Hs. cbn.
      destruct (HandleLifecycle_keeps req (streams x) w.1 sub Hs)
        as [(Hlen & Hm & Hg)|Hk]; [|done].
      exfalso. unfold handedOver in Hh. rewrite decide_True in Hh by done.
      rewrite Hg in Hh. cbn in Hh.
      destruct (firstWaiting w.1 (waiting x)) as [[b rest]|] eqn:Hf; [done|].
      by apply (proj1 (firstWaiting_None _ _) Hf w).
  - apply settled_plain; [done|]. intros w _ sub Hs.
    by apply (keeps_perform (streams x) (CallConnectionClosed l0)).
  - cbn. unfold deliverAt.
    destruct (objects (streams x) !! l0) as [sub|] eqn:Hs; [|done]. cbn.
    destruct (DeliverReceiptBatch_cases pick b0 r sub) as (_ & Hcl & Hblocked & _).
    assert (Hbuf : (DeliverReceiptBatch pick b0 r sub).2 = Blocked →
                   acksNacks (DeliverReceiptBatch pick b0 r sub).1 = []).
    { intros Hb. apply Hblocked in Hb as [Hch Hop]. unfold DeliverReceiptBatch.
      change (acksNacks (afterSend b0 r sub)) with (acksNacks sub).
      change (closed (afterSend b0 r sub)) with (closed sub).
      by rewrite Hch, Hop. }
    destruct (DeliverReceiptBatch pick b0 r sub) as [sub' d]. cbn in *.
    destruct d as [|e].
    + destruct (proj1 Hblocked eq_refl) as [Hch Hop].
      intros l b Hw. cbn in *.
      destruct (decide (l = l0)) as [-> |Hne].
      * exists sub'. rewrite lookup_insert_eq. split; [done|]. split; [congruence|by apply Hbuf].
      * rewrite lookup_insert_ne by done. apply (Hx l b).
        apply elem_of_app in Hw as [Hw|Hw]; [done|].
        apply list_elem_of_singleton in Hw. congruence.
    + intros l b Hw. cbn in *.
      destruct (Hx l b Hw) as (sub1 & Hs1 & Hop1 & Hch1).
      destruct (decide (l = l0)) as [-> |Hne].
      * rewrite Hs in Hs1. injection Hs1 as <-.
        assert (Returned e = Blocked) by (by apply Hblocked). done.
      * exists sub1. by rewrite lookup_insert_ne.
  - apply settled_plain; [done|]. intros w _ sub Hs. by apply keeps_stop.
Qed.

Lemma settled_run calls : ∀ x, settled x → settled (foldl act x calls).
Proof.
  induction calls as [|c calls IH]; intros x Hx; [done|].
  cbn. by apply IH, settled_act.
Qed.

Lemma offered_open l v es l' sub :
  objects es !! l' = Some sub → closed sub = false →
  ∃ sub', objects (offerAckNack l v es) !! l' = Some sub' ∧ closed sub' = false.
Proof.
  intros Hs Hop. cbn. destruct (decide (l' = l)) as [-> |Hne].
  - rewrite lookup_alter_eq, Hs. by eexists.
  - rewrite lookup_alter_ne by done. by exists sub.
Qed.

(** An ack or a nack for a subscription nobody waits on is offered to its
    buffer. *)
Lemma act_buffers x id l m rid rest :
  settled x →
  receiptSubs (streams x) !! id = Some l →
  m = "ptx_ack"%string ∨ m = "ptx_nack"%string →
  firstWaiting l (waiting x) = None →
  act x (CallLifecycle {| Method := m; reqID := rid; Params := id :: rest |}) =
    {| streams := offerAckNack l {| ack := bool_decide (m = "ptx_ack"%string) |} (streams x);
       waiting := waiting x; finished := finished x |}.
Proof.
  intros Hx Hl Hm Hnone. cbn [act]. unfold handedOver.
  cbn [Params Method hd length]. rewrite decide_True by (split; [lia|done]).
  unfold getSubscription. rewrite Hl. cbn. rewrite Hnone. cbn.
  unfold plain. cbn [perform].
  rewrite (offer_registered m rid id rest (streams x) l Hl Hm). cbn [fst].
  apply wake_open. intros [l' b'] Hw.
  destruct (Hx l' b' Hw) as (sub & Hs & Hop & _).
  by apply (offered_open _ _ _ _ sub).
Qed.

(** An ack or a nack for a subscription somebody waits on goes to the
    oldest call that waits. *)
Lemma act_hands_over x id l sub m rid rest b ws :
  receiptSubs (streams x) !! id = Some l →
  objects (streams x) !! l = Some sub →
  m = "ptx_ack"%string ∨ m = "ptx_nack"%string →
  firstWaiting l (waiting x) = Some (b, ws) →
  act x (CallLifecycle {| Method := m; reqID := rid; Params := id :: rest |}) =
    {| streams := streams x; waiting := ws;
       finished := finished x ++
         [(l, b, if decide (m = "ptx_ack"%string) then None
                 else Some (MsgTxMgrJSONRPCSubscriptionNack (ctrlID sub)))] |}.
Proof.
  intros Hl Hs Hm Hsome. cbn [act]. unfold handedOver.
  cbn [Params Method hd length]. rewrite decide_True by (split; [lia|done]).
  unfold getSubscription. rewrite Hl. cbn. rewrite Hsome. cbn.
  unfold handOver. rewrite Hs. f_equal. f_equal. f_equal. f_equal.
  unfold received. cbn [ack]. destruct Hm as [-> | ->]; done.
Qed.

(** A delivery that finds an ack or a nack in the buffer of an open
    subscription returns with it. *)
Lemma act_delivers x l sub v pick b r :
  objects (streams x) !! l = Some sub →
  acksNacks sub = [v] → closed sub = false →
  ∃ es' sub',
    act x (CallDeliver pick l b r) =
      {| streams := es'; waiting := waiting x;
         finished := finished x ++
           [(l, b, if ack v then None
                   else Some (MsgTxMgrJSONRPCSubscriptionNack (ctrlID sub)))] |} ∧
    receiptSubs es' = receiptSubs (streams x) ∧
    objects es' !! l = Some sub' ∧ acksNacks sub' = [] ∧ closed sub' = false ∧
    ctrlID sub' = ctrlID sub.
Proof.
  intros Hs Hch Hop. cbn [act]. unfold deliverAt. rewrite Hs. cbn.
  unfold DeliverReceiptBatch.
  change (acksNacks (afterSend b r sub)) with (acksNacks sub).
  change (closed (afterSend b r sub)) with (closed sub).
  rewrite Hch, Hop. cbn [Chan.recv]. unfold received.
  destruct (ack v); cbn; eexists _, _; (split; [reflexivity|]); cbn;
    rewrite lookup_insert_eq; by repeat split.
Qed.

(** A delivery that finds the buffer of an open subscription empty
    waits. *)
Lemma act_waits x l sub pick b r :
  objects (streams x) !! l = Some sub →
  acksNacks sub = [] → closed sub = false →
  ∃ es',
    act x (CallDeliver pick l b r) =
      {| streams := es'; waiting := waiting x ++ [(l, b)]; finished := finished x |}.
Proof.
  intros Hs Hch Hop. cbn [act]. unfold deliverAt. rewrite Hs. cbn.
  unfold DeliverReceiptBatch.
  change (acksNacks (afterSend b r sub)) with (acksNacks sub).
  change (closed (afterSend b r sub)) with (closed sub).
  rewrite Hch, Hop. cbn. by eexists.
Qed.

Lemma offer_full l v es sub a :
  objects es !! l = Some sub → acksNacks sub = [a] → offerAckNack l v es = es.
Proof.
  intros Hs Hch. unfold offerAckNack. destruct es as [objs subs]. cbn in *. f_equal.
  apply map_eq. intros l'. destruct (decide (l' = l)) as [-> |Hne].
  - rewrite lookup_alter_eq, Hs. cbn. rewrite Hch. cbn. f_equal.
    destruct sub; cbn in *. by subst.
  - by rewrite lookup_alter_ne.
Qed.

Lemma offer_empty l v es sub :
  objects es !! l = Some sub → acksNacks sub = [] →
  ∃ sub', objects (offerAckNack l v es) !! l = Some sub' ∧
          acksNacks sub' = [v] ∧ closed sub' = closed sub ∧ ctrlID sub' = ctrlID sub.
Proof.
  intros Hs Hch. cbn. rewrite lookup_alter_eq, Hs. cbn. rewrite Hch.
  eexists. split; [done|]. done.
Qed.

(** Two requests in a row, by the oldest call [firstWaiting] finds. *)
Lemma acks_in_order :
  (∀ x c, settled x → settled (act x c)) ∧
  (∀ calls, settled (foldl act newExchange calls)) ∧
  (∀ x id l sub m1 m2 rid1 rid2 rest1 rest2,
     settled x →
     receiptSubs (streams x) !! id = Some l →
     objects (streams x) !! l = Some sub →
     acksNacks sub = [] → closed sub = false →
     m1 = "ptx_ack"%string ∨ m1 = "ptx_nack"%string →
     m2 = "ptx_ack"%string ∨ m2 = "ptx_nack"%string →
     let says (m : string) :=
       if decide (m = "ptx_ack"%string) then None
       else Some (MsgTxMgrJSONRPCSubscriptionNack (ctrlID sub)) in
     let x1 := act x (CallLifecycle
                        {| Method := m1; reqID := rid1; Params := id :: rest1 |}) in
     let x2 := act x1 (CallLifecycle
                         {| Method := m2; reqID := rid2; Params := id :: rest2 |}) in
     (firstWaiting l (waiting x) = None →
        x2 = x1 ∧ waiting x1 = waiting x ∧ finished x1 = finished x ∧
        ∀ pick b r,
          let x3 := act x2 (CallDeliver pick l b r) in
          waiting x3 = waiting x ∧
          finished x3 = finished x ++ [(l, b, says m1)] ∧
          ∀ pick' b' r',
            let x4 := act x3 (CallDeliver pick' l b' r') in
            waiting x4 = waiting x ++ [(l, b')] ∧ finished x4 = finished x3) ∧
     (∀ b ws, firstWaiting l (waiting x) = Some (b, ws) →
        streams x1 = streams x ∧ waiting x1 = ws ∧
        finished x1 = finished x ++ [(l, b, says m1)] ∧
        (∀ b2 ws2, firstWaiting l ws = Some (b2, ws2) →
           streams x2 = streams x ∧ waiting x2 = ws2 ∧
           finished x2 = finished x1 ++ [(l, b2, says m2)]) ∧
        (firstWaiting l ws = None →
           waiting x2 = ws ∧ finished x2 = finished x1 ∧
           ∀ pick b' r,
             let x3 := act x2 (CallDeliver pick l b' r) in
             waiting x3 = ws ∧
             finished x3 = finished x1 ++ [(l, b', says m2)]))).
Proof.
  split; [apply settled_act|].
  split; [intros calls; apply settled_run; by intros l b ?%elem_of_nil|].
  intros x id l sub m1 m2 rid1 rid2 rest1 rest2 Hx Hl Hs Hch Hop Hm1 Hm2 says x1 x2.
  assert (Hsays : ∀ m, m = "ptx_ack"%string ∨ m = "ptx_nack"%string →
            (if bool_decide (m = "ptx_ack"%string) then None
             else Some (MsgTxMgrJSONRPCSubscriptionNack (ctrlID sub))) = says m).
  { intros m [-> | ->]; done. }
  split.
  - intros Hnone.
    assert (H1 : x1 = {| streams := offerAckNack l
                           {| ack := bool_decide (m1 = "ptx_ack"%string) |} (streams x);
                         waiting := waiting x; finished := finished x |})
      by (by apply act_buffers).
    destruct (offer_empty l {| ack := bool_decide (m1 = "ptx_ack"%string) |}
                (streams x) sub Hs Hch) as (sub1 & Hs1 & Hch1 & Hop1 & Hid1).
    assert (Hx1 : settled x1) by (by apply settled_act).
    assert (H2 : x2 = x1).
    { subst x2. rewrite (act_buffers x1 id l m2 rid2 rest2); [| |by rewrite H1|done|by rewrite H1]; [|done].
      rewrite H1. cbn. f_equal. by eapply offer_full. }
    split; [done|]. split; [by rewrite H1|]. split; [by rewrite H1|].
    intros pick b r x3.
    destruct (act_delivers x2 l sub1 {| ack := bool_decide (m1 = "ptx_ack"%string) |}
                pick b r) as (es3 & sub3 & H3 & Hsubs3 & Hs3 & Hch3 & Hop3 & Hid3);
      [by rewrite H2, H1|done|congruence|].
    fold x3 in H3. cbn [ack] in H3. rewrite Hid1, (Hsays m1 Hm1) in H3.
    rewrite H2, H1 in H3. cbn [waiting finished] in H3.
    clearbody x3. subst x3. cbn [waiting finished].
    split; [done|]. split; [done|].
    intros pick' b' r'.
    destruct (act_waits {| streams := es3; waiting := waiting x;
                           finished := finished x ++ [(l, b, says m1)] |}
                l sub3 pick' b' r') as (es4 & H4);
      [done|done|done|].
    by rewrite H4.
  - intros b ws Hsome.
    assert (H1 : x1 = {| streams := streams x; waiting := ws;
                         finished := finished x ++ [(l, b, says m1)] |})
      by (by apply (act_hands_over x id l sub)).
    assert (Hx1 : settled x1) by (by apply settled_act).
    split; [by rewrite H1|]. split; [by rewrite H1|]. split; [by rewrite H1|].
    split.
    + intros b2 ws2 Hsome2.
      assert (H2 : x2 = {| streams := streams x1; waiting := ws2;
                           finished := finished x1 ++ [(l, b2, says m2)] |}).
      { apply (act_hands_over x1 id l sub); rewrite ?H1; done. }
      rewrite H2. by rewrite H1.
    + intros Hnone2.
      assert (H2 : x2 = {| streams := offerAckNack l
                             {| ack := bool_decide (m2 = "ptx_ack"%string) |} (streams x1);
                           waiting := waiting x1; finished := finished x1 |}).
      { apply act_buffers; [exact Hx1|by rewrite H1|done|by rewrite H1]. }
      split; [by rewrite H2, H1|]. split; [by rewrite H2|].
      intros pick b' r x3.
      destruct (offer_empty l {| ack := bool_decide (m2 = "ptx_ack"%string) |}
                  (streams x1) sub) as (sub2 & Hs2 & Hch2 & Hop2 & Hid2);
        [by rewrite H1|done|].
      destruct (act_delivers x2 l sub2 {| ack := bool_decide (m2 = "ptx_ack"%string) |}
                  pick b' r)
        as (es3 & sub3 & H3 & _); [by rewrite H2|done|congruence|].
      fold x3 in H3. cbn [ack] in H3. rewrite Hid2, (Hsays m2 Hm2) in H3.
      rewrite H2, H1 in H3. cbn [waiting finished] in H3.
      clearbody x3. subst x3. by rewrite H1.
Qed.

Lemma firstWaiting_split l pre b post :
  (∀ w, w ∈ pre → w.1 ≠ l) →
  firstWaiting l (pre ++ (l, b) :: post) = Some (b, pre ++ post).
Proof.
  induction pre as [|w pre IH]; intros Hpre; cbn.
  { by rewrite decide_True. }
  rewrite decide_False by (apply Hpre, elem_of_cons; by left).
  rewrite IH; [done|]. intros w' Hw'. apply Hpre, elem_of_cons. by right.
Qed.

(** X6: acks and nacks are served in the order they come, to whichever
    delivery waits or comes next, and are tied to no batch.  A call of
    [DeliverReceiptBatch] waits only on an open subscription with an empty
    buffer, whatever the calls before.  For an open registered
    subscription with an empty buffer and two [ptx_ack] or [ptx_nack]
    requests in a row: when no delivery waits on it, the first request is
    buffered and the second dropped, the next delivery, whatever its
    batch, returns at once what the first request says, and the delivery
    after it waits; when a delivery waits on it, that delivery returns
    what the first request says, and the second request goes to the next
    delivery that waits, or, when there is none, to the buffer, from which
    the next delivery, whatever its batch, returns at once what the second
    request says. *)
Theorem acks_serve_deliveries_in_order :
  (∀ x c, settled x → settled (act x c)) ∧
  (∀ calls, settled (foldl act newExchange calls)) ∧
  (∀ x id l sub m1 m2 rid1 rid2 rest1 rest2,
     settled x →
     receiptSubs (streams x) !! id = Some l →
     objects (streams x) !! l = Some sub →
     acksNacks sub = [] → closed sub = false →
     m1 = "ptx_ack"%string ∨ m1 = "ptx_nack"%string →
     m2 = "ptx_ack"%string ∨ m2 = "ptx_nack"%string →
     let says (m : string) :=
       if decide (m = "ptx_ack"%string) then None
       else Some (MsgTxMgrJSONRPCSubscriptionNack (ctrlID sub)) in
     let x1 := act x (CallLifecycle
                        {| Method := m1; reqID := rid1; Params := id :: rest1 |}) in
     let x2 := act x1 (CallLifecycle
                         {| Method := m2; reqID := rid2; Params := id :: rest2 |}) in
     ((∀ w, w ∈ waiting x → w.1 ≠ l) →
        x2 = x1 ∧ waiting x1 = waiting x ∧ finished x1 = finished x ∧
        (∃ sub1, objects (streams x1) !! l = Some sub1 ∧
                 acksNacks sub1 = [{| ack := bool_decide (m1 = "ptx_ack"%string) |}]) ∧
        ∀ pick b r,
          let x3 := act x2 (CallDeliver pick l b r) in
          waiting x3 = waiting x ∧
          finished x3 = finished x ++ [(l, b, says m1)] ∧
          ∀ pick' b' r',
            let x4 := act x3 (CallDeliver pick' l b' r') in
            waiting x4 = waiting x ++ [(l, b')] ∧ finished x4 = finished x3) ∧
     (∀ pre b post,
        waiting x = pre ++ (l, b) :: post → (∀ w, w ∈ pre → w.1 ≠ l) →
        streams x1 = streams x ∧ waiting x1 = pre ++ post ∧
        finished x1 = finished x ++ [(l, b, says m1)] ∧
        (∀ pre2 b2 post2,
           pre ++ post = pre2 ++ (l, b2) :: post2 → (∀ w, w ∈ pre2 → w.1 ≠ l) →
           streams x2 = streams x ∧ waiting x2 = pre2 ++ post2 ∧
           finished x2 = finished x1 ++ [(l, b2, says m2)]) ∧
        ((∀ w, w ∈ pre ++ post → w.1 ≠ l) →
           waiting x2 = pre ++ post ∧ finished x2 = finished x1 ∧
           (∃ sub2, objects (streams x2) !! l = Some sub2 ∧
                    acksNacks sub2 = [{| ack := bool_decide (m2 = "ptx_ack"%string) |}]) ∧
           ∀ pick b' r,
             let x3 := act x2 (CallDeliver pick l b' r) in
             waiting x3 = pre ++ post ∧
             finished x3 = finished x1 ++ [(l, b', says m2)]))).
Proof.
  destruct acks_in_order as (Hstep & Hrun & Horder).
  split; [exact Hstep|]. split; [exact Hrun|].
  intros x id l sub m1 m2 rid1 rid2 rest1 rest2 Hx Hl Hs Hch Hop Hm1 Hm2 says x1 x2.
  destruct (Horder x id l sub m1 m2 rid1 rid2 rest1 rest2 Hx Hl Hs Hch Hop Hm1 Hm2)
    as [Hnobody Hsomebody].
  fold says x1 x2 in Hnobody, Hsomebody.
  split.
  - intros Hnone. apply firstWaiting_None in Hnone as Hfw.
    destruct (Hnobody Hfw) as (H21 & Hw1 & Hf1 & Hnext).
    split; [done|]. split; [done|]. split; [done|]. split; [|done].
    assert (H1 : x1 = {| streams := offerAckNack l
                           {| ack := bool_decide (m1 = "ptx_ack"%string) |} (streams x);
                         waiting := waiting x; finished := finished x |})
      by (by apply act_buffers).
    rewrite H1. cbn [streams].
    destruct (offer_empty l {| ack := bool_decide (m1 = "ptx_ack"%string) |}
                (streams x) sub Hs Hch) as (sub1 & Hs1 & Hch1 & _).
    by exists sub1.
  - intros pre b post Hw Hpre.
    assert (Hfw : firstWaiting l (waiting x) = Some (b, pre ++ post))
      by (rewrite Hw; by apply firstWaiting_split).
    destruct (Hsomebody b (pre ++ post) Hfw) as (Hs1 & Hw1 & Hf1 & Hsecond & Hbuffer).
    split; [done|]. split; [done|]. split; [done|]. split.
    + intros pre2 b2 post2 Hw2 Hpre2. apply Hsecond.
      rewrite Hw2. by apply firstWaiting_split.
    + intros Hnone. apply firstWaiting_None in Hnone as Hfw2.
      destruct (Hbuffer Hfw2) as (Hw2 & Hf2 & Hnext).
      split; [done|]. split; [done|]. split; [|done].
      assert (Hx1 : settled x1) by (by apply Hstep).
      assert (H2 : x2 = {| streams := offerAckNack l
                             {| ack := bool_decide (m2 = "ptx_ack"%string) |} (streams x1);
                           waiting := waiting x1; finished := finished x1 |}).
      { apply act_buffers; [exact Hx1|by rewrite Hs1|done|by rewrite Hw1]. }
      rewrite H2. cbn [streams].
      destruct (offer_empty l {| ack := bool_decide (m2 = "ptx_ack"%string) |}
                  (streams x1) sub) as (sub2 & Hs2 & Hch2 & _);
        [by rewrite Hs1|done|].
      by exists sub2.
Qed.

(** X7: after [ptx_unsubscribe], [ConnectionClosed] or [stop] a
    subscription is no longer registered, a delivery on it never blocks
    (it returns the closed error when no ack or nack waits), and a
    [ptx_ack] or [ptx_nack] for its id changes nothing. *)
Theorem closed_subscription_never_blocks es id l sub :
  receiptSubs es !! id = Some l →
  objects es !! l = Some sub →
  ctrlID sub = id →
  ∀ es',
    (∃ rid rest,
       es' = (HandleLifecycle
                {| Method := "ptx_unsubscribe"; reqID := rid; Params := id :: rest |} es).1) ∨
    es' = ConnectionClosed l es ∨
    (registered es ∧ es' = stop es) →
    receiptSubs es' !! id = None ∧
    (∀ pick batchID receipts, ∃ es'' d,
       deliverAt pick l batchID receipts es' = Some (es'', d) ∧ d ≠ Blocked ∧
       (acksNacks sub = [] →
          d = Returned (Some (MsgTxMgrJSONRPCSubscriptionClosed id)))) ∧
    (∀ m rid rest, m = "ptx_ack"%string ∨ m = "ptx_nack"%string →
       HandleLifecycle {| Method := m; reqID := rid; Params := id :: rest |} es' =
         (es', None)).
Proof.
  intros Hl Hs Hid es' Hhow.
  assert (Hafter : receiptSubs es' !! id = None ∧
            ∃ sub', objects es' !! l = Some sub' ∧ closed sub' = true ∧
                    acksNacks sub' = acksNacks sub ∧ ctrlID sub' = id).
  { destruct Hhow as [(rid & rest & ->)|[-> | [Hreg ->]]].
    - rewrite (unsubscribe_registered rid id rest es l Hl). cbn [fst].
      unfold cleanupSubscription. cbn [ctrl_Closed receiptSubs]. rewrite Hl.
      erewrite cleanupLocked_Some; [|cbn; rewrite lookup_alter_eq, Hs; reflexivity].
      cbn. rewrite Hid. split; [apply lookup_delete_eq|].
      eexists. rewrite lookup_insert_eq. split; [done|]. done.
    - unfold ConnectionClosed. rewrite Hs. unfold cleanupSubscription.
      rewrite Hid, Hl. rewrite (cleanupLocked_Some _ _ _ Hs). cbn. rewrite Hid.
      split; [apply lookup_delete_eq|].
      eexists. rewrite lookup_insert_eq. split; [done|]. done.
    - destruct (stop_spec es Hreg) as (Hempty & Hshut & _).
      rewrite Hempty, lookup_empty. split; [done|].
      rewrite (Hshut _ _ Hl), Hs. cbn. eexists. split; [done|]. done. }
  destruct Hafter as (Hgone & sub' & Hs' & Hcl' & Hch' & Hid').
  split; [done|]. split.
  - intros pick batchID receipts. unfold deliverAt. rewrite Hs'. cbn.
    destruct (DeliverReceiptBatch_cases pick batchID receipts sub')
      as (_ & _ & Hblocked & _ & _ & Hclosed).
    destruct (DeliverReceiptBatch pick batchID receipts sub') as [sub'' d]. cbn in *.
    eexists _, d. split; [done|]. split.
    + intros Hd. apply Hblocked in Hd as [_ Hopen]. congruence.
    + intros Hempty. rewrite <-Hid'. apply Hclosed. split; [done|].
      left. congruence.
  - intros m rid rest Hm. unfold HandleLifecycle, getSubscription.
    cbn [Params Method reqID hd].
    rewrite decide_False by (cbn; lia). rewrite decide_True by done. by rewrite Hgone.
Qed.

Lemma wake_closed es ws fs l sub :
  objects es !! l = Some sub → closed sub = true →
  let x' := wake {| streams := es; waiting := ws; finished := fs |} in
  (∀ b, (l, b) ∉ waiting x') ∧
  (∀ b, (l, b) ∈ ws →
     (l, b, Some (MsgTxMgrJSONRPCSubscriptionClosed (ctrlID sub))) ∈ finished x').
Proof.
  intros Hs Hcl x'. subst x'. cbn. split.
  - intros b [Hopen _]%list_elem_of_filter. cbn in Hopen.
    unfold isClosed in Hopen. rewrite Hs in Hopen. cbn in Hopen. congruence.
  - intros b Hw. apply elem_of_app. right. apply list_elem_of_omap.
    exists (l, b). split; [done|]. cbn. rewrite Hs. cbn. by rewrite Hcl.
Qed.

Lemma wake_keeps es ws fs :
  let x' := wake {| streams := es; waiting := ws; finished := fs |} in
  (∀ w, w ∈ waiting x' → w ∈ ws) ∧
  (∀ f, f ∈ fs → f ∈ finished x') ∧
  (∀ w sub, w ∈ ws → objects es !! w.1 = Some sub → closed sub = false →
     w ∈ waiting x').
Proof.
  cbn. split; [|split].
  - by intros w [_ ?]%list_elem_of_filter.
  - intros f Hf. apply elem_of_app. by left.
  - intros w sub Hw Hs Hop. apply list_elem_of_filter. split; [|done].
    unfold isClosed. by rewrite Hs.
Qed.

(** What closing the subscription registered under [id] leaves of it and
    of the others. *)
Lemma closing_closes es id l sub c :
  receiptSubs es !! id = Some l →
  objects es !! l = Some sub →
  ctrlID sub = id →
  (∃ rid rest, c = CallLifecycle {| Method := "ptx_unsubscribe"; reqID := rid;
                                    Params := id :: rest |}) ∨
  c = CallConnectionClosed l ∨
  (registered es ∧ c = CallStop) →
  (∃ sub', objects (perform es c) !! l = Some sub' ∧ closed sub' = true ∧
           ctrlID sub' = id) ∧
  (c ≠ CallStop → ∀ l', l' ≠ l → objects (perform es c) !! l' = objects es !! l').
Proof.
  intros Hl Hs Hid [(rid & rest & ->)|[-> | [Hreg ->]]]; cbn [perform].
  - rewrite (unsubscribe_registered rid id rest es l Hl). cbn [fst].
    unfold cleanupSubscription. cbn [ctrl_Closed receiptSubs]. rewrite Hl.
    erewrite cleanupLocked_Some; [|cbn; rewrite lookup_alter_eq, Hs; reflexivity].
    cbn. split.
    + eexists. rewrite lookup_insert_eq. by repeat split.
    + intros _ l' Hne. by rewrite lookup_insert_ne, lookup_alter_ne.
  - unfold ConnectionClosed. rewrite Hs. unfold cleanupSubscription.
    rewrite Hid, Hl. rewrite (cleanupLocked_Some _ _ _ Hs). cbn. split.
    + eexists. rewrite lookup_insert_eq. by repeat split.
    + intros _ l' Hne. by rewrite lookup_insert_ne.
  - destruct (stop_spec es Hreg) as (_ & Hshut & _). split; [|done].
    rewrite (Hshut _ _ Hl), Hs. cbn. eexists. by repeat split.
Qed.

(** X17: closing wakes the deliveries that wait.  After [ptx_unsubscribe],
    [ConnectionClosed] or [stop], every call of [DeliverReceiptBatch] that
    waited on the subscription has returned the closed error and none
    waits on it any more; no call starts to wait and none that had
    returned is forgotten; after [ptx_unsubscribe] and [ConnectionClosed]
    the calls that wait on other subscriptions still wait. *)
Theorem closing_wakes_waiting_deliveries x id l sub c :
  settled x →
  receiptSubs (streams x) !! id = Some l →
  objects (streams x) !! l = Some sub →
  ctrlID sub = id →
  (∃ rid rest, c = CallLifecycle {| Method := "ptx_unsubscribe"; reqID := rid;
                                    Params := id :: rest |}) ∨
  c = CallConnectionClosed l ∨
  (registered (streams x) ∧ c = CallStop) →
  let x' := act x c in
  settled x' ∧
  (∀ b, (l, b) ∉ waiting x') ∧
  (∀ b, (l, b) ∈ waiting x →
     (l, b, Some (MsgTxMgrJSONRPCSubscriptionClosed id)) ∈ finished x') ∧
  (∀ w, w ∈ waiting x' → w ∈ waiting x) ∧
  (∀ f, f ∈ finished x → f ∈ finished x') ∧
  (c ≠ CallStop → ∀ l' b, l' ≠ l → (l', b) ∈ waiting x → (l', b) ∈ waiting x').
Proof.
  intros Hx Hl Hs Hid Hc x'.
  split; [by apply settled_act|].
  assert (Hact : x' = plain x c).
  { subst x'. destruct Hc as [(rid & rest & ->)|[-> | [_ ->]]]; [|done|done].
    cbn [act]. unfold handedOver. cbn [Params Method hd length].
    by rewrite decide_False by (by intros [_ [?|?]]). }
  destruct (closing_closes (streams x) id l sub c Hl Hs Hid Hc)
    as [(sub' & Hs' & Hcl' & Hid') Hothers].
  rewrite Hact. unfold plain.
  destruct (wake_closed (perform (streams x) c) (waiting x) (finished x) l sub' Hs' Hcl')
    as [Hgone Hret].
  destruct (wake_keeps (perform (streams x) c) (waiting x) (finished x))
    as (Hsub & Hfin & Hstay).
  split; [done|]. split; [by rewrite <-Hid'|]. split; [done|]. split; [done|].
  intros Hns l' b Hne Hw.
  destruct (Hx l' b Hw) as (s' & Hs1 & Hop1 & _).
  apply (Hstay (l', b) s'); [done| |done].
  cbn. by rewrite (Hothers Hns l' Hne).
Qed.

Section more_poll_facts.
Context `{!OrchestratorAPI}.

(** ** More on [poll] *)

(** X8: the reap phase.  It adds no signer.  It asks an orchestrator to
    stop exactly when it is Stale and has been so for more than
    [maxOrchestratorStale], or Idle and has been so for more than
    [maxOrchestratorIdle]: not at the threshold itself, not in another
    state, and each state against its own threshold.  It keeps every
    orchestrator whose state is not Stopped after that, marked stale, and
    drops the others: a Stopped orchestrator always goes, a Running or
    Paused one always stays as it is.  [InFlightSigningAddresses] lists
    the survivors. *)
Theorem reap_phase_keeps_what_is_not_stopped ble now :
  (∀ a, InFlightOrchestrators ble !! a = None → survivors ble now !! a = None) ∧
  (∀ a oc, InFlightOrchestrators ble !! a = Some oc →
     let age := now - stateEntryTime oc in
     let kept o := survivors ble now !! a =
                     if decide (state o = OrchestratorStateStopped) then None
                     else Some (MarkInFlightTxStale o) in
     (state oc = OrchestratorStateStale →
        (age > maxOrchestratorStale ble → kept (Stop oc)) ∧
        (age <= maxOrchestratorStale ble →
           survivors ble now !! a = Some (MarkInFlightTxStale oc))) ∧
     (state oc = OrchestratorStateIdle →
        (age > maxOrchestratorIdle ble → kept (Stop oc)) ∧
        (age <= maxOrchestratorIdle ble →
           survivors ble now !! a = Some (MarkInFlightTxStale oc))) ∧
     (state oc = OrchestratorStateRunning ∨ state oc = OrchestratorStatePaused →
        survivors ble now !! a = Some (MarkInFlightTxStale oc)) ∧
     (state oc = OrchestratorStateStopped → survivors ble now !! a = None)) ∧
  (∀ a, a ∈ InFlightSigningAddresses (reapPhase ble now) ↔
        is_Some (survivors ble now !! a)).
Proof.
  destruct (reapPhase_spec ble now) as (Hlook & Haddr & _).
  fold (survivors ble now) in Hlook.
  split; [|split; [|done]].
  - intros a Ha. by rewrite Hlook, Ha.
  - intros a oc Ha age kept. subst age kept. cbn beta.
    rewrite Hlook, Ha. cbn. unfold reaped.
    split; [|split; [|split]].
    + intros Hst. split; intros Hage.
      * rewrite (decide_True (P := expired ble now oc)) by (left; by split).
        destruct (decide (state (Stop oc) = OrchestratorStateStopped)) as [Hs|Hs].
        -- by rewrite decide_False by (by intros ?).
        -- by rewrite decide_True.
      * rewrite (decide_False (P := expired ble now oc)).
        -- by rewrite decide_True by (by rewrite Hst).
        -- unfold expired. rewrite Hst. intros [[_ ?]|[? _]]; [lia|done].
    + intros Hst. split; intros Hage.
      * rewrite (decide_True (P := expired ble now oc)) by (right; by split).
        destruct (decide (state (Stop oc) = OrchestratorStateStopped)) as [Hs|Hs].
        -- by rewrite decide_False by (by intros ?).
        -- by rewrite decide_True.
      * rewrite (decide_False (P := expired ble now oc)).
        -- by rewrite decide_True by (by rewrite Hst).
        -- unfold expired. rewrite Hst. intros [[? _]|[_ ?]]; [done|lia].
    + intros Hst.
      rewrite (decide_False (P := expired ble now oc)).
      * rewrite decide_True; [done|]. by destruct Hst as [-> | ->].
      * unfold expired. destruct Hst as [-> | ->]; by intros [[? _]|[? _]].
    + intros Hst.
      rewrite (decide_False (P := expired ble now oc)).
      * by rewrite decide_False by (by intros ?).
      * unfold expired. rewrite Hst. by intros [[? _]|[? _]].
Qed.

(** X9: what [poll] creates.  When a poll with free slots returns
    without [-1], the rows are those of the attempt that succeeded, the
    last one; every survivor is in the pool unchanged, also when the store
    returns a row of its signer; a signer without orchestrator gets one,
    started, when a row is his, however many rows are; nobody else gets
    one.  [total] is the size of the pool and [polled] the number of
    orchestrators created, at most one per row. *)
Theorem poll_creates_one_orchestrator_per_signer env fuel ble r :
  freeSlots ble (now env) > 0 →
  poll env fuel ble = Some r →
  polled r ≠ -1 →
  let rows := (ListTransactions env (length (queries r)) (pollQueryOf ble (now env))).1 in
  (ListTransactions env (length (queries r)) (pollQueryOf ble (now env))).2 = None ∧
  (∀ a oc, survivors ble (now env) !! a = Some oc →
     InFlightOrchestrators (after r) !! a = Some oc) ∧
  (∀ a, survivors ble (now env) !! a = None → a ∈ From <$> rows →
     InFlightOrchestrators (after r) !! a =
       Some (Start (NewOrchestrator a (now env)))) ∧
  (∀ a, survivors ble (now env) !! a = None → a ∉ From <$> rows →
     InFlightOrchestrators (after r) !! a = None) ∧
  total r = Z.of_nat (size (InFlightOrchestrators (after r))) ∧
  polled r = total r - Z.of_nat (size (survivors ble (now env))) ∧
  0 <= polled r <= Z.of_nat (length rows).
Proof.
  intros Hfree Hpoll Hm1 rows. subst rows. unfold pollQueryOf.
  destruct (poll_free _ _ _ _ Hfree Hpoll) as (res & Hdo & Hq & _ & Hres).
  set (v1 := pauseWalk ble (now env) (reapPhase ble (now env))) in *.
  apply Do_poll_inv in Hdo as (k & _ & _ & Hi & Hrows & Hend).
  cbn [issued app] in Hi. rewrite Hq, Hi, length_replicate.
  destruct Hres as [(_ & _ & Hp & _)|(Herr & Hafter & Htot & Hpolled & _)]; [done|].
  destruct Hend as [[_ Hok]|[Hbad _]]; [|congruence].
  cbn zeta in Hafter, Htot, Hpolled.
  destruct (pauseWalk_spec ble (now env) (reapPhase ble (now env))) as (Hsame & _).
  fold v1 in Hsame. fold (survivors ble (now env)) in Hsame.
  destruct (createLoop_spec (now env)
              (additionalTxFromNonInFlightSigners (Retry.closure res)) v1)
    as (Hup & Hlow & Hkeep & Hnew & _).
  rewrite Hsame in Hup, Hlow, Hkeep, Hnew. rewrite Hrows in *.
  change (1 + k)%nat with (S k) in *.
  split; [done|]. rewrite Hafter. cbn [InFlightOrchestrators set_InFlightOrchestrators].
  split; [done|]. split; [|split].
  - intros a Ha Hin. by rewrite (Hnew a Ha), decide_True.
  - intros a Ha Hin. by rewrite (Hnew a Ha), decide_False.
  - split; [done|]. rewrite Hpolled, Htot.
    match goal with |- context [decide (?x > 0)] => destruct (decide (x > 0)) end;
      split; lia.
Qed.

(** X10: a full pool.  Without a free slot [poll] returns 0 and 0, also
    for [total], whatever the pool holds; the pool keeps the signers of
    the survivors; the gauge handed to the metrics is the free slots, zero
    or less. *)
Theorem poll_full_pool_reports_zero env fuel ble :
  freeSlots ble (now env) <= 0 →
  ∃ r, poll env fuel ble = Some r ∧
    polled r = 0 ∧ total r = 0 ∧
    size (InFlightOrchestrators (after r)) = size (survivors ble (now env)) ∧
    (∀ a, is_Some (InFlightOrchestrators (after r) !! a) ↔
          is_Some (survivors ble (now env) !! a)) ∧
    recorded r = Some (stateCounts (reapPhase ble (now env)),
                       freeSlots ble (now env)).
Proof.
  intros Hfull.
  assert (Hno : ¬ freeSlots ble (now env) > 0) by lia.
  rewrite (poll_full _ fuel _ Hno), fairnessLoop_spec.
  eexists. split; [done|]. cbn.
  split; [done|]. split; [done|]. split; [apply map_size_fmap|]. split.
  - intros a. rewrite lookup_fmap. by rewrite fmap_is_Some.
  - rewrite map_size_fmap. done.
Qed.

(** X11: [poll] writes the pool and the pause table and nothing else in
    the manager.  It never removes an entry of the pause table, also not
    one whose instant has passed; with free slots the table is untouched. *)
Theorem poll_writes_pool_and_pauses_only env fuel ble r :
  poll env fuel ble = Some r →
  completedTxNoncePerAddress (after r) = completedTxNoncePerAddress ble ∧
  InFlightOrchestratorStale (after r) = InFlightOrchestratorStale ble ∧
  maxInFlightOrchestrators (after r) = maxInFlightOrchestrators ble ∧
  maxOrchestratorStale (after r) = maxOrchestratorStale ble ∧
  maxOrchestratorIdle (after r) = maxOrchestratorIdle ble ∧
  maxOverloadProcessTime (after r) = maxOverloadProcessTime ble ∧
  retry (after r) = retry ble ∧
  (∀ a, is_Some (SigningAddressesPausedUntil ble !! a) →
        is_Some (SigningAddressesPausedUntil (after r) !! a)) ∧
  (freeSlots ble (now env) > 0 →
     SigningAddressesPausedUntil (after r) = SigningAddressesPausedUntil ble).
Proof.
  intros Hpoll.
  destruct (decide (freeSlots ble (now env) > 0)) as [Hfree|Hfull].
  - destruct (poll_free _ _ _ _ Hfree Hpoll) as (res & _ & _ & _ & Hres).
    destruct Hres as [(_ & -> & _)|(_ & -> & _)]; cbn; repeat (split; [reflexivity|]).
    all: split; [intros a Ha; exact Ha|intros _; reflexivity].
  - rewrite (poll_full _ _ _ Hfull), fairnessLoop_spec in Hpoll.
    injection Hpoll as <-. cbn. repeat (split; [reflexivity|]). split; [|done].
    intros a Ha. apply lookup_union_is_Some. by right.
Qed.

Lemma sumCounts_insert k n c :
  c !! k = None → sumCounts (<[k := n]> c) = n + sumCounts c.
Proof.
  intros Hk. unfold sumCounts. rewrite map_fold_insert_L; [done| |done].
  intros. lia.
Qed.

Lemma sumCounts_bump k c : sumCounts (bump k c) = sumCounts c + 1.
Proof.
  unfold bump. destruct (c !! k) as [n|] eqn:Hk; cbn.
  - rewrite <-(insert_delete_id c k n Hk) at 2.
    rewrite <-insert_delete_eq.
    rewrite !sumCounts_insert by apply lookup_delete_eq. lia.
  - rewrite sumCounts_insert by done. lia.
Qed.

Lemma sumCounts_zero : sumCounts zeroCounts = 0.
Proof. reflexivity. Qed.

Lemma reapPhase_counts ble now :
  sumCounts (stateCounts (reapPhase ble now)) =
  Z.of_nat (size (survivors ble now)).
Proof.
  unfold survivors, reapPhase.
  apply (map_fold_weak_ind (λ v m,
    (∀ a, m !! a = None → inFlight v !! a = None) ∧
    sumCounts (stateCounts v) = Z.of_nat (size (inFlight v)))).
  - split; [intros a _; apply lookup_empty|].
    cbn [stateCounts inFlight]. rewrite sumCounts_zero, map_size_empty. done.
  - intros i oc m v Hi [Hdom Hsum]. rewrite reapStep_reaped.
    destruct (reaped ble now oc) as [oc2|]; cbn.
    + split.
      * intros a Ha. apply lookup_insert_None in Ha as [Ha Hne].
        rewrite lookup_insert_ne by done. by apply Hdom.
      * rewrite sumCounts_bump, Hsum, map_size_insert_None by (by apply Hdom). lia.
    + split; [|done]. intros a Ha. apply lookup_insert_None in Ha as [Ha _].
      by apply Hdom.
Qed.

Lemma pauseWalk_counts ble now v :
  sumCounts (stateCounts (pauseWalk ble now v)) =
  sumCounts (stateCounts v) +
  Z.of_nat (size (filter (stillPaused now) (SigningAddressesPausedUntil ble))).
Proof.
  unfold pauseWalk.
  apply (map_fold_weak_ind (λ v1 m,
    sumCounts (stateCounts v1) =
    sumCounts (stateCounts v) + Z.of_nat (size (filter (stillPaused now) m)))).
  - rewrite map_filter_empty, map_size_empty. lia.
  - intros i t m v1 Hi IH. unfold pauseStep.
    destruct (decide (now < t)) as [Hlt|Hge]; cbn.
    + rewrite sumCounts_bump, IH, map_filter_insert_True by done.
      rewrite map_size_insert_None; [lia|]. by rewrite map_lookup_filter, Hi.
    + rewrite IH, map_filter_insert_not'; [done|done|]. intros y Hy. congruence.
Qed.

Lemma createLoop_counts now rows : ∀ v,
  sumCounts (stateCounts (foldl (createStep now) v rows)) -
    Z.of_nat (size (inFlight (foldl (createStep now) v rows))) =
  sumCounts (stateCounts v) - Z.of_nat (size (inFlight v)).
Proof.
  induction rows as [|mtx rows IH]; intros v; [done|].
  cbn [foldl]. rewrite IH. unfold createStep.
  destruct (inFlight v !! From mtx) eqn:Hl; [done|]. cbn.
  rewrite sumCounts_bump, map_size_insert_None by done. lia.
Qed.

(** X12: the metrics add up.  The gauge handed to
    [RecordInFlightOrchestratorPoolMetrics] is [maxInFlightOrchestrators]
    less the size of the pool, and the counters sum to the size of the
    pool, plus, when there were free slots, the number of signers still
    paused. *)
Theorem poll_metrics_add_up env fuel ble r counts free :
  poll env fuel ble = Some r →
  recorded r = Some (counts, free) →
  free = maxInFlightOrchestrators ble -
         Z.of_nat (size (InFlightOrchestrators (after r))) ∧
  sumCounts counts =
    Z.of_nat (size (InFlightOrchestrators (after r))) +
    (if decide (freeSlots ble (now env) > 0)
     then Z.of_nat (size (filter (stillPaused (now env))
                            (SigningAddressesPausedUntil ble)))
     else 0).
Proof.
  intros Hpoll Hrec.
  destruct (decide (freeSlots ble (now env) > 0)) as [Hfree|Hfull].
  - destruct (poll_free _ _ _ _ Hfree Hpoll) as (res & _ & _ & _ & Hres).
    destruct Hres as [(_ & _ & _ & _ & Hnone)|(_ & Hafter & Htot & _ & Hsome)];
      [congruence|].
    cbn zeta in Hafter, Htot, Hsome. rewrite Hrec in Hsome.
    injection Hsome as -> ->. rewrite Hafter, Htot. cbn. split; [done|].
    pose proof (createLoop_counts (now env)
      (additionalTxFromNonInFlightSigners (Retry.closure res))
      (pauseWalk ble (now env) (reapPhase ble (now env)))) as Hc.
    rewrite pauseWalk_counts, reapPhase_counts in Hc.
    destruct (pauseWalk_spec ble (now env) (reapPhase ble (now env))) as (Hsame & _).
    rewrite Hsame in Hc. fold (survivors ble (now env)) in Hc. lia.
  - rewrite (poll_full _ _ _ Hfull), fairnessLoop_spec in Hpoll.
    injection Hpoll as <-. cbn in *. injection Hrec as <- <-.
    rewrite map_size_fmap, reapPhase_counts. split; [done|lia].
Qed.
End more_poll_facts.

Section more_engine_facts.
Context `{!OrchestratorAPI}.
Variable envs : nat → pollEnv * nat.

(** ** More on the engine loop *)

Lemma try_send_length {A} (v : A) ch :
  (length ch ≤ length (Chan.try_send 1 v ch) ≤ S (length ch))%nat.
Proof. unfold Chan.try_send. case_decide; rewrite ?length_app; cbn; lia. Qed.

Lemma step_served e ev :
  (served (step envs e ev) ≤
   served e + (if decide (ev = EvMark ∨ ev = EvTickerFire) then 1 else 0))%nat.
Proof.
  destruct ev as [| | |w]; unfold served; cbn.
  - pose proof (try_send_length true (InFlightOrchestratorStale (ble e))).
    rewrite decide_True by (by left). lia.
  - pose proof (try_send_length () (tickerC e)).
    rewrite decide_True by (by right). lia.
  - rewrite decide_False by (by intros [?|?]). lia.
  - rewrite decide_False by (by intros [?|?]).
    unfold engineLoopTurn.
    destruct (engineLoopDone e || inPoll e || negb (ready w e)) eqn:Hguard; [lia|].
    apply orb_false_elim in Hguard as [_ Hready].
    apply negb_false_iff in Hready. destruct w; cbn in Hready.
    + match goal with |- context [callPoll _ ?w0 ?e0] =>
        destruct (callPoll_spec envs w0 e0) as (Hp & Ht & _ & _ & Hs & _)
      end.
      rewrite Hp, Ht, Hs, length_app. cbn.
      apply bool_decide_eq_true in Hready. destruct (tickerC e); [done|]. cbn. lia.
    + match goal with |- context [callPoll _ ?w0 ?e0] =>
        destruct (callPoll_spec envs w0 e0) as (Hp & Ht & _ & _ & Hs & _)
      end.
      rewrite Hp, Ht, Hs, length_app. cbn.
      apply bool_decide_eq_true in Hready.
      destruct (InFlightOrchestratorStale (ble e)); [done|]. cbn. lia.
    + cbn. lia.
Qed.

(** X13: no poll without a wake-up.  Along any schedule the polls made
    and the signals still waiting number at most what they were at the
    start plus the ticks and the calls of [MarkInFlightOrchestratorsStale]
    of the schedule. *)
Theorem no_poll_without_wake_up schedule : ∀ e,
  (served (run envs e schedule) ≤ served e + wakeUps schedule)%nat ∧
  (length (polls (run envs e schedule)) ≤
     length (polls e) + length (tickerC e) +
     length (InFlightOrchestratorStale (ble e)) + wakeUps schedule)%nat.
Proof.
  assert (H1 : ∀ sch e, (served (run envs e sch) ≤ served e + wakeUps sch)%nat).
  { induction sch as [|ev sch IH]; intros e; [unfold wakeUps; cbn; lia|].
    unfold run in *. cbn [foldl]. specialize (IH (step envs e ev)).
    pose proof (step_served e ev) as Hstep.
    unfold wakeUps in *.
    destruct (decide (ev = EvMark ∨ ev = EvTickerFire)) as [Hw|Hw];
      [rewrite filter_cons_True by done|rewrite filter_cons_False by done];
      cbn [length]; lia. }
  intros e. split; [apply H1|].
  specialize (H1 schedule e). unfold served in H1. lia.
Qed.

Lemma step_exit e ev :
  (engineLoopDone e = true →
     engineLoopDone (step envs e ev) = true ∧
     polls (step envs e ev) = polls e ∧
     InFlightOrchestrators (ble (step envs e ev)) = InFlightOrchestrators (ble e) ∧
     SigningAddressesPausedUntil (ble (step envs e ev)) =
       SigningAddressesPausedUntil (ble e)) ∧
  (done e = true → done (step envs e ev) = true) ∧
  (engineLoopDone (step envs e ev) = true →
     engineLoopDone e = true ∨ done e = true).
Proof.
  destruct ev as [| | |w]; cbn; try (by repeat split; auto).
  unfold engineLoopTurn.
  destruct (engineLoopDone e) eqn:Hd; cbn; [by repeat split; auto|].
  destruct (inPoll e || negb (ready w e)) eqn:Hguard; cbn.
  { split; [done|]. split; [done|]. rewrite Hd. done. }
  apply orb_false_elim in Hguard as [_ Hready].
  apply negb_false_iff in Hready.
  split; [done|].
  destruct w; cbn in *.
  1,2: match goal with |- context [callPoll _ ?w0 ?e0] =>
         destruct (callPoll_spec envs w0 e0) as (_ & _ & Hdn & Hex & _)
       end; rewrite Hdn, Hex; cbn; split; [done|done].
  split; [done|]. by right.
Qed.

(** X14: the end of the loop.  Once [engineLoop] has returned it polls
    no more, and the pool and the pause table stay as they are, whatever
    comes after; and it returns only when the context is done. *)
Theorem engine_loop_exit schedule : ∀ e,
  (engineLoopDone e = true →
     engineLoopDone (run envs e schedule) = true ∧
     polls (run envs e schedule) = polls e ∧
     InFlightOrchestrators (ble (run envs e schedule)) = InFlightOrchestrators (ble e) ∧
     SigningAddressesPausedUntil (ble (run envs e schedule)) =
       SigningAddressesPausedUntil (ble e)) ∧
  (engineLoopDone (run envs e schedule) = true →
     engineLoopDone e = true ∨ done (run envs e schedule) = true).
Proof.
  induction schedule as [|ev sch IH]; intros e.
  { cbn. split; [done|]. by left. }
  cbn [run foldl]. fold (run envs (step envs e ev) sch).
  destruct (IH (step envs e ev)) as [IH1 IH2].
  destruct (step_exit e ev) as (Hstay & Hdone & Hwhy).
  split.
  - intros Hd. destruct (Hstay Hd) as (Hd' & Hp & Hm & Hpa).
    destruct (IH1 Hd') as (? & ? & ? & ?). repeat split; congruence.
  - intros Hend. destruct (IH2 Hend) as [Hd'|Hdn]; [|by right].
    destruct (Hwhy Hd') as [?|Hdn]; [by left|right].
    clear -Hdn Hdone. revert e Hdn Hdone.
    revert ev. induction sch as [|ev' sch IHs]; intros ev e Hdn Hdone; [by apply Hdone|].
    cbn [run foldl]. fold (run envs (step envs (step envs e ev) ev') sch).
    apply (IHs ev' (step envs e ev)); [by apply Hdone|].
    apply step_exit.
Qed.
End more_engine_facts.

(** ** More on the completed-nonce cache *)

Lemma terminal_iff tx :
  terminal tx ↔
  ¬ (Status tx ≠ PubTxStatusSucceeded ∧ Status tx ≠ PubTxStatusFailed).
Proof.
  unfold terminal. split.
  - intros [-> | ->] [? ?]; done.
  - intros Hn. destruct (Status tx); try (by left); try (by right);
      exfalso; apply Hn; by split.
Qed.

Lemma update_lookup tx ble a :
  completedTxNoncePerAddress (u_after (updateCompletedTxNonce tx ble)) !! a =
  if decide (terminal tx ∧ From tx = a)
  then match completedTxNoncePerAddress ble !! a with
       | Some v => Some (Z.max v (Nonce tx))
       | None => Some (Nonce tx)
       end
  else completedTxNoncePerAddress ble !! a.
Proof.
  destruct (update_cases tx ble) as [(_ & -> & Hwhy)|(_ & -> & Hst & Hold)].
  - case_decide as Hd; [|done]. destruct Hd as [Ht <-].
    destruct Hwhy as [Hnt|(v & -> & Hge)].
    + by apply terminal_iff in Ht.
    + f_equal. lia.
  - cbn. case_decide as Hd.
    + destruct Hd as [_ <-]. rewrite lookup_insert_eq.
      destruct Hold as [-> |(v & -> & Hlt)]; [done|]. f_equal. lia.
    + rewrite lookup_insert_ne; [done|]. intros Heq. apply Hd. by split.
Qed.

Lemma updateAll_facts txs : ∀ ble a,
  let c := completedTxNoncePerAddress in
  (∀ v, c ble !! a = Some v → ∃ v', c (updateAll ble txs) !! a = Some v' ∧ v <= v') ∧
  (∀ tx, tx ∈ txs → terminal tx → From tx = a →
     ∃ v, c (updateAll ble txs) !! a = Some v ∧ Nonce tx <= v) ∧
  (∀ v, c (updateAll ble txs) !! a = Some v →
     c ble !! a = Some v ∨
     ∃ tx, tx ∈ txs ∧ terminal tx ∧ From tx = a ∧ Nonce tx = v).
Proof.
  induction txs as [|tx txs IH]; intros ble a c; subst c.
  { cbn. split; [intros v ->; exists v; split; [done|lia]|].
    split; [by intros tx ?%elem_of_nil|]. by left. }
  cbn [updateAll foldl].
  destruct (IH (u_after (updateCompletedTxNonce tx ble)) a) as (Hmono & Hup & Hatt).
  fold (updateAll (u_after (updateCompletedTxNonce tx ble)) txs) in *.
  pose proof (update_lookup tx ble a) as Hstep.
  split; [|split].
  - intros v Hv. rewrite Hv in Hstep.
    destruct (decide (terminal tx ∧ From tx = a)).
    + destruct (Hmono _ Hstep) as (v' & Hv' & Hle). exists v'. split; [done|lia].
    + by apply Hmono.
  - intros tx' [-> |Hin]%elem_of_cons Ht Hf; [|by eapply Hup].
    rewrite decide_True in Hstep by done.
    destruct (completedTxNoncePerAddress ble !! a) as [v0|];
      destruct (Hmono _ Hstep) as (v' & Hv' & Hle); exists v'; (split; [done|lia]).
  - intros v Hv. destruct (Hatt v Hv) as [Hprev|(tx' & Hin & Ht & Hf & Hn)].
    + rewrite Hprev in Hstep.
      destruct (decide (terminal tx ∧ From tx = a)) as [[Ht Hf]|]; [|by left].
      destruct (completedTxNoncePerAddress ble !! a) as [v0|] eqn:Hv0.
      * injection Hstep as Hv'. destruct (Z.max_spec v0 (Nonce tx)) as [[_ Hm]|[_ Hm]].
        -- right. exists tx. rewrite elem_of_cons. split; [by left|].
           split; [done|]. split; [done|]. lia.
        -- left. f_equal. lia.
      * injection Hstep as Hv'. right. exists tx. rewrite elem_of_cons.
        split; [by left|]. done.
    + right. exists tx'. rewrite elem_of_cons. split; [by right|done].
Qed.

Lemma updateAll_frame txs : ∀ ble,
  updateAll ble txs =
  set_completedTxNoncePerAddress (completedTxNoncePerAddress (updateAll ble txs)) ble.
Proof.
  induction txs as [|tx txs IH]; intros ble; [by destruct ble|].
  cbn [updateAll foldl]. fold (updateAll (u_after (updateCompletedTxNonce tx ble)) txs).
  rewrite IH at 1.
  destruct (update_cases tx ble) as [(_ & -> & _)|(_ & -> & _)]; done.
Qed.

(** X15: after [updateCompletedTxNonce] on a list of transactions the
    entry of a signer is at least the nonce of each of his terminal
    transactions in the list, and is either the entry from before or the
    nonce of one of them: it is the highest.  The order of the list does
    not matter. *)
Theorem cache_holds_highest_terminal_nonce txs ble a :
  let c := completedTxNoncePerAddress in
  (∀ tx, tx ∈ txs → terminal tx → From tx = a →
     ∃ v, c (updateAll ble txs) !! a = Some v ∧ Nonce tx <= v) ∧
  (∀ v, c (updateAll ble txs) !! a = Some v →
     c ble !! a = Some v ∨
     ∃ tx, tx ∈ txs ∧ terminal tx ∧ From tx = a ∧ Nonce tx = v) ∧
  (∀ txs', txs ≡ₚ txs' → updateAll ble txs' = updateAll ble txs).
Proof.
  intros c. subst c.
  destruct (updateAll_facts txs ble a) as (_ & Hup & Hatt).
  split; [done|]. split; [done|].
  intros txs' Hperm.
  rewrite (updateAll_frame txs'), (updateAll_frame txs). f_equal.
  apply map_eq. intros b.
  destruct (updateAll_facts txs ble b) as (Hm1 & Hu1 & Ha1).
  destruct (updateAll_facts txs' ble b) as (Hm2 & Hu2 & Ha2).
  assert (Hle : ∀ (l1 l2 : list PublicTx) o1 o2,
    (∀ x, x ∈ l1 → x ∈ l2) →
    (∀ v, completedTxNoncePerAddress ble !! b = Some v → ∃ v', o2 = Some v' ∧ v <= v') →
    (∀ tx, tx ∈ l2 → terminal tx → From tx = b → ∃ v, o2 = Some v ∧ Nonce tx <= v) →
    (∀ v, o1 = Some v → completedTxNoncePerAddress ble !! b = Some v ∨
          ∃ tx, tx ∈ l1 ∧ terminal tx ∧ From tx = b ∧ Nonce tx = v) →
    ∀ v, o1 = Some v → ∃ v', o2 = Some v' ∧ v <= v').
  { intros l1 l2 o1 o2 Hsub Hm Hu Ha v Hv.
    destruct (Ha v Hv) as [Hi|(tx & Hin & Ht & Hf & <-)]; [by apply Hm|].
    apply (Hu tx); [by apply Hsub|done|done]. }
  assert (Hin : ∀ x, x ∈ txs ↔ x ∈ txs') by (intros x; by rewrite Hperm).
  assert (H12 := Hle txs' txs _ _ (λ x, proj2 (Hin x)) Hm1 Hu1 Ha2).
  assert (H21 := Hle txs txs' _ _ (λ x, proj1 (Hin x)) Hm2 Hu2 Ha1).
  destruct (completedTxNoncePerAddress (updateAll ble txs') !! b) as [v2|] eqn:E2;
    destruct (completedTxNoncePerAddress (updateAll ble txs) !! b) as [v1|] eqn:E1.
  - destruct (H12 v2 eq_refl) as (v & [= <-] & ?).
    destruct (H21 v1 eq_refl) as (v & [= <-] & ?). f_equal. lia.
  - by destruct (H12 v2 eq_refl) as (v & ? & _).
  - by destruct (H21 v1 eq_refl) as (v & ? & _).
  - done.
Qed.

(** X16: the cache is filled once.  After a check that found no entry
    and got a row from the store, a check for the same signer reads the
    cache, asks nothing of the store and compares with the nonce of that
    row.  After a check whose query failed or found nothing, the cache is
    as before, the check says [false], and the next check asks the store
    again. *)
Theorem completed_check_fills_the_cache_once store1 store2 tx tx' ble :
  completedTxNoncePerAddress ble !! From tx = None →
  From tx' = From tx →
  let r1 := CheckTransactionCompleted store1 tx ble in
  let r2 := CheckTransactionCompleted store2 tx' (c_after r1) in
  (∀ tx0 rest,
     store1 (completedQuery (From tx)) = (tx0 :: rest, None) →
     honours (completedQuery (From tx)) (tx0 :: rest) →
     c_trace r2 = [EvRead (From tx')] ∧ c_after r2 = c_after r1 ∧
     (completed r2 = true ↔ Nonce tx0 >= Nonce tx')) ∧
  ((∃ txs e, store1 (completedQuery (From tx)) = (txs, Some e)) ∨
   store1 (completedQuery (From tx)) = ([], None) →
     c_after r1 = ble ∧ completed r1 = false ∧
     EvQuery (completedQuery (From tx')) ∈ c_trace r2).
Proof.
  intros Hnone Hfrom r1 r2. split.
  - intros tx0 rest Hq (_ & Hrows & _).
    destruct (Hrows tx0) as (Hst & Hf); [apply elem_of_cons; by left|].
    assert (Hf0 : From tx0 = From tx) by (by apply Hf).
    assert (Hterm : Status tx0 = PubTxStatusSucceeded ∨ Status tx0 = PubTxStatusFailed).
    { cbn in Hst. apply elem_of_cons in Hst as [?|Hst]; [by left|].
      apply elem_of_cons in Hst as [?|Hst]; [by right|]. by apply elem_of_nil in Hst. }
    assert (Hc1 : completedTxNoncePerAddress (c_after r1) !! From tx' = Some (Nonce tx0)).
    { subst r1. unfold CheckTransactionCompleted.
      rewrite (lookup2_None _ _ Hnone). cbn. rewrite Hq. cbn.
      rewrite update_fresh; [|done|by rewrite Hf0].
      by rewrite Hfrom, <-Hf0, lookup_insert_eq. }
    subst r2. unfold CheckTransactionCompleted at 1 2 3.
    rewrite (lookup2_Some _ _ _ Hc1). cbn.
    split; [done|]. split; [done|]. apply completed_ge.
  - intros Hbad.
    assert (Hr1 : c_after r1 = ble ∧ completed r1 = false).
    { subst r1. unfold CheckTransactionCompleted.
      rewrite (lookup2_None _ _ Hnone). cbn.
      destruct Hbad as [(txs & e & ->)| ->]; done. }
    destruct Hr1 as [Hr1 Hc]. split; [done|]. split; [done|].
    subst r2. rewrite Hr1. unfold CheckTransactionCompleted.
    rewrite Hfrom. rewrite (lookup2_None _ _ Hnone). cbn.
    destruct (store2 _) as [txs [e|]]; cbn; [apply (query_in_trace _ _ [])|].
    destruct txs; [apply (query_in_trace _ _ [])|apply query_in_trace].
Qed.

(** ** Concrete cases *)

#[local] Existing Instance specOrchestratorAPI.

(** C1: the claim as stated fails from a pool that starts above its bound.
    Two young running orchestrators and a bound of one: both survive, there
    is no free slot, nobody is overdue, and the pool still holds two. *)
Lemma poll_leaves_crowded_pool_crowded :
  ∃ r, Sample.poll (Sample.calm []) 1 Sample.crowded = Some r ∧
       queries r = [] ∧
       ¬ Z.of_nat (size (InFlightOrchestrators (after r))) <=
           maxInFlightOrchestrators Sample.crowded.
Proof.
  eexists. split; [vm_compute; reflexivity|]. split; [reflexivity|].
  vm_compute. intros H. by apply H.
Qed.

Lemma poll_pool_bound_witness :
  ∃ r, Sample.poll (Sample.calm [Sample.transaction "tx1" "0xB" 0 PubTxStatusPending])
         1 Sample.roomy = Some r ∧
       Z.of_nat (size (InFlightOrchestrators (after r))) <=
         maxInFlightOrchestrators Sample.roomy.
Proof.
  eexists. split; [vm_compute; reflexivity|].
  eapply (proj1 (@poll_pool_bound specOrchestratorAPI Sample.quiet)
            (Sample.calm [Sample.transaction "tx1" "0xB" 0 PubTxStatusPending])
            1%nat Sample.roomy).
  - vm_compute. discriminate.
  - intros n txs [= <-] k. vm_compute. intros [= <-] _. discriminate.
  - vm_compute. reflexivity.
Defined.

Lemma poll_fairness_eviction_witness :
  ∃ r, Sample.poll (Sample.calm []) 0 Sample.aged = Some r ∧
       queries r = [] ∧
       stopRequested <$> InFlightOrchestrators (after r) !! "0xA"%string = Some true ∧
       SigningAddressesPausedUntil (after r) !! "0xA"%string =
         Some (Sample.noon + 10 * Duration.Minute).
Proof.
  destruct (@poll_fairness_eviction specOrchestratorAPI (Sample.calm []) 0 Sample.aged)
    as (r & Hr & Hq & Hover & _).
  { vm_compute. discriminate. }
  exists r. split; [exact Hr|]. split; [exact Hq|].
  destruct (Hover "0xA"%string
              (MarkInFlightTxStale (Sample.running "0xA" (Sample.noon - 11 * Duration.Minute))))
    as [Hm Hp].
  { vm_compute. reflexivity. }
  { vm_compute. reflexivity. }
  rewrite Hm, Hp. split; reflexivity.
Defined.

Lemma CheckTransactionCompleted_spec_witness :
  let db := [Sample.transaction "tx3" "0xA" 3 PubTxStatusFailed;
             Sample.transaction "tx9" "0xA" 7 PubTxStatusSucceeded;
             Sample.transaction "tx12" "0xA" 12 PubTxStatusPending;
             Sample.transaction "tx20" "0xB" 20 PubTxStatusSucceeded] in
  let store := fun _ : PubTransactionQueries =>
    ([Sample.transaction "tx9" "0xA" 7 PubTxStatusSucceeded], @None error) in
  let tx := Sample.transaction "tx5" "0xA" 5 PubTxStatusSubmitted in
  let r := CheckTransactionCompleted store tx (Sample.manager ∅ ∅ 1) in
  completed r = true ∧
  completedTxNoncePerAddress (c_after r) !! "0xA"%string = Some 7 ∧
  writesLocked false (c_trace r) = true ∧
  (∀ t, t ∈ db → terminal t → From t = "0xA"%string →
     ∃ v, completedTxNoncePerAddress (c_after r) !! "0xA"%string = Some v ∧
          Nonce t <= v).
Proof.
  intros db store tx r.
  destruct (CheckTransactionCompleted_spec store tx (Sample.manager ∅ ∅ 1))
    as (Hiff & _ & Hnew & Hlock & _ & _ & Hdb).
  { intros txs [= <-]. split; [|split].
    - intros k [= <-] _. vm_compute. discriminate.
    - intros t ->%list_elem_of_singleton. split.
      + apply elem_of_cons. by left.
      + by intros a [= <-].
    - intros t _. apply not_elem_of_nil. }
  destruct (Hnew eq_refl) as (_ & Hrow & _).
  destruct (Hrow _ _ eq_refl) as [Hcache Hc].
  split; [apply Hc; vm_compute; discriminate|].
  split; [fold r in Hcache; rewrite Hcache; reflexivity|].
  split; [exact Hlock|].
  destruct (Hdb eq_refl db _ eq_refl) as (Htop & _); [|exact Htop].
  exists [Sample.transaction "tx9" "0xA" 7 PubTxStatusSucceeded;
          Sample.transaction "tx3" "0xA" 3 PubTxStatusFailed].
  split; [|split; [|reflexivity]].
  - intros t. split.
    + intros Ht. apply elem_of_cons in Ht as [-> |Ht];
        [|apply list_elem_of_singleton in Ht as ->];
        (split; [repeat first [apply list_elem_of_here|apply list_elem_of_further]|]);
        (split; [right; cbn; repeat first [apply list_elem_of_here|apply list_elem_of_further]|]);
        (split; [reflexivity|]); (split; [exact I|apply not_elem_of_nil]).
    + intros [Ht (Hst & Hfrom & _)].
      destruct Hst as [Hst|Hst]; [discriminate Hst|].
      repeat (apply elem_of_cons in Ht as [-> |Ht]).
      * apply elem_of_cons. right. apply elem_of_cons. by left.
      * apply elem_of_cons. by left.
      * cbn in Hst. repeat (apply elem_of_cons in Hst as [Hst|Hst]; [discriminate Hst|]).
        by apply elem_of_nil in Hst.
      * discriminate Hfrom.
      * by apply elem_of_nil in Ht.
  - intros _ i j t u Hi Hj Hij.
    destruct i as [|[|i]], j as [|[|j]]; cbn in Hi, Hj;
      try discriminate; try lia; injection Hi as <-; injection Hj as <-; cbn; lia.
Defined.


Lemma poll_retries_until_cancelled_witness :
  ∃ r, Sample.poll (Sample.flaky 2 [Sample.transaction "tx1" "0xB" 0 PubTxStatusPending])
         3 Sample.roomy = Some r ∧
       0 <= polled r ∧
       length (queries r) = 3%nat ∧
       waits r = [250 * Duration.Millisecond; 500 * Duration.Millisecond].
Proof.
  destruct (@poll_retries_until_cancelled specOrchestratorAPI
              (Sample.flaky 2 [Sample.transaction "tx1" "0xB" 0 PubTxStatusPending])
              Sample.roomy) as (_ & Hretry & _).
  { vm_compute. reflexivity. }
  destruct (Hretry 2%nat 3%nat) as [Hok _]; [lia| |].
  { intros i Hi. destruct i as [|[|i]]; [| |lia]; (split; [by eexists|reflexivity]). }
  destruct Hok as (r & Hr & Hp & Hq & Hw).
  { intros [e He]. discriminate He. }
  exists r. split; [exact Hr|]. split; [exact Hp|].
  rewrite Hq, Hw. split; reflexivity.
Defined.

Lemma updateCompletedTxNonce_frame_witness :
  let tx := Sample.transaction "tx5" "0xA" 5 PubTxStatusSucceeded in
  let u := updateCompletedTxNonce tx (Sample.manager ∅ ∅ 1) in
  updated u = true ∧
  completedTxNoncePerAddress (u_after u) !! "0xA"%string = Some 5.
Proof.
  intros tx u.
  destruct (updateCompletedTxNonce_frame tx (Sample.manager ∅ ∅ 1))
    as (_ & _ & Hiff & Hset & _).
  assert (Hu : updated u = true).
  { apply Hiff. split; [by left|by left]. }
  split; [exact Hu|]. exact (Hset Hu).
Defined.

(** C6: the claim as stated fails when the loop takes the first signal
    before the second call.  Two calls and no tick: the first call queues a
    signal, the loop takes it and polls, the second call queues a signal
    again, the loop takes it and polls again. *)
Lemma two_marks_apart_two_polls :
  let e := Sample.run Sample.quiet Sample.idle
             [EvMark; EvSelect WakeStale; EvMark; EvSelect WakeStale] in
  extraPolls e = 2%nat ∧ polls e = [WakeStale; WakeStale] ∧
  InFlightOrchestratorStale (ble e) = [].
Proof. vm_compute. repeat split. Qed.

Lemma stale_wake_coalesces_witness :
  let e := Sample.run Sample.quiet
             (Sample.run Sample.quiet Sample.idle (replicate 3 EvMark))
             (replicate 2 (EvSelect WakeStale)) in
  extraPolls e = 1%nat ∧ InFlightOrchestratorStale (ble e) = [].
Proof.
  destruct (@stale_wake_coalesces specOrchestratorAPI Sample.quiet) as (_ & _ & _ & Hone).
  destruct (Hone 3%nat 2%nat Sample.idle) as (_ & _ & _ & Hex & Hch);
    [lia|lia|reflexivity|reflexivity|reflexivity|].
  split; [exact Hex|exact Hch].
Defined.

(** C9: the claim as stated fails on a nack.  A [ptx_nack] request puts a
    nack in the channel of the subscription; [DeliverReceiptBatch] takes
    it and returns the nack error; the subscription is still open and
    still registered. *)
Lemma nack_leaves_subscription_open :
  let es1 := (HandleLifecycle Sample.nack Sample.listening).1 in
  ∃ es2,
    deliverAt CaseAckNack 0%nat 7 ["receipt1"%string] es1 =
      Some (es2, Returned (Some (MsgTxMgrJSONRPCSubscriptionNack "sub1"))) ∧
    closed <$> objects es2 !! 0%nat = Some false ∧
    ctrlClosed <$> objects es2 !! 0%nat = Some false ∧
    receiptSubs es2 !! "sub1"%string = Some 0%nat.
Proof. eexists. vm_compute. repeat split. Qed.

Lemma DeliverReceiptBatch_outcomes_witness :
  let es1 := (HandleLifecycle Sample.nack Sample.listening).1 in
  receiptSubs es1 = receiptSubs Sample.listening ∧
  closed <$> objects es1 !! 0%nat = Some false.
Proof.
  destruct DeliverReceiptBatch_outcomes as (_ & _ & Hreq).
  destruct (Hreq Sample.nack Sample.listening) as [Hsubs Hclosed]; [by right|].
  split; [exact Hsubs|]. rewrite Hclosed. reflexivity.
Defined.

(** ** Concrete cases of the further properties *)

Lemma listening_registered : registered Sample.listening.
Proof.
  intros k l Hk. cbn in Hk. apply lookup_singleton_Some in Hk as [<- <-].
  exists (newSubscription "sub1"). by repeat split.
Qed.

Lemma subscriptions_stay_registered_witness :
  registered (perform Sample.listening (CallLifecycle Sample.nack)) ∧
  registered (foldl perform newRPCEventStreams Probe.session).
Proof.
  destruct subscriptions_stay_registered as [Hstep Hall].
  split; [apply Hstep, listening_registered|apply Hall].
Defined.

Lemma HandleStart_outcomes_witness :
  let res := HandleStart Probe.anyType Probe.missing "sub2" Probe.subscribe
               Sample.listening in
  is_Some (receiptSubs res.1 !! "sub2"%string) ∧
  res.2 = (None, StartErrorResponse (ErrAddReceiptReceiver "no such listener")
                   "7").
Proof.
  intros res.
  destruct (HandleStart_outcomes Probe.anyType Probe.missing "sub2" Probe.subscribe
              Sample.listening) as [_ Hacc].
  destruct Hacc as (_ & Hsubs & _ & Hres); [split; [reflexivity|cbn; lia]|].
  fold res in Hsubs, Hres. rewrite Hsubs, Hres, lookup_insert_eq.
  split; [by eexists|reflexivity].
Defined.

Lemma subscribe_unsubscribe_round_trip_witness :
  let es1 := (HandleStart Probe.anyType Probe.found "sub2" Probe.subscribe
                Sample.listening).1 in
  let bye := {| Method := "ptx_unsubscribe"; reqID := "8";
                Params := ["sub2"%string] |} in
  let r2 := HandleLifecycle bye es1 in
  r2.2 = Some (RPCResult "8" true) ∧
  receiptSubs r2.1 = receiptSubs Sample.listening ∧
  HandleLifecycle bye r2.1 = (r2.1, Some (RPCResult "8" false)).
Proof.
  intros es1 bye r2.
  destruct (subscribe_unsubscribe_round_trip Probe.anyType Probe.found "sub2"
              Probe.subscribe Sample.listening "8" [])
    as (Hres & Hsubs & _ & _ & Hagain); [reflexivity|cbn; lia|].
  split; [exact Hres|]. split; [|exact Hagain].
  fold es1 bye r2 in Hsubs. rewrite Hsubs. by apply delete_id.
Defined.

Lemma stop_closes_every_subscription_witness :
  receiptSubs (stop Sample.listening) = ∅ ∧
  closed <$> objects (stop Sample.listening) !! 0%nat = Some true ∧
  stop (stop Sample.listening) = stop Sample.listening.
Proof.
  destruct (stop_closes_every_subscription Sample.listening listening_registered)
    as (Hempty & Hshut & _ & Hagain).
  split; [exact Hempty|]. split; [|exact Hagain].
  destruct (Hshut "sub1"%string 0%nat) as (sub & sub' & _ & Hs' & Hcl & _);
    [reflexivity|].
  unfold loc in *. rewrite Hs'. cbn. by rewrite Hcl.
Defined.

Lemma HandleLifecycle_routing_witness :
  let req := {| Method := "ptx_pause"; reqID := "3"; Params := ["sub1"%string] |} in
  HandleLifecycle req Sample.listening =
    (Sample.listening,
     Some (RPCErrorResponse (MsgTxMgrLifecycleMethodUnknown "ptx_pause") "3")).
Proof.
  intros req.
  destruct (HandleLifecycle_routing req Sample.listening) as [_ Hsome].
  destruct Hsome as (Hunknown & _ & Hsame & _); [discriminate|].
  assert (Hout : Method req ∉ LifecycleMethods).
  { intros H. repeat (apply elem_of_cons in H as [H|H]; [discriminate H|]).
    by apply elem_of_nil in H. }
  apply Hunknown in Hout as Hres. apply Hsame in Hout as Hes.
  destruct (HandleLifecycle req Sample.listening) as [es res].
  cbn in Hres, Hes. by rewrite Hres, Hes.
Defined.

Lemma acks_serve_deliveries_in_order_witness :
  let x := act Probe.hearing (CallDeliver CaseAckNack 0%nat 7 ["receipt1"%string]) in
  let x1 := act x (CallLifecycle Sample.nack) in
  let x2 := act x1 (CallLifecycle Probe.ack) in
  let x3 := act x2 (CallDeliver CaseAckNack 0%nat 8 ["receipt2"%string]) in
  waiting x = [(0%nat, 7)] ∧
  finished x1 = [(0%nat, 7, Some (MsgTxMgrJSONRPCSubscriptionNack "sub1"))] ∧
  waiting x3 = [] ∧
  finished x3 = [(0%nat, 7, Some (MsgTxMgrJSONRPCSubscriptionNack "sub1"));
                 (0%nat, 8, None)].
Proof.
  intros x x1 x2 x3.
  destruct acks_serve_deliveries_in_order as (Hstep & _ & Horder).
  assert (Hx : settled x).
  { apply Hstep. by intros l b ?%elem_of_nil. }
  destruct (Horder x "sub1"%string 0%nat
              (afterSend 7 ["receipt1"%string] (newSubscription "sub1"))
              "ptx_nack"%string "ptx_ack"%string "1"%string "2"%string [] [] Hx)
    as [_ Hwaits]; [reflexivity|reflexivity|reflexivity|reflexivity|by right|by left|].
  destruct (Hwaits [] 7 []) as (_ & _ & Hf1 & _ & Hnext);
    [reflexivity|by intros w ?%elem_of_nil|].
  destruct Hnext as (_ & _ & _ & Hdeliver); [by intros w ?%elem_of_nil|].
  destruct (Hdeliver CaseAckNack 8 ["receipt2"%string]) as [Hw3 Hf3].
  split; [reflexivity|]. split; [exact Hf1|]. split; [exact Hw3|].
  etrans; [exact Hf3|]. reflexivity.
Defined.

Lemma closed_subscription_never_blocks_witness :
  let es' := ConnectionClosed 0%nat Sample.listening in
  receiptSubs es' !! "sub1"%string = None ∧
  ∃ es'', deliverAt CaseAckNack 0%nat 7 ["receipt1"%string] es' =
            Some (es'', Returned (Some (MsgTxMgrJSONRPCSubscriptionClosed "sub1"))).
Proof.
  intros es'.
  destruct (closed_subscription_never_blocks Sample.listening "sub1" 0%nat
              (newSubscription "sub1") eq_refl eq_refl eq_refl es')
    as (Hgone & Hdeliver & _); [by right; left|].
  split; [exact Hgone|].
  destruct (Hdeliver CaseAckNack 7 ["receipt1"%string]) as (es'' & d & Hd & _ & Hclosed).
  exists es''. by rewrite Hd, Hclosed.
Defined.

Lemma reap_phase_keeps_what_is_not_stopped_witness :
  stopRequested <$> survivors Probe.mixed Sample.noon !! "0xI"%string = Some true ∧
  stopRequested <$> survivors Probe.mixed Sample.noon !! "0xS"%string = Some false ∧
  stopRequested <$> survivors Probe.mixed Sample.noon !! "0xT"%string = Some false ∧
  survivors Probe.mixed Sample.noon !! "0xB"%string = None.
Proof.
  destruct (reap_phase_keeps_what_is_not_stopped Probe.mixed Sample.noon)
    as (Hnone & Hsome & _).
  split; [|split; [|split; [|by apply Hnone]]].
  - destruct (Hsome "0xI"%string
                (Probe.resting "0xI" OrchestratorStateIdle
                   (Sample.noon - 11 * Duration.Second)))
      as (_ & Hidle & _); [reflexivity|].
    destruct (Hidle eq_refl) as [Hover _].
    rewrite Hover; [reflexivity|vm_compute; reflexivity].
  - destruct (Hsome "0xS"%string
                (Probe.resting "0xS" OrchestratorStateStale
                   (Sample.noon - 30 * Duration.Second)))
      as (Hstale & _); [reflexivity|].
    destruct (Hstale eq_refl) as [_ Hunder].
    rewrite Hunder; [reflexivity|vm_compute; discriminate].
  - destruct (Hsome "0xT"%string
                (Probe.resting "0xT" OrchestratorStateStale
                   (Sample.noon - 1 * Duration.Minute)))
      as (Hstale & _); [reflexivity|].
    destruct (Hstale eq_refl) as [_ Hunder].
    rewrite Hunder; [reflexivity|vm_compute; discriminate].
Defined.

Lemma poll_creates_one_orchestrator_per_signer_witness :
  ∃ r, Sample.poll (Sample.calm [Sample.transaction "tx1" "0xB" 0 PubTxStatusPending;
                                  Sample.transaction "tx2" "0xB" 1 PubTxStatusPending])
         1 Sample.roomy = Some r ∧
       InFlightOrchestrators (after r) !! "0xB"%string =
         Some (Start (NewOrchestrator "0xB" Sample.noon)) ∧
       0 <= polled r <= 2.
Proof.
  set (env := Sample.calm [Sample.transaction "tx1" "0xB" 0 PubTxStatusPending;
                           Sample.transaction "tx2" "0xB" 1 PubTxStatusPending]).
  destruct (Sample.poll env 1 Sample.roomy) as [r|] eqn:Hr;
    [|vm_compute in Hr; discriminate Hr].
  exists r. split; [reflexivity|].
  destruct (poll_creates_one_orchestrator_per_signer env 1%nat Sample.roomy r)
    as (_ & _ & Hnew & _ & _ & _ & Hpolled).
  - vm_compute. reflexivity.
  - exact Hr.
  - intros Hm. revert Hr. vm_compute. intros [= <-]. discriminate Hm.
  - split; [|exact Hpolled].
    apply Hnew; [vm_compute; reflexivity|].
    cbn. apply elem_of_cons. by left.
Defined.

Lemma poll_full_pool_reports_zero_witness :
  ∃ r, Sample.poll (Sample.calm []) 1 Sample.crowded = Some r ∧
       polled r = 0 ∧ total r = 0 ∧
       size (InFlightOrchestrators (after r)) = 2%nat.
Proof.
  destruct (poll_full_pool_reports_zero (Sample.calm []) 1%nat Sample.crowded)
    as (r & Hr & Hp & Ht & Hsize & _); [vm_compute; discriminate|].
  exists r. split; [exact Hr|]. split; [exact Hp|]. split; [exact Ht|].
  rewrite Hsize. vm_compute. reflexivity.
Defined.

Lemma poll_writes_pool_and_pauses_only_witness :
  ∃ r, Sample.poll (Sample.calm [Sample.transaction "tx1" "0xB" 0 PubTxStatusPending])
         1 Sample.roomy = Some r ∧
       SigningAddressesPausedUntil (after r) !! "0xQ"%string =
         Some (Sample.noon - Duration.Minute) ∧
       completedTxNoncePerAddress (after r) = ∅.
Proof.
  set (env := Sample.calm [Sample.transaction "tx1" "0xB" 0 PubTxStatusPending]).
  destruct (Sample.poll env 1 Sample.roomy) as [r|] eqn:Hr;
    [|vm_compute in Hr; discriminate Hr].
  exists r. split; [reflexivity|].
  destruct (poll_writes_pool_and_pauses_only env 1%nat Sample.roomy r Hr)
    as (Hcache & _ & _ & _ & _ & _ & _ & _ & Hpauses).
  rewrite Hcache, Hpauses; [split; reflexivity|vm_compute; reflexivity].
Defined.

Lemma poll_metrics_add_up_witness :
  ∃ r counts free,
    Sample.poll (Sample.calm [Sample.transaction "tx1" "0xB" 0 PubTxStatusPending])
      1 Sample.roomy = Some r ∧
    recorded r = Some (counts, free) ∧
    free = 3 - Z.of_nat (size (InFlightOrchestrators (after r))) ∧
    sumCounts counts = Z.of_nat (size (InFlightOrchestrators (after r))) + 1.
Proof.
  set (env := Sample.calm [Sample.transaction "tx1" "0xB" 0 PubTxStatusPending]).
  destruct (Sample.poll env 1 Sample.roomy) as [r|] eqn:Hr;
    [|vm_compute in Hr; discriminate Hr].
  destruct (recorded r) as [[counts free]|] eqn:Hrec;
    [|revert Hr Hrec; vm_compute; intros [= <-]; discriminate].
  exists r, counts, free. split; [reflexivity|]. split; [exact Hrec|].
  destruct (poll_metrics_add_up env 1%nat Sample.roomy r counts free Hr Hrec)
    as [Hfree Hsum].
  split; [exact Hfree|]. rewrite Hsum. f_equal.
Defined.

Lemma engine_loop_exit_witness :
  let e := Sample.run Sample.quiet Probe.returned
             [EvTickerFire; EvMark; EvSelect WakeTicker; EvSelect WakeStale] in
  engineLoopDone e = true ∧ polls e = [] ∧
  InFlightOrchestrators (ble e) = InFlightOrchestrators Sample.roomy.
Proof.
  intros e.
  destruct (engine_loop_exit Sample.quiet
              [EvTickerFire; EvMark; EvSelect WakeTicker; EvSelect WakeStale]
              Probe.returned) as [Hstay _].
  destruct (Hstay eq_refl) as (Hd & Hp & Hm & _).
  split; [exact Hd|]. split; [exact Hp|exact Hm].
Defined.

Lemma cache_holds_highest_terminal_nonce_witness :
  let txs := [Sample.transaction "tx5" "0xA" 5 PubTxStatusSucceeded;
              Sample.transaction "tx9" "0xA" 9 PubTxStatusFailed;
              Sample.transaction "tx12" "0xA" 12 PubTxStatusPending] in
  (∃ v, completedTxNoncePerAddress (updateAll (Sample.manager ∅ ∅ 1) txs) !! "0xA"%string
          = Some v ∧ 9 <= v) ∧
  updateAll (Sample.manager ∅ ∅ 1) (reverse txs) = updateAll (Sample.manager ∅ ∅ 1) txs.
Proof.
  intros txs.
  destruct (cache_holds_highest_terminal_nonce txs (Sample.manager ∅ ∅ 1) "0xA"%string)
    as (Hup & _ & Hperm).
  split.
  - apply (Hup (Sample.transaction "tx9" "0xA" 9 PubTxStatusFailed)).
    + apply elem_of_cons. right. apply elem_of_cons. by left.
    + by right.
    + reflexivity.
  - apply Hperm. symmetry. apply reverse_Permutation.
Defined.

Lemma completed_check_fills_the_cache_once_witness :
  let store := fun _ : PubTransactionQueries =>
    ([Sample.transaction "tx9" "0xA" 7 PubTxStatusSucceeded], @None error) in
  let down := fun _ : PubTransactionQueries =>
    (@nil PublicTx, Some (ErrStore "connection refused")) in
  let r1 := CheckTransactionCompleted store
              (Sample.transaction "tx5" "0xA" 5 PubTxStatusSubmitted)
              (Sample.manager ∅ ∅ 1) in
  let r2 := CheckTransactionCompleted down
              (Sample.transaction "tx8" "0xA" 8 PubTxStatusSubmitted) (c_after r1) in
  c_trace r2 = [EvRead "0xA"] ∧ c_after r2 = c_after r1.
Proof.
  intros store down r1 r2.
  destruct (completed_check_fills_the_cache_once store down
              (Sample.transaction "tx5" "0xA" 5 PubTxStatusSubmitted)
              (Sample.transaction "tx8" "0xA" 8 PubTxStatusSubmitted)
              (Sample.manager ∅ ∅ 1)) as [Hfilled _]; [reflexivity|reflexivity|].
  destruct (Hfilled (Sample.transaction "tx9" "0xA" 7 PubTxStatusSucceeded) [])
    as (Htrace & Hafter & _); [reflexivity| |].
  { split; [|split].
    - intros k [= <-] _. vm_compute. discriminate.
    - intros t ->%list_elem_of_singleton. split.
      + apply elem_of_cons. by left.
      + by intros a [= <-].
    - intros t _. apply not_elem_of_nil. }
  split; [exact Htrace|exact Hafter].
Defined.

Lemma closing_wakes_waiting_deliveries_witness :
  let x := act Probe.hearing (CallDeliver CaseAckNack 0%nat 7 ["receipt1"%string]) in
  let x' := act x (CallConnectionClosed 0%nat) in
  waiting x = [(0%nat, 7)] ∧
  (∀ b, (0%nat, b) ∉ waiting x') ∧
  (0%nat, 7, Some (MsgTxMgrJSONRPCSubscriptionClosed "sub1")) ∈ finished x'.
Proof.
  intros x x'. split; [reflexivity|].
  destruct (closing_wakes_waiting_deliveries x "sub1"%string 0%nat
              (afterSend 7 ["receipt1"%string] (newSubscription "sub1"))
              (CallConnectionClosed 0%nat))
    as (_ & Hgone & Hret & _);
    [|reflexivity|reflexivity|reflexivity|by right; left|].
  { apply settled_act. by intros l b ?%elem_of_nil. }
  split; [exact Hgone|]. apply Hret. apply elem_of_cons. by left.
Defined.
